(** * openunmix/model.py: the sliCQ masking network and the chunked separator

    A shallow embedding of [src/openunmix/model.py].  Tensors are kept as a
    shape together with their elements in row-major (contiguous) order, which
    is the order [reshape] observes.  Python exceptions are values of an error
    monad.  Floating-point arithmetic is not interpreted: the scalar type is
    a parameter with the operations the source applies to it. *)

From stdpp Require Import base numbers list gmap strings.
From Stdlib Require Import ZArith Lia QArith Qcanon Ascii.

Open Scope nat_scope.

(** ** Exceptions and the error monad *)

Inductive exn :=
  | ZeroDivisionError
  | RuntimeError
  | IndexError
  | TypeError
  | ValueError
  | KeyError (k : string).

Inductive result (A : Type) :=
  | Ok (a : A)
  | Raise (e : exn).
Arguments Ok {A} a.
Arguments Raise {A} e.

#[global] Instance result_ret : MRet result := λ A a, Ok a.
#[global] Instance result_bind : MBind result := λ A B f m,
  match m with Ok a => f a | Raise e => Raise e end.

Definition from_option {A} (e : exn) (o : option A) : result A :=
  match o with Some a => Ok a | None => Raise e end.

Definition is_Ok {A} (r : result A) : Prop := ∃ a, r = Ok a.

(** [for x in xs: acc = body(acc, x)] with an enumeration counter. *)
Fixpoint for_enumerate {A S} (body : nat → A → S → result S)
    (j : nat) (xs : list A) (acc : S) : result S :=
  match xs with
  | [] => Ok acc
  | x :: xs' => acc' ← body j x acc; for_enumerate body (Datatypes.S j) xs' acc'
  end.

(** [[f(x) for x in xs]], stopping at the first exception. *)
Fixpoint for_each {A B} (f : A → result B) (xs : list A) : result (list B) :=
  match xs with
  | [] => Ok []
  | x :: xs' => y ← f x; ys ← for_each f xs'; Ok (y :: ys)
  end.

(** ** Scalars *)

Class Scalar (R : Type) := {
  zero : R;
  one : R;
  add : R → R → R;
  mul : R → R → R;
  neg : R → R;
  recip : R → R  (* [1.0 / x] *)
}.

#[global] Instance scalar_inhabited `{Scalar R} : Inhabited R := populate zero.

(** ** Tensors *)

Definition numel (s : list nat) : nat := foldr Nat.mul 1 s.

Definition tabulate {A} (n : nat) (f : nat → A) : list A := f <$> seq 0 n.

(** Multi-index of flat position [i] in a contiguous tensor of shape [s]. *)
Fixpoint unravel (s : list nat) (i : nat) : list nat :=
  match s with
  | [] => []
  | _ :: s' => i / numel s' :: unravel s' (i mod numel s')
  end.

(** Flat position of a multi-index. *)
Fixpoint ravel (s idx : list nat) : nat :=
  match s, idx with
  | _ :: s', k :: idx' => k * numel s' + ravel s' idx'
  | _, _ => 0
  end.

(** [idx] is a full multi-index into a tensor of shape [s]. *)
Fixpoint in_range (s idx : list nat) : Prop :=
  match s, idx with
  | [], [] => True
  | d :: s', k :: idx' => k < d ∧ in_range s' idx'
  | _, _ => False
  end.

Section Tensor.
Context {R : Type} `{Scalar R}.

Record Tensor := mkTensor { shape : list nat; data : list R }.

(** A tensor holds as many elements as its shape says. *)
Definition wf (t : Tensor) : Prop := length (data t) = numel (shape t).

(** [t[idx]] for a full multi-index. *)
Definition get (t : Tensor) (idx : list nat) : R :=
  data t !!! ravel (shape t) idx.

(** [torch.zeros(shape)], [torch.ones(shape)], [torch.tensor(x)] *)
Definition zeros (s : list nat) : Tensor := mkTensor s (replicate (numel s) zero).
Definition ones (s : list nat) : Tensor := mkTensor s (replicate (numel s) one).
Definition scalar_tensor (x : R) : Tensor := mkTensor [] [x].

(** *** Broadcasting *)

Fixpoint broadcast_rev (a b : list nat) : option (list nat) :=
  match a, b with
  | [], _ => Some b
  | _, [] => Some a
  | x :: a', y :: b' =>
      r ← broadcast_rev a' b';
      if decide (x = y) then Some (x :: r)
      else if decide (x = 1) then Some (y :: r)
      else if decide (y = 1) then Some (x :: r)
      else None
  end.

(** [torch.broadcast_shapes(a, b)]: trailing dimensions are aligned; two
    sizes are compatible when equal or when one of them is 1. *)
Definition broadcast_shapes (a b : list nat) : result (list nat) :=
  from_option RuntimeError (reverse <$> broadcast_rev (reverse a) (reverse b)).

(** Position read in a tensor of shape [src] for position [i] of its
    expansion to shape [tgt]: a dimension of size 1 is read at 0, the
    leading dimensions [src] lacks are dropped. *)
Definition expand_index (src tgt : list nat) (i : nat) : nat :=
  let idx := drop (length tgt - length src) (unravel tgt i) in
  ravel src (zip_with (λ d k, if decide (d = 1) then 0 else k) src idx).

Definition expand_data (t : Tensor) (tgt : list nat) : list R :=
  tabulate (numel tgt) (λ i, data t !!! expand_index (shape t) tgt i).

(** [t.expand(tgt)] *)
Definition expand (t : Tensor) (tgt : list nat) : result Tensor :=
  s ← broadcast_shapes (shape t) tgt;
  if decide (s = tgt) then Ok (mkTensor tgt (expand_data t tgt))
  else Raise RuntimeError.

(** Elementwise binary operation with broadcasting ([a + b], [a * b]). *)
Definition pointwise (op : R → R → R) (a b : Tensor) : result Tensor :=
  s ← broadcast_shapes (shape a) (shape b);
  Ok (mkTensor s (zip_with op (expand_data a s) (expand_data b s))).

Definition tensor_add := pointwise add.
Definition tensor_mul := pointwise mul.

(** [-t] and [1.0 / t] *)
Definition tensor_neg (t : Tensor) : Tensor := mkTensor (shape t) (neg <$> data t).
Definition tensor_recip (t : Tensor) : Tensor := mkTensor (shape t) (recip <$> data t).

(** *** Views *)

(** Shape inference of [reshape]/[view]: at most one [-1], which is
    inferred when the known sizes have a non-zero product dividing the
    number of elements. *)
Definition infer_size (spec : list Z) (n : nat) : result (list nat) :=
  if decide (Exists (λ d, d < -1)%Z spec) then Raise RuntimeError
  else
    let known := filter (λ d, d ≠ -1)%Z spec in
    let newsize := numel (Z.to_nat <$> known) in
    match length spec - length known with
    | 0 => if decide (n = newsize) then Ok (Z.to_nat <$> spec)
           else Raise RuntimeError
    | 1 => if decide (0 < newsize ∧ n mod newsize = 0)
           then Ok ((λ d, if decide (d = -1)%Z then n / newsize else Z.to_nat d) <$> spec)
           else Raise RuntimeError
    | _ => Raise RuntimeError
    end.

(** [t.reshape(spec)]: elements keep their row-major order. *)
Definition reshape (t : Tensor) (spec : list Z) : result Tensor :=
  s ← infer_size spec (numel (shape t));
  Ok (mkTensor s (data t)).

(** [t.permute(perm)] (followed by [.contiguous()]: the elements are laid
    out again in row-major order of the new shape). *)
Definition permute_index (s perm : list nat) (i : nat) : nat :=
  let s' := (λ p, s !!! p) <$> perm in
  let idx' := unravel s' i in
  let idx := foldr (λ pk acc, <[pk.1 := pk.2]> acc) (replicate (length s) 0)
                   (zip perm idx') in
  ravel s idx.

Definition permute (t : Tensor) (perm : list nat) : result Tensor :=
  if decide (perm ≡ₚ seq 0 (length (shape t))) then
    let s' := (λ p, shape t !!! p) <$> perm in
    Ok (mkTensor s' (tabulate (numel s') (λ i, data t !!! permute_index (shape t) perm i)))
  else Raise RuntimeError.

(** [for row in t]: the sub-tensors along the first axis. *)
Definition unbind0 (t : Tensor) : result (list Tensor) :=
  match shape t with
  | [] => Raise TypeError
  | n :: s' =>
      Ok ((λ i, mkTensor s' (take (numel s') (drop (i * numel s') (data t)))) <$> seq 0 n)
  end.

(** [torch.cat([torch.unsqueeze(t, dim=0) for t in ts], dim=0)].  On an
    empty list [torch.cat] raises; the class of the exception differs between
    versions of torch ([RuntimeError] in the older ones, [ValueError] in the
    later ones) and the repository pins none: no statement below depends on
    the class written here, only on the fact that it raises. *)
Definition stack0 (ts : list Tensor) : result Tensor :=
  match ts with
  | [] => Raise RuntimeError
  | t0 :: _ =>
      if decide (Forall (λ t, shape t = shape t0) ts)
      then Ok (mkTensor (length ts :: shape t0) (concat (data <$> ts)))
      else Raise RuntimeError
  end.

(** [torch.nn.functional.pad(t, (0, p))]: [p] zeros appended to the last
    axis; a negative [p] removes trailing elements instead. *)
Definition F_pad (t : Tensor) (p : Z) : result Tensor :=
  match reverse (shape t) with
  | [] => Raise RuntimeError
  | L :: pre =>
      if decide (Z.of_nat L + p < 0)%Z then Raise RuntimeError
      else
        let L' := Z.to_nat (Z.of_nat L + p) in
        let s' := reverse (L' :: pre) in
        Ok (mkTensor s' (tabulate (numel s')
              (λ i, if decide (i mod L' < L) then data t !!! (i / L' * L + i mod L')
                    else zero)))
  end.

(** [t[..., :n]] for [n >= 0]: the slice bound is clamped to the axis. *)
Definition narrow_last (t : Tensor) (n : nat) : result Tensor :=
  match reverse (shape t) with
  | [] => Raise IndexError
  | L :: pre =>
      let L' := n `min` L in
      let s' := reverse (L' :: pre) in
      Ok (mkTensor s' (tabulate (numel s') (λ i, data t !!! (i / L' * L + i mod L'))))
  end.

(** [t[:n]] on the first axis. *)
Definition narrow_first (t : Tensor) (n : nat) : result Tensor :=
  match shape t with
  | [] => Raise IndexError
  | L :: s' => Ok (mkTensor (n `min` L :: s') (take ((n `min` L) * numel s') (data t)))
  end.

(** [t[:, k, ...]] *)
Definition select1 (t : Tensor) (k : nat) : result Tensor :=
  match shape t with
  | a :: b :: s' =>
      if decide (k < b) then
        let r := numel s' in
        Ok (mkTensor (a :: s')
              (tabulate (a * r) (λ i, data t !!! (i / r * (b * r) + k * r + i mod r))))
      else Raise IndexError
  | _ => Raise IndexError
  end.

(** The value an indexed assignment writes into a slot of shape [slot]:
    leading dimensions of size 1 of [y] are dropped, what remains is
    broadcast to the slot. *)
Fixpoint drop_ones (s : list nat) : list nat :=
  match s with
  | d :: s' => if decide (d = 1) then drop_ones s' else s
  | [] => []
  end.

Definition setitem_value (y : Tensor) (slot : list nat) : result Tensor :=
  expand (mkTensor (drop_ones (shape y)) (data y)) slot.

(** [t[..., j] = y] *)
Definition setitem_last (t : Tensor) (j : nat) (y : Tensor) : result Tensor :=
  match reverse (shape t) with
  | [] => Raise IndexError
  | T :: pre =>
      if decide (j < T) then
        y' ← setitem_value y (reverse pre);
        Ok (mkTensor (shape t)
              (imap (λ i x, if decide (i mod T = j) then data y' !!! (i / T) else x) (data t)))
      else Raise IndexError
  end.

End Tensor.

Arguments Tensor R : clear implicits.

(** ** torch.nn.Module: parameters, sub-modules and the training flag *)

Module NN.
Section NN.
Context {R : Type}.

(** [torch.nn.Parameter] *)
Record Param := mkParam { value : Tensor R; requires_grad : bool }.

Inductive Kind :=
  | Conv3d (in_channels out_channels : nat) (kernel_size stride : nat * nat * nat)
  | ConvTranspose3d (in_channels out_channels : nat)
      (kernel_size stride output_padding : nat * nat * nat)
  | ReLU
  | BatchNorm3d (num_features : nat)
  | ModuleList
  | ModuleDict
  | Custom (class_name : string).

(** A module object: its class, its [training] flag, the parameters
    registered on it and its registered sub-modules, in registration
    order. *)
Inductive Module :=
  | Node (kind : Kind) (training : bool)
         (params : list (string * Param))
         (children : list (string * Module)).

Definition kind (m : Module) : Kind := let 'Node k _ _ _ := m in k.
Definition training (m : Module) : bool := let 'Node _ t _ _ := m in t.
Definition params (m : Module) : list (string * Param) := let 'Node _ _ p _ := m in p.
Definition children (m : Module) : list (string * Module) := let 'Node _ _ _ c := m in c.

(** [m.modules()]: the module and all its descendants. *)
Fixpoint modules (m : Module) : list Module :=
  m :: flat_map (λ c, modules c.2) (children m).

(** [m.parameters()]: the parameters of the module, then those of its
    descendants. *)
Fixpoint parameters (m : Module) : list Param :=
  (params m).*2 ++ flat_map (λ c, parameters c.2) (children m).

(** The effect of [for p in m.parameters(): body(p)] where the body
    updates the parameter object in place. *)
Fixpoint for_parameters (body : Param → Param) (m : Module) : Module :=
  let 'Node k t ps cs := m in
  Node k t (prod_map id body <$> ps)
       ((λ c, (c.1, for_parameters body c.2)) <$> cs).

(** [m.train(mode)]: sets the flag on the module and on every descendant. *)
Fixpoint train (mode : bool) (m : Module) : Module :=
  let 'Node k _ ps cs := m in
  Node k mode ps ((λ c, (c.1, train mode c.2)) <$> cs).

(** [m.eval()] *)
Definition eval (m : Module) : Module := train false m.

(** The body shared by [OpenUnmix.freeze] and [Separator.freeze]. *)
Definition freeze (self : Module) : Module :=
  let self := for_parameters (λ p, mkParam (value p) false) self in
  eval self.

(** A batch-normalization layer normalizes with the statistics of the
    current batch while its [training] flag is set, and with its running
    statistics otherwise. *)
Definition uses_batch_statistics (m : Module) : bool :=
  match kind m with
  | BatchNorm3d _ => training m
  | _ => false
  end.

(** A freshly constructed module: training mode, gradients tracked. *)
Definition fresh (k : Kind) (init : list (string * Tensor R))
    (cs : list (string * Module)) : Module :=
  Node k true (prod_map id (λ v, mkParam v true) <$> init) cs.

End NN.
Arguments Param R : clear implicits.
Arguments Module R : clear implicits.
End NN.

(** ** class OpenUnmix *)

Module OpenUnmix.
Section OpenUnmix.
Context {R : Type} `{Scalar R}.

(** The numerical kernels of torch are not interpreted: [torch_kernel l x i]
    is the value at flat position [i] of the output of layer [l] (with its
    current parameters and mode) on input [x]; [torch_init k] stands for
    the initial parameter values torch draws for a layer of class [k]. *)
Context (torch_kernel : NN.Module R → Tensor R → nat → R).
Context (torch_init : NN.Kind → list (string * Tensor R)).

Record t := mk {
  nb_bins : nat;
  M : nat;
  conv1 : nat;
  conv2 : nat;
  encoder : NN.Module R;
  decoder : NN.Module R;
  input_mean : NN.Param R;
  input_scale : NN.Param R;
  training : bool
}.

Definition layer (name : string) (k : NN.Kind) : string * NN.Module R :=
  (name, NN.fresh k (torch_init k) []).

Definition __init__ (nb_bins M nb_channels : nat)
    (input_mean input_scale : option (Tensor R)) : t :=
  let conv1 := 25 in
  let conv2 := 55 in
  let encoder := NN.fresh NN.ModuleList [] [
    layer "0" (NN.Conv3d nb_channels conv1 (5, 11, 42) (1, 1, 3));
    layer "1" NN.ReLU;
    layer "2" (NN.BatchNorm3d conv1);
    layer "3" (NN.Conv3d conv1 conv2 (5, 11, 22) (1, 1, 3));
    layer "4" NN.ReLU;
    layer "5" (NN.BatchNorm3d conv2) ] in
  let decoder := NN.fresh NN.ModuleList [] [
    layer "0" (NN.ConvTranspose3d conv2 conv1 (5, 11, 22) (1, 1, 3) (0, 0, 2));
    layer "1" NN.ReLU;
    layer "2" (NN.BatchNorm3d conv1);
    layer "3" (NN.ConvTranspose3d conv1 nb_channels (5, 11, 42) (1, 1, 3) (0, 0, 2));
    layer "4" NN.ReLU ] in
  let input_mean :=
    match input_mean with
    | Some input_mean => tensor_neg input_mean
    | None => zeros [nb_bins]
    end in
  let input_scale :=
    match input_scale with
    | Some input_scale => tensor_recip input_scale
    | None => ones [nb_bins]
    end in
  mk nb_bins M conv1 conv2 encoder decoder
     (NN.mkParam input_mean true) (NN.mkParam input_scale true) true.

(** The layers [__init__] builds for [nb_channels] audio channels, whatever
    their parameters and flags have become since. *)
Definition has_architecture (nb_channels : nat) (self : t) : Prop :=
  Forall2 (λ l k, NN.kind l.2 = k) (NN.children (encoder self))
    [ NN.Conv3d nb_channels 25 (5, 11, 42) (1, 1, 3); NN.ReLU; NN.BatchNorm3d 25;
      NN.Conv3d 25 55 (5, 11, 22) (1, 1, 3); NN.ReLU; NN.BatchNorm3d 55 ] ∧
  Forall2 (λ l k, NN.kind l.2 = k) (NN.children (decoder self))
    [ NN.ConvTranspose3d 55 25 (5, 11, 22) (1, 1, 3) (0, 0, 2); NN.ReLU;
      NN.BatchNorm3d 25;
      NN.ConvTranspose3d 25 nb_channels (5, 11, 42) (1, 1, 3) (0, 0, 2); NN.ReLU ].

(** The module tree [nn.Module.__setattr__] registers for the object. *)
Definition as_module (self : t) : NN.Module R :=
  NN.Node (NN.Custom "OpenUnmix") (training self)
    [("input_mean", input_mean self); ("input_scale", input_scale self)]
    [("encoder", encoder self); ("decoder", decoder self)].

Definition freeze (self : t) : t :=
  let no_grad p := NN.mkParam (NN.value p) false in
  (* for p in self.parameters(): p.requires_grad = False *)
  let self := mk (nb_bins self) (M self) (conv1 self) (conv2 self)
                 (NN.for_parameters no_grad (encoder self))
                 (NN.for_parameters no_grad (decoder self))
                 (no_grad (input_mean self)) (no_grad (input_scale self))
                 (training self) in
  (* self.eval() *)
  mk (nb_bins self) (M self) (conv1 self) (conv2 self)
     (NN.eval (encoder self)) (NN.eval (decoder self))
     (input_mean self) (input_scale self) false.

(** *** Output sizes of the layers (padding 0, dilation 1, groups 1)

    The layers are only ever applied to 5-dimensional tensors here, and
    the transposed convolutions to outputs of a convolution, whose sizes
    are positive. *)

Definition conv_out (L k s : nat) : result nat :=
  if decide (s = 0) then Raise RuntimeError
  else if decide (L < k) then Raise RuntimeError
  else Ok ((L - k) / s + 1).

Definition conv_transpose_out (L k s op : nat) : result nat :=
  if decide (s = 0) then Raise RuntimeError
  else if decide (s ≤ op ∧ 1 ≤ op) then Raise RuntimeError
  else if decide (L = 0 ∨ k = 0) then Raise RuntimeError
  else Ok ((L - 1) * s + (k - 1) + op + 1).

Definition out_shape (l : NN.Module R) (s : list nat) : result (list nat) :=
  match NN.kind l, s with
  | NN.Conv3d cin cout (kd, kh, kw) (sd, sh, sw), [n; c; d; h; w] =>
      if decide (c = cin) then
        d' ← conv_out d kd sd; h' ← conv_out h kh sh; w' ← conv_out w kw sw;
        Ok [n; cout; d'; h'; w']
      else Raise RuntimeError
  | NN.ConvTranspose3d cin cout (kd, kh, kw) (sd, sh, sw) (pd, ph, pw), [n; c; d; h; w] =>
      if decide (c = cin) then
        d' ← conv_transpose_out d kd sd pd;
        h' ← conv_transpose_out h kh sh ph;
        w' ← conv_transpose_out w kw sw pw;
        Ok [n; cout; d'; h'; w']
      else Raise RuntimeError
  | NN.ReLU, _ => Ok s
  | NN.BatchNorm3d num_features, [n; c; d; h; w] =>
      if decide (NN.training l = true ∧ n * (d * (h * w)) = 1) then Raise ValueError
      else if decide (c = num_features) then Ok s
      else Raise RuntimeError
  | NN.BatchNorm3d _, _ => Raise ValueError
  | _, _ => Raise RuntimeError
  end.

(** The output of layer [l] on [x], of shape [s]. *)
Definition layer_output (l : NN.Module R) (x : Tensor R) (s : list nat) : Tensor R :=
  mkTensor s (tabulate (numel s) (torch_kernel l x)).

(** [layer(x)] *)
Definition call_layer (l : NN.Module R) (x : Tensor R) : result (Tensor R) :=
  s ← out_shape l (shape x);
  Ok (layer_output l x s).

(** [for layer in layers: x = layer(x)] *)
Definition sequential (layers : NN.Module R) (x : Tensor R) : result (Tensor R) :=
  for_enumerate (λ _ l x, call_layer l.2 x) 0 (NN.children layers) x.

(** Lines 92-101 of [forward]: the affine normalization, on the layout
    (frames * sub-bins, samples, channels, bins). *)
Definition normalize (self : t) (x : Tensor R) : result (Tensor R) :=
  match shape x with
  | [nb_samples; nb_channels; nb_f_bins; nb_frames; nb_m_bins] =>
      x ← reshape x [Z.of_nat nb_samples; Z.of_nat nb_channels; Z.of_nat nb_f_bins; -1]%Z;
      x ← permute x [3; 0; 1; 2];
      mean ← narrow_first (NN.value (input_mean self)) (nb_bins self);
      x ← tensor_add x mean;
      scale ← narrow_first (NN.value (input_scale self)) (nb_bins self);
      x ← tensor_mul x scale;
      Ok x
  | _ => Raise ValueError
  end.

(** Lines 92-103: the tensor the first encoder layer receives. *)
Definition encoder_input (self : t) (x : Tensor R) : result (Tensor R) :=
  match shape x with
  | [nb_samples; nb_channels; nb_f_bins; nb_frames; nb_m_bins] =>
      x ← normalize self x;
      reshape x [Z.of_nat nb_samples; Z.of_nat nb_channels; Z.of_nat nb_frames;
                 Z.of_nat nb_f_bins; Z.of_nat nb_m_bins]
  | _ => Raise ValueError
  end.

(** Lines 90-109: the output of the last decoder layer. *)
Definition decoder_output (self : t) (x : Tensor R) : result (Tensor R) :=
  match shape x with
  | [nb_samples; nb_channels; nb_f_bins; nb_frames; nb_m_bins] =>
      x ← normalize self x;
      x ← reshape x [Z.of_nat nb_samples; Z.of_nat nb_channels; Z.of_nat nb_frames;
                     Z.of_nat nb_f_bins; Z.of_nat nb_m_bins];
      x ← sequential (encoder self) x;
      x ← sequential (decoder self) x;
      Ok x
  | _ => Raise ValueError
  end.

Definition forward (self : t) (x : Tensor R) : result (Tensor R) :=
  x ← decoder_output self x;
  x ← permute x [0; 1; 3; 2; 4];
  (* multiply mix by learned mask above:  return x * mix  (disabled) *)
  Ok x.

End OpenUnmix.
Arguments t R : clear implicits.
End OpenUnmix.

(** ** class Separator *)

Module Separator.
Section Separator.
Context {R : Type} `{Scalar R}.

(** An [nn.Module] object used as a target model: its module tree and its
    [forward], which reads that state. *)
Record TargetModule := mkTarget {
  state : NN.Module R;
  module_forward : NN.Module R → Tensor R → result (Tensor R)
}.

Definition call (m : TargetModule) (x : Tensor R) : result (Tensor R) :=
  module_forward m (state m) x.

(** A filterbank pair as [make_filterbanks] returns it. *)
Record Filterbank := mkFilterbank {
  nsgt : Tensor R → result (Tensor R);
  insgt : Tensor R → nat → result (Tensor R)
}.

(** External collaborators from [.transforms]. *)
Context {NSGTBase : Type}.
Context (make_filterbanks : NSGTBase → Filterbank).
Context (ComplexNorm : bool → TargetModule).
Context (phasemix_sep : Tensor R → Tensor R → result (Tensor R)).

(** [nn.ModuleDict]: the container's own flag and its items in insertion
    order. *)
Record ModuleDict := mkModuleDict {
  dict_training : bool;
  items : list (string * TargetModule)
}.

(** [d.keys()] *)
Definition keys (d : ModuleDict) : list string := (items d).*1.

Record t := mk {
  nsgts : gmap string Filterbank;
  complexnorm : TargetModule;
  nb_channels : Z;
  target_models : ModuleDict;
  nb_targets : nat;
  chunk_size_samples : Z;
  seq_batch : Z;
  training : bool
}.

(** [chunk_size_samples] stands for [int(seq_dur*sample_rate)], a float
    product that is not interpreted here; [sample_rate] and [device] have
    no other effect on what follows.  [target_models] and
    [target_models_nsgt] list the items of the two dictionaries in
    insertion order.  This is the object the constructor returns; the names
    [nn.ModuleDict] refuses at line 168 are the matter of [new] below. *)
Definition __init__ (target_models : list (string * TargetModule))
    (target_models_nsgt : list (string * NSGTBase))
    (nb_channels : Z) (chunk_size_samples : Z) (seq_batch : Z) : t :=
  let nsgts := foldl (λ nsgts item, <[item.1 := make_filterbanks item.2]> nsgts)
                     ∅ target_models_nsgt in
  let target_models := mkModuleDict true target_models in
  mk nsgts (ComplexNorm (bool_decide (nb_channels = 1%Z))) nb_channels
     target_models (length (items target_models)) chunk_size_samples seq_batch true.

(** ['.' in name] *)
Fixpoint contains_dot (name : string) : bool :=
  match name with
  | EmptyString => false
  | String c rest => Ascii.eqb c "."%char || contains_dot rest
  end.

(** [d[name] = module] on the items of an ordered dictionary: the value of
    a present key is replaced where it stands, a new key goes to the end. *)
Fixpoint dict_setitem {A} (name : string) (v : A) (l : list (string * A)) :
    list (string * A) :=
  match l with
  | [] => [(name, v)]
  | item :: l' =>
      if decide (item.1 = name) then (name, v) :: l' else item :: dict_setitem name v l'
  end.

(** [hasattr(d, name)] for an [nn.ModuleDict] [d] and a [name] that is not
    one of its keys: whether [name] is a method or an attribute of the
    container ([keys], [items], [training], ...). *)
Context (ModuleDict_hasattr : string → bool).

(** [d[name] = module], which is [nn.Module.add_module]: a name that is
    an attribute of the container and not yet a key, that contains a dot or
    that is empty, is refused with [KeyError], in this order.  The exception
    carries the refused name here; the text of torch's message is not
    modelled.  The two [TypeError]s of [add_module] (a value that is no
    module, a name that is no string) are excluded by the types. *)
Definition add_module (d : ModuleDict) (name : string) (m : TargetModule) :
    result ModuleDict :=
  if ModuleDict_hasattr name && bool_decide (name ∉ keys d) then Raise (KeyError name)
  else if contains_dot name then Raise (KeyError name)
  else if bool_decide (name = EmptyString) then Raise (KeyError name)
  else Ok (mkModuleDict (dict_training d) (dict_setitem name m (items d))).

(** [nn.ModuleDict(modules)]: the items are added one by one, in order. *)
Definition new_ModuleDict (modules : list (string * TargetModule)) : result ModuleDict :=
  for_enumerate (λ _ item d, add_module d item.1 item.2) 0 modules (mkModuleDict true []).

(** [Separator(...)]: lines 151-176 with the exceptions of line 168, where
    [nn.ModuleDict] checks the names of the models.  [__init__] above is
    the object this call returns when it returns. *)
Definition new (target_models : list (string * TargetModule))
    (target_models_nsgt : list (string * NSGTBase))
    (nb_channels : Z) (chunk_size_samples : Z) (seq_batch : Z) : result t :=
  let nsgts := foldl (λ nsgts item, <[item.1 := make_filterbanks item.2]> nsgts)
                     ∅ target_models_nsgt in
  let complexnorm := ComplexNorm (bool_decide (nb_channels = 1%Z)) in
  target_models ← new_ModuleDict target_models;
  Ok (mk nsgts complexnorm nb_channels
         target_models (length (items target_models)) chunk_size_samples seq_batch true).

Definition as_module (self : t) : NN.Module R :=
  NN.Node (NN.Custom "Separator") (training self) []
    [("complexnorm", state (complexnorm self));
     ("target_models",
      NN.Node NN.ModuleDict (dict_training (target_models self)) []
        ((λ item, (item.1, state item.2)) <$> items (target_models self)))].

(** [np.ceil(a/b)] for Python integers.  The quotient is a float in the
    source; it is taken exactly here, which agrees with the float result
    while the operands stay below 2^53. *)
Definition ceil_div (a b : Z) : result Z :=
  if decide (b = 0)%Z then Raise ZeroDivisionError
  else Ok (- ((- a) `div` b))%Z.

(** Lines 204-205. *)
Definition pad_last (self : t) (N : Z) : result Z :=
  chunks_ceil ← ceil_div N (seq_batch self * chunk_size_samples self);
  Ok (chunks_ceil * seq_batch self * chunk_size_samples self - N)%Z.

(** Lines 216-228: the pipeline of one target on one segment. *)
Definition run_target (self : t) (audio_seg : Tensor R)
    (target_name : string) (target_module : TargetModule) : result (Tensor R) :=
  fb ← from_option (KeyError "nsgt") (nsgts self !! target_name);
  X ← nsgt fb audio_seg;
  Xmag ← call (complexnorm self) X;
  Ymag ← call target_module Xmag;
  Y ← phasemix_sep X Ymag;
  L ← from_option IndexError (last (shape audio_seg));
  insgt fb Y L.

(** Lines 213-230: the body of the loop over targets. *)
Definition separate_target (self : t) (audio_seg : Tensor R)
    (j : nat) (item : string * TargetModule) (seg_estimates : Tensor R)
    : result (Tensor R) :=
  y ← run_target self audio_seg item.1 item.2;
  setitem_last seg_estimates j y.

(** Lines 212-232: the body of the loop over segments. *)
Definition separate_segment (self : t) (audio_seg : Tensor R) : result (Tensor R) :=
  let nb_sources := nb_targets self in
  let seg_estimates := zeros (shape audio_seg ++ [nb_sources]) in
  for_enumerate (separate_target self audio_seg)
    0 (items (target_models self)) seg_estimates.

(** Two separators that differ only in the model or in the transforms of
    target [k]: same configuration and registered names, same model at
    every other position, same filterbank under every other name. *)
Definition differ_only_at (k : nat) (a b : t) : Prop :=
  complexnorm a = complexnorm b ∧
  nb_channels a = nb_channels b ∧
  nb_targets a = nb_targets b ∧
  chunk_size_samples a = chunk_size_samples b ∧
  seq_batch a = seq_batch b ∧
  ∀ j item, j ≠ k → items (target_models a) !! j = Some item →
    items (target_models b) !! j = Some item ∧
    nsgts a !! item.1 = nsgts b !! item.1.

(** The contract of the external transforms, as far as [forward] relies on
    it: on a segment of shape [segsh], the pipeline of every registered
    target returns a waveform of the shape of the segment. *)
Definition pipelines_keep_shape (self : t) (segsh : list nat) : Prop :=
  ∀ seg, shape seg = segsh →
    Forall (λ item, ∃ y, run_target self seg item.1 item.2 = Ok y ∧ shape y = shape seg)
           (items (target_models self)).

(** Lines 197-238: everything before the final crop. *)
Definition forward_padded (self : t) (audio : Tensor R) : result (Tensor R) :=
  nb_samples ← from_option IndexError (head (shape audio));
  N ← from_option IndexError (last (shape audio));
  pad_last ← pad_last self (Z.of_nat N);
  audio ← F_pad audio pad_last;
  audio_segs ← reshape audio [-1; Z.of_nat nb_samples * seq_batch self;
                              nb_channels self; chunk_size_samples self]%Z;
  audio_segs ← unbind0 audio_segs;
  estimates ← for_each (separate_segment self) audio_segs;
  est_segs ← stack0 estimates;
  est_segs ← reshape est_segs [Z.of_nat nb_samples; nb_channels self;
                               Z.of_nat N + pad_last; -1]%Z;
  permute est_segs [0; 3; 1; 2].

(** The estimate of one target taken alone, in the words of the
    specification: the pipeline of that target run on every segment of the
    padded input, the outputs laid end to end as one waveform of shape
    (samples, channels, N + pad_last). *)
Definition target_estimate (self : t) (audio : Tensor R)
    (item : string * TargetModule) : result (Tensor R) :=
  nb_samples ← from_option IndexError (head (shape audio));
  N ← from_option IndexError (last (shape audio));
  pad_last ← pad_last self (Z.of_nat N);
  audio ← F_pad audio pad_last;
  audio_segs ← reshape audio [-1; Z.of_nat nb_samples * seq_batch self;
                              nb_channels self; chunk_size_samples self]%Z;
  audio_segs ← unbind0 audio_segs;
  ys ← for_each (λ audio_seg,
          y ← run_target self audio_seg item.1 item.2;
          setitem_value y (shape audio_seg)) audio_segs;
  Ok (mkTensor [nb_samples; Z.to_nat (nb_channels self); Z.to_nat (Z.of_nat N + pad_last)]
               (concat (data <$> ys))).

Definition forward (self : t) (audio : Tensor R) : result (Tensor R) :=
  N ← from_option IndexError (last (shape audio));
  ests ← forward_padded self audio;
  (* crop the padding *)
  narrow_last ests N.

(** Lines 198-211: the segments the loop of [forward] iterates over. *)
Definition segments (self : t) (audio : Tensor R) : result (list (Tensor R)) :=
  nb_samples ← from_option IndexError (head (shape audio));
  N ← from_option IndexError (last (shape audio));
  pad_last ← pad_last self (Z.of_nat N);
  audio ← F_pad audio pad_last;
  audio_segs ← reshape audio [-1; Z.of_nat nb_samples * seq_batch self;
                              nb_channels self; chunk_size_samples self]%Z;
  unbind0 audio_segs.

Definition freeze (self : t) : t :=
  let no_grad p := NN.mkParam (NN.value p) false in
  let on_state f m := mkTarget (f (state m)) (module_forward m) in
  let on_items f d := mkModuleDict (dict_training d) (prod_map id f <$> items d) in
  (* for p in self.parameters(): p.requires_grad = False *)
  let self := mk (nsgts self)
                 (on_state (NN.for_parameters no_grad) (complexnorm self))
                 (nb_channels self)
                 (on_items (on_state (NN.for_parameters no_grad)) (target_models self))
                 (nb_targets self) (chunk_size_samples self) (seq_batch self)
                 (training self) in
  (* self.eval() *)
  mk (nsgts self) (on_state NN.eval (complexnorm self)) (nb_channels self)
     (mkModuleDict false (items (on_items (on_state NN.eval) (target_models self))))
     (nb_targets self) (chunk_size_samples self) (seq_batch self) false.

(** [for x in xs: acc = body(acc, x)] *)
Definition for_in {A S} (body : A → S → result S) (xs : list A) (acc : S) : result S :=
  for_enumerate (λ _, body) 0 xs acc.

(** Line 258, the body of the loop over the registered names. *)
Definition slice_target (estimates : Tensor R) (k : nat) (target : string)
    (estimates_dict : gmap string (Tensor R)) : result (gmap string (Tensor R)) :=
  slice ← select1 estimates k;
  Ok (<[target := slice]> estimates_dict).

(** Line 265, the body of the loop over the names of one group. *)
Definition aggregate_target (estimates_dict : gmap string (Tensor R)) (key : string)
    (target : string) (new_estimates : gmap string (Tensor R))
    : result (gmap string (Tensor R)) :=
  acc ← from_option (KeyError key) (new_estimates !! key);
  slice ← from_option (KeyError target) (estimates_dict !! target);
  sum ← tensor_add acc slice;
  Ok (<[key := sum]> new_estimates).

(** Lines 263-265, the body of the loop over the groups. *)
Definition aggregate_group (estimates_dict : gmap string (Tensor R))
    (item : string * list string) (new_estimates : gmap string (Tensor R))
    : result (gmap string (Tensor R)) :=
  let key := item.1 in
  let new_estimates := <[key := scalar_tensor zero]> new_estimates in
  for_in (aggregate_target estimates_dict key) item.2 new_estimates.

(** [aggregate_dict] lists the items of the dictionary in insertion
    order. *)
Definition to_dict (self : t) (estimates : Tensor R)
    (aggregate_dict : option (list (string * list string)))
    : result (gmap string (Tensor R)) :=
  estimates_dict ← for_enumerate (slice_target estimates)
                     0 (keys (target_models self)) ∅;
  match aggregate_dict with
  | Some aggregate_dict =>
      let new_estimates := ∅ in
      for_in (aggregate_group estimates_dict) aggregate_dict new_estimates
  | None => Ok estimates_dict
  end.

(** [acc = acc + slice] over the slices of one group. *)
Definition sum_from (cur : Tensor R) (slices : list (Tensor R)) : result (Tensor R) :=
  for_in (λ slice acc, tensor_add acc slice) slices cur.

(** What the accumulator of a group holds: the 0-dimensional start value,
    or a tensor of the shape [s] of the slices; [f] gives its elements. *)
Definition holds (s : list nat) (cur : Tensor R) (f : nat → R) : Prop :=
  (∃ z, shape cur = [] ∧ data cur = [z] ∧ f = λ _, z) ∨
  (shape cur = s ∧ data cur = tabulate (numel s) f).

(** The elementwise sum of tensors of one shape, accumulated from the
    left starting from zero, in the words of the specification; the sum of
    no tensor is the 0-dimensional zero. *)
Definition elementwise_sum (slices : list (Tensor R)) : Tensor R :=
  match slices with
  | [] => scalar_tensor zero
  | slice :: _ =>
      mkTensor (shape slice)
        (tabulate (numel (shape slice))
           (λ i, foldl add zero ((λ slice, data slice !!! i) <$> slices)))
  end.

End Separator.
Arguments t R : clear implicits.
Arguments TargetModule R : clear implicits.
Arguments Filterbank R : clear implicits.
End Separator.

(** ** Exact arithmetic

    The specification reads the normalization as [(x - mean) / scale], with
    the subtraction and division of real numbers.  These are the laws that
    reading uses; they hold in every field, and hold for floating-point
    numbers up to rounding only. *)

Class ExactArithmetic (R : Type) `{Scalar R} (sub div : R → R → R) := {
  sub_def : ∀ x y, sub x y = add x (neg y);
  div_def : ∀ x y, div x y = mul x (recip y);
  add_zero_r : ∀ x, add x zero = x;
  mul_one_r : ∀ x, mul x one = x
}.

(** ** A small instance

    Rational scalars, kernels that return zero and transforms that return
    their input: enough to run the definitions on concrete objects. *)

Module Demo.

#[global] Instance Qc_scalar : Scalar Qc := {|
  zero := 0%Qc; one := 1%Qc;
  add := Qcplus; mul := Qcmult; neg := Qcopp;
  recip := λ x, (1 / x)%Qc
|}.

Definition kernel : NN.Module Qc → Tensor Qc → nat → Qc := λ _ _ _, 0%Qc.
Definition init : NN.Kind → list (string * Tensor Qc) := λ _, [].

Definition q (z : Z) : Qc := Q2Qc (inject_Z z).

(** A fresh network for 21 bins and stereo input, and a batch of two
    spectrograms of 9 frames and 105 sub-bins. *)
Definition net : OpenUnmix.t Qc := OpenUnmix.__init__ init 21 105 2 None None.
Definition spectrogram : Tensor Qc := zeros [2; 2; 21; 9; 105].

(** A network with statistics: mean 2 and scale 4 in each of 3 bins, and a
    spectrogram of 2 frames and 2 sub-bins. *)
Definition mean : Tensor Qc := mkTensor [3] (q <$> [2; 2; 2]%Z).
Definition scale : Tensor Qc := mkTensor [3] (q <$> [4; 4; 4]%Z).
Definition small_net : OpenUnmix.t Qc :=
  OpenUnmix.__init__ init 3 2 1 (Some mean) (Some scale).
Definition small_spectrogram : Tensor Qc :=
  mkTensor [1; 1; 3; 2; 2] (q <$> [1; 2; 3; 4; 5; 6; 7; 8; 9; 10; 11; 12]%Z).

Definition phasemix_sep (X Ymag : Tensor Qc) : result (Tensor Qc) := Ok Ymag.

Definition identity : Separator.TargetModule Qc :=
  Separator.mkTarget (NN.fresh (NN.Custom "Identity") [] []) (λ _ x, Ok x).

(** A model that returns silence. *)
Definition silence : Separator.TargetModule Qc :=
  Separator.mkTarget (NN.fresh (NN.Custom "Silence") [] []) (λ _ x, Ok (zeros (shape x))).

Definition filterbank : Separator.Filterbank Qc :=
  Separator.mkFilterbank (λ x, Ok x) (λ Y _, Ok Y).

(** Two targets, mono, chunks of 2 samples, 2 chunks per batch. *)
Definition sep : Separator.t Qc :=
  Separator.__init__ (λ _ : unit, filterbank) (λ _, identity)
    [("vocals", identity); ("drums", identity)]
    [("vocals", tt); ("drums", tt)] 1 2 2.

(** The same separator with another model for the second target. *)
Definition sep' : Separator.t Qc :=
  Separator.__init__ (λ _ : unit, filterbank) (λ _, identity)
    [("vocals", identity); ("drums", silence)]
    [("vocals", tt); ("drums", tt)] 1 2 2.

(** One mono waveform of 5 samples. *)
Definition audio : Tensor Qc := mkTensor [1; 1; 5] (q <$> [1; 2; 3; 4; 5]%Z).

(** Estimates for one sample, two targets, mono, 2 time steps. *)
Definition estimates : Tensor Qc := mkTensor [1; 2; 1; 2] (q <$> [1; 2; 3; 4]%Z).

(** One target, stereo, chunks of 2 samples, 1 chunk per batch, and one
    stereo waveform of 4 samples: 1 2 3 4 on the left, 5 6 7 8 on the
    right. *)
Definition stereo_sep : Separator.t Qc :=
  Separator.__init__ (λ _ : unit, filterbank) (λ _, identity)
    [("vocals", identity)] [("vocals", tt)] 2 2 1.
Definition stereo_audio : Tensor Qc :=
  mkTensor [1; 2; 4] (q <$> [1; 2; 3; 4; 5; 6; 7; 8]%Z).

(** Some of the attributes of [nn.ModuleDict]. *)
Definition hasattr (name : string) : bool :=
  bool_decide (name ∈ ["keys"; "items"; "values"; "pop"; "update"; "clear";
                       "training"; "forward"; "parameters"; "eval"; "train"]).

(** A separator whose second target has no transform. *)
Definition incomplete_sep : Separator.t Qc :=
  Separator.__init__ (λ _ : unit, filterbank) (λ _, identity)
    [("vocals", identity); ("drums", identity)] [("vocals", tt)] 1 2 2.

End Demo.

(** * Properties *)

(** ** The error monad and lists *)

Lemma bind_Ok {A B} (m : result A) (f : A → result B) (b : B) :
  m ≫= f = Ok b ↔ ∃ a, m = Ok a ∧ f a = Ok b.
Proof.
  destruct m as [a|e]; simpl; split.
  - eauto.
  - by intros (? & [= ->] & ?).
  - done.
  - by intros (? & ? & ?).
Qed.

Lemma from_option_Ok {A} e (o : option A) a : from_option e o = Ok a ↔ o = Some a.
Proof. destruct o; simpl; split; congruence. Qed.

Ltac inv_ok :=
  repeat match goal with
  | H : _ ≫= _ = Ok _ |- _ => apply bind_Ok in H as (? & ? & H)
  | H : from_option _ _ = Ok _ |- _ => apply from_option_Ok in H
  | H : Ok _ = Ok _ |- _ => injection H as H
  | H : Raise _ = Ok _ |- _ => discriminate H
  | H : (if decide ?P then _ else _) = Ok _ |- _ => destruct (decide P); [|try discriminate H]
  end.

Lemma length_tabulate {A} n (f : nat → A) : length (tabulate n f) = n.
Proof. unfold tabulate. by rewrite length_fmap, length_seq. Qed.

Lemma lookup_tabulate {A} n (f : nat → A) i : i < n → tabulate n f !! i = Some (f i).
Proof. intros ?. unfold tabulate. by rewrite list_lookup_fmap, lookup_seq_lt. Qed.

Lemma lookup_total_tabulate `{Inhabited A} n (f : nat → A) i :
  i < n → tabulate n f !!! i = f i.
Proof. intros ?. apply list_lookup_total_correct. by apply lookup_tabulate. Qed.

Lemma tabulate_ext {A} n (f g : nat → A) :
  (∀ i, i < n → f i = g i) → tabulate n f = tabulate n g.
Proof.
  intros Hfg. unfold tabulate. apply list_fmap_ext.
  intros i x [-> ?]%lookup_seq. apply Hfg. lia.
Qed.

Lemma tabulate_lookup_total `{Inhabited A} (l : list A) :
  tabulate (length l) (λ i, l !!! i) = l.
Proof.
  apply list_eq_same_length with (length l); [done|by rewrite length_tabulate|].
  intros i x y Hi. rewrite lookup_tabulate by done. intros [= <-] Hy.
  by rewrite (list_lookup_total_correct _ _ _ Hy).
Qed.

(** ** Index arithmetic *)

Lemma divmod_pair q r b : r < b → (q * b + r) / b = q ∧ (q * b + r) mod b = r.
Proof.
  intros ?. split.
  - symmetry. apply (Nat.div_unique _ _ _ r); lia.
  - symmetry. apply (Nat.mod_unique _ _ q); lia.
Qed.

Lemma div_lt_mul i a b : i < a * b → i / b < a.
Proof. intros ?. apply Nat.Div0.div_lt_upper_bound. lia. Qed.

Lemma mod_lt_pos i b : 0 < b → i mod b < b.
Proof. intros ?. apply Nat.mod_upper_bound. lia. Qed.

Lemma numel_app s1 s2 : numel (s1 ++ s2) = numel s1 * numel s2.
Proof. induction s1 as [|d s1 IH]; simpl; [lia|]. rewrite IH. lia. Qed.

Lemma numel_reverse s : numel (reverse s) = numel s.
Proof.
  induction s as [|d s IH]; [done|].
  rewrite reverse_cons, numel_app, IH. simpl. lia.
Qed.

Lemma ravel_unravel s i : i < numel s → ravel s (unravel s i) = i.
Proof.
  revert i. induction s as [|d s IH]; simpl; intros i Hi; [lia|].
  assert (0 < numel s) by (destruct (numel s); lia).
  rewrite IH by (by apply mod_lt_pos).
  rewrite (Nat.div_mod_eq i (numel s)) at 3. lia.
Qed.

Lemma length_unravel s i : length (unravel s i) = length s.
Proof. revert i. induction s; simpl; intros; by f_equal. Qed.

Lemma unravel_in_range s i : i < numel s → in_range s (unravel s i).
Proof.
  revert i. induction s as [|d s IH]; simpl; intros i Hi; [done|].
  assert (0 < numel s) by (destruct (numel s); lia).
  split; [by apply div_lt_mul|]. by apply IH, mod_lt_pos.
Qed.

Lemma ravel_lt s idx : in_range s idx → ravel s idx < numel s.
Proof.
  revert idx. induction s as [|d s IH]; intros [|k idx]; simpl; try done; [lia|].
  intros [? Hr]. specialize (IH _ Hr). nia.
Qed.

(** ** Elements of the tensor operations *)

Section tensor_facts.
Context {R : Type} `{Scalar R}.

Lemma unravel_ravel s idx : in_range s idx → unravel s (ravel s idx) = idx.
Proof.
  revert idx. induction s as [|d s IH]; intros [|k idx]; simpl; try done.
  intros [? Hr]. pose proof (ravel_lt _ _ Hr).
  destruct (divmod_pair k (ravel s idx) (numel s)) as [-> ->]; [done|].
  by rewrite IH.
Qed.

Lemma ravel_snoc pre idx L k :
  length pre = length idx → ravel (pre ++ [L]) (idx ++ [k]) = ravel pre idx * L + k.
Proof.
  revert idx. induction pre as [|d pre IH]; intros [|i idx] Hlen; simplify_eq/=; [lia|].
  rewrite IH, numel_app by done. simpl. lia.
Qed.

Lemma in_range_length s idx : in_range s idx → length s = length idx.
Proof. revert idx. induction s; intros [|??]; simpl; try done. intros [??]. f_equal. eauto. Qed.

Lemma in_range_snoc pre idx L k :
  in_range (pre ++ [L]) (idx ++ [k]) ↔ in_range pre idx ∧ k < L.
Proof.
  revert idx. induction pre as [|d pre IH]; intros [|i idx]; simpl.
  - tauto.
  - destruct idx; simpl; tauto.
  - destruct pre; simpl; tauto.
  - rewrite IH. tauto.
Qed.

Lemma get_tabulate s (f : nat → R) idx :
  in_range s idx → get (mkTensor s (tabulate (numel s) f)) idx = f (ravel s idx).
Proof. intros Hr. unfold get. simpl. by rewrite lookup_total_tabulate by by apply ravel_lt. Qed.

Lemma F_pad_spec (t : Tensor R) pre L (p : nat) :
  shape t = pre ++ [L] →
  ∃ t', F_pad t (Z.of_nat p) = Ok t' ∧ shape t' = pre ++ [L + p] ∧ wf t' ∧
    ∀ idx k, in_range pre idx → k < L + p →
      get t' (idx ++ [k]) = if decide (k < L) then get t (idx ++ [k]) else zero.
Proof.
  intros Hs. unfold F_pad. rewrite Hs, reverse_snoc.
  rewrite decide_False by lia.
  replace (Z.to_nat (Z.of_nat L + Z.of_nat p)) with (L + p) by lia.
  eexists. split; [done|]. rewrite reverse_cons, reverse_involutive. simpl.
  split; [done|]. split; [unfold wf; simpl; by rewrite length_tabulate|].
  intros idx k Hr Hk.
  rewrite get_tabulate by (by apply in_range_snoc).
  rewrite ravel_snoc by (by apply in_range_length).
  destruct (divmod_pair (ravel pre idx) k (L + p)) as [-> ->]; [done|].
  case_decide; [|done]. unfold get. rewrite Hs, ravel_snoc by (by apply in_range_length). done.
Qed.

Lemma narrow_last_spec (t : Tensor R) pre L n :
  shape t = pre ++ [L] →
  ∃ t', narrow_last t n = Ok t' ∧ shape t' = pre ++ [n `min` L] ∧ wf t' ∧
    ∀ idx k, in_range pre idx → k < n `min` L → get t' (idx ++ [k]) = get t (idx ++ [k]).
Proof.
  intros Hs. unfold narrow_last. rewrite Hs, reverse_snoc.
  eexists. split; [done|]. rewrite reverse_cons, reverse_involutive. simpl.
  split; [done|]. split; [unfold wf; simpl; by rewrite length_tabulate|].
  intros idx k Hr Hk.
  rewrite get_tabulate by (by apply in_range_snoc).
  rewrite ravel_snoc by (by apply in_range_length).
  destruct (divmod_pair (ravel pre idx) k (n `min` L)) as [-> ->]; [done|].
  unfold get. rewrite Hs, ravel_snoc by (by apply in_range_length). done.
Qed.

Lemma select1_spec (t : Tensor R) a b s k :
  shape t = a :: b :: s → k < b →
  ∃ t', select1 t k = Ok t' ∧ shape t' = a :: s ∧ wf t' ∧
    ∀ i idx, in_range (a :: s) (i :: idx) → get t' (i :: idx) = get t (i :: k :: idx).
Proof.
  intros Hs Hk. unfold select1. rewrite Hs, decide_True by done.
  eexists. split; [done|]. simpl. split; [done|].
  split; [unfold wf; simpl; by rewrite length_tabulate|].
  intros i idx [Hi Hr]. unfold get at 1. simpl.
  pose proof (ravel_lt _ _ Hr).
  rewrite lookup_total_tabulate by nia.
  destruct (divmod_pair i (ravel s idx) (numel s)) as [-> ->]; [done|].
  unfold get. rewrite Hs. simpl. f_equal. lia.
Qed.

Lemma permute_0312_spec (t : Tensor R) a b c d :
  shape t = [a; b; c; d] →
  ∃ t', permute t [0; 3; 1; 2] = Ok t' ∧ shape t' = [a; d; b; c] ∧ wf t' ∧
    ∀ i j k l, i < a → j < d → k < b → l < c →
      get t' [i; j; k; l] = get t [i; k; l; j].
Proof.
  intros Hs. unfold permute. rewrite Hs.
  rewrite decide_True by (simpl; solve_Permutation).
  eexists. split; [done|]. split; [done|].
  split; [unfold wf; simpl; by rewrite length_tabulate|].
  intros i j k l ????.
  change ((λ p, [a; b; c; d] !!! p) <$> [0; 3; 1; 2]) with [a; d; b; c].
  rewrite get_tabulate by (simpl; tauto).
  unfold permute_index.
  change ((λ p, [a; b; c; d] !!! p) <$> [0; 3; 1; 2]) with [a; d; b; c].
  rewrite unravel_ravel by (simpl; tauto).
  unfold get. by rewrite Hs.
Qed.

Lemma permute_01324_spec (t : Tensor R) a b c d e :
  shape t = [a; b; c; d; e] →
  ∃ t', permute t [0; 1; 3; 2; 4] = Ok t' ∧ shape t' = [a; b; d; c; e] ∧ wf t' ∧
    ∀ i j k l m, i < a → j < b → k < d → l < c → m < e →
      get t' [i; j; k; l; m] = get t [i; j; l; k; m].
Proof.
  intros Hs. unfold permute. rewrite Hs.
  rewrite decide_True by (simpl; solve_Permutation).
  eexists. split; [done|]. split; [done|].
  split; [unfold wf; simpl; by rewrite length_tabulate|].
  intros i j k l m ?????.
  change ((λ p, [a; b; c; d; e] !!! p) <$> [0; 1; 3; 2; 4]) with [a; b; d; c; e].
  rewrite get_tabulate by (simpl; tauto).
  unfold permute_index.
  change ((λ p, [a; b; c; d; e] !!! p) <$> [0; 1; 3; 2; 4]) with [a; b; d; c; e].
  rewrite unravel_ravel by (simpl; tauto).
  unfold get. by rewrite Hs.
Qed.

Lemma permute_3012_spec (t : Tensor R) a b c d :
  shape t = [a; b; c; d] →
  ∃ t', permute t [3; 0; 1; 2] = Ok t' ∧ shape t' = [d; a; b; c] ∧ wf t' ∧
    ∀ i j k l, i < d → j < a → k < b → l < c →
      get t' [i; j; k; l] = get t [j; k; l; i].
Proof.
  intros Hs. unfold permute. rewrite Hs.
  rewrite decide_True by (simpl; solve_Permutation).
  eexists. split; [done|]. split; [done|].
  split; [unfold wf; simpl; by rewrite length_tabulate|].
  intros i j k l ????.
  change ((λ p, [a; b; c; d] !!! p) <$> [3; 0; 1; 2]) with [d; a; b; c].
  rewrite get_tabulate by (simpl; tauto).
  unfold permute_index.
  change ((λ p, [a; b; c; d] !!! p) <$> [3; 0; 1; 2]) with [d; a; b; c].
  rewrite unravel_ravel by (simpl; tauto).
  unfold get. by rewrite Hs.
Qed.
Lemma filter_length_eq {A} (P : A → Prop) `{∀ x, Decision (P x)} (l : list A) :
  length (filter P l) = length l → Forall P l.
Proof.
  induction l as [|x l IH]; [by constructor|].
  rewrite filter_cons. pose proof (length_filter P l).
  destruct (decide (P x)); simpl; [|lia].
  intros [=]. constructor; auto.
Qed.

Lemma filter_all {A} (P : A → Prop) `{∀ x, Decision (P x)} (l : list A) :
  Forall P l → filter P l = l.
Proof.
  induction 1 as [|x l ? ? IH]; [done|].
  by rewrite filter_cons, decide_True, IH.
Qed.

Lemma infer_size_known spec n :
  Forall (λ d, 0 ≤ d)%Z spec →
  infer_size spec n = if decide (n = numel (Z.to_nat <$> spec)) then Ok (Z.to_nat <$> spec)
                      else Raise RuntimeError.
Proof.
  intros Hpos. unfold infer_size.
  rewrite decide_False.
  2:{ rewrite Exists_exists. intros (d & Hd & ?). rewrite Forall_forall in Hpos.
      specialize (Hpos _ Hd). lia. }
  rewrite filter_all; [by rewrite Nat.sub_diag|].
  eapply Forall_impl; [done|]. simpl. lia.
Qed.

Lemma infer_size_head rest n s :
  infer_size ((-1)%Z :: rest) n = Ok s ↔
  Forall (λ d, 0 ≤ d)%Z rest ∧
  0 < numel (Z.to_nat <$> rest) ∧ n mod numel (Z.to_nat <$> rest) = 0 ∧
  s = n / numel (Z.to_nat <$> rest) :: (Z.to_nat <$> rest).
Proof.
  unfold infer_size. rewrite filter_cons, (decide_False (P:=((-1) ≠ (-1))%Z)) by lia.
  pose proof (length_filter (λ d, d ≠ -1)%Z rest) as Hle.
  split.
  - case_decide as Hex; [done|].
    destruct (length ((-1)%Z :: rest) - length (filter (λ d, d ≠ -1)%Z rest)) as [|[|k]] eqn:Hcount;
      simpl in Hcount; [lia| |done].
    assert (Hall : Forall (λ d, d ≠ -1)%Z rest) by (apply (filter_length_eq (λ d, d ≠ -1)%Z); lia).
    rewrite filter_all by done.
    case_decide as Hk; [|done]. intros [= <-]. destruct Hk as [? ?].
    assert (Hpos : Forall (λ d, 0 ≤ d)%Z rest).
    { rewrite Forall_forall in Hall |- *. intros d Hd.
      destruct (decide (d < -1)%Z).
      - destruct Hex. apply Exists_cons_tl, Exists_exists. eauto.
      - specialize (Hall _ Hd). lia. }
    repeat split; try done. csimpl. f_equal.
    apply Forall_fmap_ext_1. eapply Forall_impl; [exact Hall|].
    intros d ?; simpl. by rewrite decide_False.
  - intros (Hpos & ? & ? & ->).
    assert (Hall : Forall (λ d, d ≠ -1)%Z rest).
    { eapply Forall_impl; [done|]. simpl; lia. }
    rewrite decide_False.
    2:{ rewrite Exists_cons, Exists_exists. intros [?|(d & Hd & ?)]; [lia|].
        rewrite Forall_forall in Hpos. specialize (Hpos _ Hd). lia. }
    rewrite filter_all by done.
    replace (length ((-1)%Z :: rest) - length rest) with 1 by (simpl; lia).
    rewrite decide_True by done. csimpl. do 2 f_equal.
    apply Forall_fmap_ext_1. eapply Forall_impl; [exact Hall|].
    intros d ?; simpl. by rewrite decide_False.
Qed.

Lemma infer_size_last rest n s :
  infer_size (rest ++ [-1]%Z) n = Ok s ↔
  Forall (λ d, 0 ≤ d)%Z rest ∧
  0 < numel (Z.to_nat <$> rest) ∧ n mod numel (Z.to_nat <$> rest) = 0 ∧
  s = (Z.to_nat <$> rest) ++ [n / numel (Z.to_nat <$> rest)].
Proof.
  unfold infer_size. rewrite filter_app, filter_cons, (decide_False (P:=((-1) ≠ (-1))%Z)) by lia.
  rewrite filter_nil, app_nil_r.
  pose proof (length_filter (λ d, d ≠ -1)%Z rest) as Hle.
  rewrite length_app. simpl.
  split.
  - case_decide as Hex; [done|].
    destruct (length rest + 1 - length (filter (λ d, d ≠ -1)%Z rest)) as [|[|k]] eqn:Hcount;
      [lia| |done].
    assert (Hall : Forall (λ d, d ≠ -1)%Z rest) by (apply (filter_length_eq (λ d, d ≠ -1)%Z); lia).
    rewrite filter_all by done.
    case_decide as Hk; [|done]. intros [= <-]. destruct Hk as [? ?].
    assert (Hpos : Forall (λ d, 0 ≤ d)%Z rest).
    { rewrite Forall_forall in Hall |- *. intros d Hd.
      destruct (decide (d < -1)%Z).
      - destruct Hex. apply Exists_app. left. apply Exists_exists. eauto.
      - specialize (Hall _ Hd). lia. }
    repeat split; try done. rewrite fmap_app. csimpl. f_equal.
    apply Forall_fmap_ext_1. eapply Forall_impl; [exact Hall|].
    intros d ?; simpl. by rewrite decide_False.
  - intros (Hpos & ? & ? & ->).
    assert (Hall : Forall (λ d, d ≠ -1)%Z rest).
    { eapply Forall_impl; [done|]. simpl; lia. }
    rewrite decide_False.
    2:{ rewrite Exists_app, Exists_cons, Exists_nil, Exists_exists.
        intros [(d & Hd & ?)|[?|[]]]; [|lia].
        rewrite Forall_forall in Hpos. specialize (Hpos _ Hd). lia. }
    rewrite filter_all by done.
    replace (length rest + 1 - length rest) with 1 by lia.
    rewrite decide_True by done. rewrite fmap_app. csimpl.
    do 2 f_equal.
    apply Forall_fmap_ext_1. eapply Forall_impl; [exact Hall|].
    intros d ?; simpl. by rewrite decide_False.
Qed.

Lemma broadcast_rev_same a : broadcast_rev a a = Some a.
Proof. induction a as [|x a IH]; simpl; [done|]. rewrite IH. simpl. by rewrite decide_True. Qed.

Lemma broadcast_shapes_same a : broadcast_shapes a a = Ok a.
Proof. unfold broadcast_shapes. rewrite broadcast_rev_same. simpl. by rewrite reverse_involutive. Qed.

Lemma broadcast_shapes_scalar a : broadcast_shapes [] a = Ok a.
Proof. unfold broadcast_shapes. simpl. by rewrite reverse_involutive. Qed.

Lemma expand_index_same s i : i < numel s → expand_index s s i = i.
Proof.
  intros Hi. unfold expand_index. rewrite Nat.sub_diag, drop_0.
  rewrite <- (ravel_unravel s i) at 2 by done. f_equal.
  pose proof (unravel_in_range s i Hi) as Hr. revert Hr.
  generalize (unravel s i). clear. induction s as [|d s IH]; intros [|k idx]; simpl; try done.
  intros [? ?]. rewrite IH by done. case_decide; [f_equal; lia|done].
Qed.

Lemma expand_data_same (t : Tensor R) : wf t → expand_data t (shape t) = data t.
Proof.
  intros Hwf. unfold expand_data. rewrite <- Hwf.
  etrans; [|apply (tabulate_lookup_total (data t))].
  apply tabulate_ext. intros i Hi. rewrite expand_index_same; [done|]. by rewrite <- Hwf.
Qed.

Lemma expand_data_scalar (t : Tensor R) s :
  shape t = [] → expand_data t s = replicate (numel s) (data t !!! 0).
Proof.
  intros Hs. unfold expand_data. rewrite Hs.
  apply list_eq_same_length with (numel s);
    [by rewrite length_replicate|by rewrite length_tabulate|].
  intros i x y Hi. rewrite lookup_tabulate, lookup_replicate by done.
  intros [= <-] [-> _]. done.
Qed.

Lemma expand_Ok (y : Tensor R) s y' :
  expand y s = Ok y' → shape y' = s ∧ data y' = expand_data y s.
Proof. unfold expand. intros. inv_ok. by subst. Qed.

Lemma expand_same (y : Tensor R) s :
  shape y = s → expand y s = Ok (mkTensor s (expand_data y s)).
Proof. intros <-. unfold expand. rewrite broadcast_shapes_same. simpl. by rewrite decide_True. Qed.

Lemma length_expand_data (y : Tensor R) s : length (expand_data y s) = numel s.
Proof. unfold expand_data. by rewrite length_tabulate. Qed.

Lemma broadcast_rev_prefix a b : broadcast_rev a (a ++ b) = Some (a ++ b).
Proof.
  induction a as [|x a IH]; simpl; [done|]. rewrite IH. simpl. by rewrite decide_True.
Qed.

Lemma drop_ones_suffix s : ∃ ones, s = ones ++ drop_ones s.
Proof.
  induction s as [|d s [ones IH]]; simpl; [by exists []|].
  case_decide; [|by exists []]. exists (d :: ones). simpl. by f_equal.
Qed.

Lemma setitem_value_Ok (y : Tensor R) slot y' :
  setitem_value y slot = Ok y' → shape y' = slot ∧ length (data y') = numel slot.
Proof.
  unfold setitem_value. intros [-> ->]%expand_Ok. split; [done|]. apply length_expand_data.
Qed.

Lemma setitem_value_same (y : Tensor R) slot :
  shape y = slot → is_Ok (setitem_value y slot).
Proof.
  intros <-. unfold setitem_value, expand, broadcast_shapes. simpl.
  destruct (drop_ones_suffix (shape y)) as [ones Hs]. rewrite Hs at 2.
  rewrite reverse_app, broadcast_rev_prefix. simpl.
  rewrite <- reverse_app, <- Hs, reverse_involutive, decide_True by done. by eexists.
Qed.

Lemma setitem_last_spec (t : Tensor R) pre T j y t' :
  shape t = pre ++ [T] → wf t →
  setitem_last t j y = Ok t' →
  j < T ∧ shape t' = pre ++ [T] ∧ wf t' ∧
  ∃ y', setitem_value y pre = Ok y' ∧
    ∀ idx k, in_range pre idx → k < T →
      get t' (idx ++ [k]) = if decide (k = j) then get y' idx else get t (idx ++ [k]).
Proof.
  intros Hs Hwf. unfold setitem_last. rewrite Hs, reverse_snoc.
  intros Hset. inv_ok. subst t'.
  match goal with Hx : setitem_value _ _ = Ok _ |- _ => rewrite reverse_involutive in Hx end.
  split; [done|]. split; [done|]. simpl.
  split; [unfold wf in *; simpl; by rewrite length_imap, Hwf, Hs|].
  eexists; split; [eassumption|]. intros idx k Hr Hk.
  assert (Hlt : ravel (pre ++ [T]) (idx ++ [k]) < length (data t)).
  { rewrite Hwf, Hs. apply ravel_lt. by apply in_range_snoc. }
  unfold get at 1. simpl.
  erewrite list_lookup_total_correct.
  2:{ rewrite list_lookup_imap, (list_lookup_lookup_total_lt (data t)) by done. done. }
  rewrite ravel_snoc by (by apply in_range_length).
  destruct (divmod_pair (ravel pre idx) k T) as [-> ->]; [done|].
  case_decide; [unfold get|unfold get; rewrite Hs, ravel_snoc by (by apply in_range_length)]; [|done].
  match goal with Hx : setitem_value _ _ = Ok _ |- _ =>
    apply setitem_value_Ok in Hx as [-> _] end. done.
Qed.

Lemma setitem_last_Ok (t : Tensor R) pre T j y :
  shape t = pre ++ [T] → j < T → shape y = pre → is_Ok (setitem_last t j y).
Proof.
  intros Hs Hj Hy. unfold setitem_last. rewrite Hs, reverse_snoc, decide_True by done.
  rewrite reverse_involutive. destruct (setitem_value_same y pre Hy) as [y' ->]. by eexists.
Qed.

Lemma lookup_total_concat (ls : list (list R)) m k r l :
  Forall (λ l, length l = m) ls → ls !! k = Some l → r < m →
  concat ls !!! (k * m + r) = l !!! r.
Proof.
  intros Hall. revert k. induction Hall as [|l0 ls Hl _ IH]; intros k Hk Hr; [done|].
  destruct k as [|k]; simpl in *.
  - injection Hk as ->. by rewrite lookup_total_app_l by lia.
  - rewrite lookup_total_app_r by lia.
    replace (m + k * m + r - length l0) with (k * m + r) by lia. by apply IH.
Qed.

Lemma length_concat_same {A} (ls : list (list A)) m :
  Forall (λ l, length l = m) ls → length (concat ls) = length ls * m.
Proof. induction 1 as [|l ls Hl _ IH]; simpl; [done|]. rewrite length_app, IH. lia. Qed.

Lemma for_each_Ok {A B} (f : A → result B) xs ys :
  for_each f xs = Ok ys ↔ Forall2 (λ x y, f x = Ok y) xs ys.
Proof.
  revert ys. induction xs as [|x xs IH]; intros ys; simpl.
  - split; [intros [= <-]; constructor|by inversion 1].
  - split.
    + intros Hx. inv_ok. subst. constructor; [done|]. by apply IH.
    + inversion 1 as [|???? Hx Hxs]; subst. rewrite Hx. simpl.
      apply IH in Hxs. rewrite Hxs. done.
Qed.

Lemma unbind0_spec (t : Tensor R) n s :
  shape t = n :: s →
  ∃ segs, unbind0 t = Ok segs ∧ length segs = n ∧
    Forall (λ seg, shape seg = s) segs ∧
    (wf t → Forall wf segs).
Proof.
  intros Hs. unfold unbind0. rewrite Hs. eexists. split; [done|].
  split; [by rewrite length_fmap, length_seq|].
  split; [by apply Forall_fmap, Forall_true|].
  intros Hwf. apply Forall_fmap, Forall_forall. intros i Hi%elem_of_seq.
  unfold wf in *. simpl. rewrite length_take, length_drop, Hwf, Hs. simpl. nia.
Qed.

Lemma stack0_Ok (ts : list (Tensor R)) t :
  stack0 ts = Ok t →
  ∃ s, Forall (λ t, shape t = s) ts ∧ shape t = length ts :: s ∧
       data t = concat (data <$> ts) ∧ ts ≠ [].
Proof.
  unfold stack0. destruct ts as [|t0 ts]; [done|]. intros. inv_ok. subst.
  eexists. split; [done|]. done.
Qed.

Lemma stack0_same (ts : list (Tensor R)) s :
  ts ≠ [] → Forall (λ t, shape t = s) ts →
  stack0 ts = Ok (mkTensor (length ts :: s) (concat (data <$> ts))).
Proof.
  intros Hne Hall. unfold stack0. destruct ts as [|t0 ts]; [done|].
  pose proof (Forall_inv Hall) as Hs. rewrite decide_True; [by rewrite Hs|].
  eapply Forall_impl; [done|]. simpl. congruence.
Qed.

End tensor_facts.

(** ** freeze *)

Section freeze.
Context {R : Type} `{Scalar R}.

Lemma Module_induction (P : NN.Module R → Prop) :
  (∀ k t ps cs, Forall (λ c, P c.2) cs → P (NN.Node k t ps cs)) →
  ∀ m, P m.
Proof.
  intros Hnode. fix IH 1. intros [k t ps cs]. apply Hnode.
  induction cs as [|c cs IHcs]; constructor; [apply IH|apply IHcs].
Qed.

Lemma flat_map_fmap {A B C} (f : A → B) (g : B → list C) (l : list A) :
  flat_map g (f <$> l) = flat_map (g ∘ f) l.
Proof. induction l as [|x l IH]; csimpl; [done|]. by rewrite IH. Qed.

Lemma flat_map_ext_Forall {A B} (f g : A → list B) (l : list A) :
  Forall (λ x, f x = g x) l → flat_map f l = flat_map g l.
Proof. induction 1 as [|x l Hx _ IH]; simpl; [done|]. by rewrite Hx, IH. Qed.

Lemma fmap_flat_map {A B C} (f : B → C) (g : A → list B) (l : list A) :
  f <$> flat_map g l = flat_map (λ x, f <$> g x) l.
Proof. induction l as [|x l IH]; csimpl; [done|]. by rewrite fmap_app, IH. Qed.

Lemma Forall_flat_map {A B} (P : B → Prop) (g : A → list B) (l : list A) :
  Forall (λ x, Forall P (g x)) l → Forall P (flat_map g l).
Proof. induction 1; simpl; [constructor|]. by apply Forall_app. Qed.

Lemma parameters_Node k t ps (cs : list (string * NN.Module R)) :
  NN.parameters (NN.Node k t ps cs)
  = ps.*2 ++ flat_map (λ c, NN.parameters c.2) cs.
Proof. done. Qed.

Lemma modules_Node k t ps (cs : list (string * NN.Module R)) :
  NN.modules (NN.Node k t ps cs)
  = NN.Node k t ps cs :: flat_map (λ c, NN.modules c.2) cs.
Proof. done. Qed.

Lemma for_parameters_Node body k t ps (cs : list (string * NN.Module R)) :
  NN.for_parameters body (NN.Node k t ps cs)
  = NN.Node k t (prod_map id body <$> ps)
      ((λ c, (c.1, NN.for_parameters body c.2)) <$> cs).
Proof. done. Qed.

Lemma train_Node mode k t ps (cs : list (string * NN.Module R)) :
  NN.train mode (NN.Node k t ps cs)
  = NN.Node k mode ps ((λ c, (c.1, NN.train mode c.2)) <$> cs).
Proof. done. Qed.

Lemma parameters_for_parameters (body : NN.Param R → NN.Param R) m :
  NN.parameters (NN.for_parameters body m) = body <$> NN.parameters m.
Proof.
  induction m as [k t ps cs IH] using Module_induction.
  rewrite for_parameters_Node, !parameters_Node.
  rewrite fmap_app, flat_map_fmap, fmap_flat_map. f_equal.
  - rewrite <- !list_fmap_compose. by apply list_fmap_ext; intros ? [??].
  - apply flat_map_ext_Forall. eapply Forall_impl; [apply IH|]. by intros [??].
Qed.

Lemma parameters_train mode (m : NN.Module R) :
  NN.parameters (NN.train mode m) = NN.parameters m.
Proof.
  induction m as [k t ps cs IH] using Module_induction.
  rewrite train_Node, !parameters_Node, flat_map_fmap. f_equal.
  apply flat_map_ext_Forall. eapply Forall_impl; [apply IH|]. by intros [??].
Qed.

Lemma modules_train mode (m : NN.Module R) :
  Forall (λ s, NN.training s = mode) (NN.modules (NN.train mode m)).
Proof.
  induction m as [k t ps cs IH] using Module_induction.
  rewrite train_Node, modules_Node.
  constructor; [done|]. rewrite flat_map_fmap.
  apply Forall_flat_map. eapply Forall_impl; [apply IH|]. by intros [??].
Qed.

Lemma freeze_parameters (m : NN.Module R) :
  Forall (λ p, NN.requires_grad p = false) (NN.parameters (NN.freeze m)).
Proof.
  unfold NN.freeze, NN.eval. rewrite parameters_train, parameters_for_parameters.
  by apply Forall_fmap, Forall_true.
Qed.

Lemma freeze_modules (m : NN.Module R) :
  Forall (λ s, NN.training s = false ∧ NN.uses_batch_statistics s = false)
         (NN.modules (NN.freeze m)).
Proof.
  eapply Forall_impl; [apply modules_train|].
  intros s Hs. split; [done|]. unfold NN.uses_batch_statistics. by destruct (NN.kind s).
Qed.

(** The field-wise [freeze] of the two classes is the generic body run on
    the module tree of the object. *)
Lemma OpenUnmix_freeze_as_module (net : OpenUnmix.t R) :
  OpenUnmix.as_module (OpenUnmix.freeze net) = NN.freeze (OpenUnmix.as_module net).
Proof. done. Qed.

Lemma Separator_freeze_as_module (sep : Separator.t R) :
  Separator.as_module (Separator.freeze sep) = NN.freeze (Separator.as_module sep).
Proof.
  destruct sep as [? cn ? [dt its] ? ? ? ?]. unfold Separator.freeze, Separator.as_module, NN.freeze, NN.eval.
  simpl. do 5 f_equal. rewrite <- !list_fmap_compose. by apply list_fmap_ext; intros ? [??].
Qed.

(** C9 -- After [freeze()] on an OpenUnmix or on a Separator, every
    parameter of the module tree (for the Separator this includes the
    parameters of all owned masking networks) has [requires_grad = False],
    every module of the tree has [training = False], and so no
    batch-normalization layer uses batch statistics. *)
Theorem freeze_disables_gradients_and_training
    (net : OpenUnmix.t R) (sep : Separator.t R) :
  let frozen m :=
    Forall (λ p, NN.requires_grad p = false) (NN.parameters m) ∧
    Forall (λ s, NN.training s = false ∧ NN.uses_batch_statistics s = false)
           (NN.modules m) in
  (frozen (OpenUnmix.as_module (OpenUnmix.freeze net)) ∧
   OpenUnmix.training (OpenUnmix.freeze net) = false) ∧
  (frozen (Separator.as_module (Separator.freeze sep)) ∧
   Separator.training (Separator.freeze sep) = false ∧
   Forall (λ item, Forall (λ p, NN.requires_grad p = false)
                          (NN.parameters (Separator.state item.2)))
          (Separator.items (Separator.target_models (Separator.freeze sep)))).
Proof.
  intros frozen. repeat split.
  - rewrite OpenUnmix_freeze_as_module. apply freeze_parameters.
  - rewrite OpenUnmix_freeze_as_module. apply freeze_modules.
  - rewrite Separator_freeze_as_module. apply freeze_parameters.
  - rewrite Separator_freeze_as_module. apply freeze_modules.
  - destruct sep as [? cn ? [dt its] ? ? ? ?]. simpl.
    rewrite <- list_fmap_compose. apply Forall_fmap, Forall_forall.
    intros [name m] _. simpl. unfold NN.eval.
    rewrite parameters_train, parameters_for_parameters.
    by apply Forall_fmap, Forall_true.
Qed.

End freeze.

(** ** Separator.forward *)

Section separator_facts.
Context {R : Type} `{Scalar R}.
Context (phasemix_sep : Tensor R → Tensor R → result (Tensor R)).
Implicit Types (sep : Separator.t R) (audio seg : Tensor R).

Abbreviation run_target := (Separator.run_target phasemix_sep).
Abbreviation separate_segment := (Separator.separate_segment phasemix_sep).

Abbreviation fill_body := (Separator.separate_target phasemix_sep).
Abbreviation pipelines_keep_shape := (Separator.pipelines_keep_shape phasemix_sep).

Lemma wf_zeros s : wf (zeros (R:=R) s).
Proof. unfold wf, zeros. simpl. by rewrite length_replicate. Qed.

Lemma fill_inv sep seg T items : ∀ j0 acc e,
  shape acc = shape seg ++ [T] → wf acc →
  for_enumerate (fill_body sep seg) j0 items acc = Ok e →
  shape e = shape seg ++ [T] ∧ wf e ∧
  (items ≠ [] → j0 + length items ≤ T) ∧
  (∀ idx k, in_range (shape seg) idx → k < T → k < j0 ∨ j0 + length items ≤ k →
     get e (idx ++ [k]) = get acc (idx ++ [k])) ∧
  (∀ i item, items !! i = Some item →
     ∃ y y', run_target sep seg item.1 item.2 = Ok y ∧ setitem_value y (shape seg) = Ok y' ∧
       ∀ idx, in_range (shape seg) idx → get e (idx ++ [j0 + i]) = get y' idx).
Proof.
  induction items as [|item items IH]; intros j0 acc e Hs Hwf; simpl.
  - intros [= <-]. repeat split; try done.
  - intros Hrun. apply bind_Ok in Hrun as (acc1 & Hbody & Hrest).
    unfold Separator.separate_target in Hbody. apply bind_Ok in Hbody as (y & Hy & Hset).
    destruct (setitem_last_spec _ _ _ _ _ _ Hs Hwf Hset) as (Hj & Hs1 & Hwf1 & y' & Hy' & Hget1).
    destruct (IH _ _ _ Hs1 Hwf1 Hrest) as (Hse & Hwfe & Hlen & Hframe & Hslots).
    split; [done|]. split; [done|]. split.
    { intros _. destruct items; [simpl; lia|]. specialize (Hlen ltac:(done)). simpl in *. lia. }
    split.
    + intros idx k Hr Hk Hout. rewrite Hframe by (try done; lia).
      rewrite Hget1 by done. rewrite decide_False by lia. done.
    + intros [|i] item' Hi; simpl in Hi.
      * injection Hi as <-. exists y, y'. split; [done|]. split; [done|].
        intros idx Hr. rewrite Nat.add_0_r, Hframe by (try done; lia).
        rewrite Hget1 by done. by rewrite decide_True.
      * destruct (Hslots _ _ Hi) as (y2 & y2' & ? & ? & Hg). exists y2, y2'.
        split; [done|]. split; [done|]. intros idx Hr.
        replace (j0 + S i) with (S j0 + i) by lia. by apply Hg.
Qed.

Lemma separate_segment_inv sep seg e :
  separate_segment sep seg = Ok e →
  let T := Separator.nb_targets sep in
  shape e = shape seg ++ [T] ∧ wf e ∧
  ∀ j item, Separator.items (Separator.target_models sep) !! j = Some item →
    j < T ∧
    ∃ y y', run_target sep seg item.1 item.2 = Ok y ∧ setitem_value y (shape seg) = Ok y' ∧
      ∀ idx, in_range (shape seg) idx → get e (idx ++ [j]) = get y' idx.
Proof.
  intros Hrun T. unfold Separator.separate_segment in Hrun.
  destruct (fill_inv sep seg T _ 0 (zeros (shape seg ++ [T])) e eq_refl (wf_zeros _) Hrun)
    as (Hs & Hwf & Hlen & _ & Hslots).
  split; [done|]. split; [done|]. intros j item Hj. split.
  - pose proof (lookup_lt_Some _ _ _ Hj).
    assert (Separator.items (Separator.target_models sep) ≠ []) as Hne.
    { intros Heq. rewrite Heq in Hj. done. }
    specialize (Hlen Hne). lia.
  - apply (Hslots _ _ Hj).
Qed.

Lemma setitem_last_shape (t : Tensor R) j y t' : setitem_last t j y = Ok t' → shape t' = shape t.
Proof.
  unfold setitem_last. destruct (reverse (shape t)); [done|]. intros. inv_ok. by subst.
Qed.

Lemma fill_Ok sep seg T items : ∀ j0 acc,
  shape acc = shape seg ++ [T] → j0 + length items ≤ T →
  Forall (λ item, ∃ y, run_target sep seg item.1 item.2 = Ok y ∧ shape y = shape seg) items →
  ∃ e, for_enumerate (fill_body sep seg) j0 items acc = Ok e ∧ shape e = shape seg ++ [T].
Proof.
  induction items as [|item items IH]; intros j0 acc Hs Hlen Hall; cbn [for_enumerate].
  - by eexists.
  - apply Forall_cons in Hall as [(y & Hy & Hsy) Hall]. simpl in Hlen.
    unfold Separator.separate_target. rewrite Hy. simpl.
    destruct (setitem_last_Ok acc (shape seg) T j0 y Hs ltac:(lia) Hsy) as [acc1 Hset].
    rewrite Hset. simpl. apply IH; [|lia|done].
    by rewrite (setitem_last_shape _ _ _ _ Hset).
Qed.

Lemma separate_segment_Ok sep seg :
  length (Separator.items (Separator.target_models sep)) ≤ Separator.nb_targets sep →
  Forall (λ item, ∃ y, run_target sep seg item.1 item.2 = Ok y ∧ shape y = shape seg)
         (Separator.items (Separator.target_models sep)) →
  ∃ e, separate_segment sep seg = Ok e ∧ shape e = shape seg ++ [Separator.nb_targets sep].
Proof. intros. by apply (fill_Ok sep seg). Qed.
Lemma pad_last_nat sep sb cs N :
  Separator.seq_batch sep = Z.of_nat sb → Separator.chunk_size_samples sep = Z.of_nat cs →
  0 < sb → 0 < cs →
  ∃ p : nat,
    Separator.pad_last sep (Z.of_nat N) = Ok (Z.of_nat p) ∧
    p < sb * cs ∧
    (∃ k, N + p = k * (sb * cs) ∧ (0 < N → 0 < k)) ∧
    (∀ m, m mod (sb * cs) = 0 → N ≤ m → N + p ≤ m).
Proof.
  intros Hsb Hcs ? ?. unfold Separator.pad_last, Separator.ceil_div.
  rewrite Hsb, Hcs. rewrite decide_False by lia. simpl.
  set (d := (Z.of_nat sb * Z.of_nat cs)%Z).
  assert (0 < d)%Z by lia.
  pose proof (Z.div_mod (- Z.of_nat N) d ltac:(lia)) as Hdm.
  pose proof (Z.mod_pos_bound (- Z.of_nat N) d ltac:(lia)) as Hr.
  set (q := ((- Z.of_nat N) `div` d)%Z) in *.
  set (r := ((- Z.of_nat N) `mod` d)%Z) in *.
  exists (Z.to_nat r). split; [f_equal; nia|].
  split; [nia|]. split.
  - exists (Z.to_nat (- q)). split; nia.
  - intros m Hm HN.
    pose proof (Nat.div_mod_eq m (sb * cs)) as Hm'. rewrite Hm in Hm'.
    set (k := m / (sb * cs)) in *.
    assert (Z.of_nat N + r = - q * d)%Z by lia.
    assert (- q <= Z.of_nat k)%Z; [|nia].
    destruct (decide (- q <= Z.of_nat k)%Z); [done|]. nia.
Qed.
Abbreviation forward_padded := (Separator.forward_padded phasemix_sep).
Abbreviation forward := (Separator.forward phasemix_sep).
Abbreviation target_estimate := (Separator.target_estimate phasemix_sep).

Lemma for_each_exists {A B} (f : A → result B) xs :
  Forall (λ x, is_Ok (f x)) xs → ∃ ys, for_each f xs = Ok ys.
Proof.
  induction 1 as [|x xs [y Hy] _ [ys IH]]; simpl; [by eexists|].
  rewrite Hy. simpl. rewrite IH. by eexists.
Qed.

(** The segments the padded input is cut into. *)
Lemma segments_spec sep audio S C N sb cs p :
  shape audio = [S; C; N] →
  Separator.nb_channels sep = Z.of_nat C →
  Separator.seq_batch sep = Z.of_nat sb → Separator.chunk_size_samples sep = Z.of_nat cs →
  ∀ padded audio_segs,
  F_pad audio (Z.of_nat p) = Ok padded →
  reshape padded [-1; Z.of_nat S * Separator.seq_batch sep; Separator.nb_channels sep;
                  Separator.chunk_size_samples sep]%Z = Ok audio_segs →
  let Q := S * sb * C * cs in
  0 < Q ∧ (∃ n, S * C * (N + p) = n * Q ∧ shape audio_segs = [n; S * sb; C; cs]).
Proof.
  intros Hs HC Hsb Hcs padded audio_segs Hpad Hre Q.
  destruct (F_pad_spec audio [S; C] N p Hs) as (padded' & Hpad' & Hsp & _).
  rewrite Hpad in Hpad'. injection Hpad' as <-.
  unfold reshape in Hre. apply bind_Ok in Hre as (s1 & Hs1 & [= <-]).
  apply infer_size_head in Hs1 as (_ & Hk1 & Hmod & ->).
  rewrite Hsp, HC, Hsb, Hcs in *. simpl in Hk1, Hmod |- *.
  rewrite <- Nat2Z.inj_mul, !Nat2Z.id in *.
  split; [unfold Q; lia|].
  exists (S * (C * ((N + p) * 1)) / (S * sb * (C * (cs * 1)))). split; [|done].
  pose proof (Nat.div_mod_eq (S * (C * ((N + p) * 1))) (S * sb * (C * (cs * 1)))) as Hdm.
  rewrite Hmod in Hdm. unfold Q. lia.
Qed.


Lemma div_mod_lt_mul g n Q : 0 < Q → g < n * Q → g / Q < n ∧ g mod Q < Q ∧ g = g / Q * Q + g mod Q.
Proof.
  intros ? ?. split; [apply Nat.Div0.div_lt_upper_bound; lia|].
  split; [by apply mod_lt_pos|]. pose proof (Nat.div_mod_eq g Q). lia.
Qed.

(** Stacking the per-segment estimates, viewing them as
    (samples, channels, time, targets) and moving the target axis forward. *)
Lemma reassemble_spec (es : list (Tensor R)) segsh T S C L stacked ests :
  let Q := numel segsh in
  Forall (λ e, shape e = segsh ++ [T] ∧ wf e) es →
  0 < Q → S * C * L = length es * Q →
  stack0 es = Ok stacked →
  (r2 ← reshape stacked [Z.of_nat S; Z.of_nat C; Z.of_nat L; -1]%Z; permute r2 [0; 3; 1; 2])
    = Ok ests →
  shape ests = [S; T; C; L] ∧
  ∀ s j c t, s < S → j < T → c < C → t < L →
    let g := ravel [S; C; L] [s; c; t] in
    ∃ e, es !! (g / Q) = Some e ∧
         get ests [s; j; c; t] = get e (unravel segsh (g mod Q) ++ [j]).
Proof.
  intros Q Hes HQ Hn Hstack Hrun.
  apply stack0_Ok in Hstack as (s0 & Hs0 & Hst & Hdata & Hne).
  apply bind_Ok in Hrun as (r2 & Hr2 & Hperm).
  unfold reshape in Hr2. apply bind_Ok in Hr2 as (s2 & Hs2 & [= <-]).
  apply (infer_size_last [Z.of_nat S; Z.of_nat C; Z.of_nat L]) in Hs2 as (_ & Hk & Hmod & ->).
  assert (s0 = segsh ++ [T]) as ->.
  { destruct es as [|e0 es']; [done|]. apply Forall_cons in Hes as [[He0 _] _].
    apply Forall_cons in Hs0 as [<- _]. done. }
  rewrite Hst in *. cbn [fmap list_fmap numel foldr app] in Hk, Hmod, Hperm |- *.
  rewrite !Nat2Z.id in *.
  assert (length es * foldr Nat.mul 1 (segsh ++ [T]) / (S * (C * (L * 1))) = T) as HT.
  { change (foldr Nat.mul 1 (segsh ++ [T])) with (numel (segsh ++ [T])).
    rewrite numel_app. fold Q. change (numel [T]) with (T * 1).
    replace (length es * (Q * (T * 1))) with (T * (S * (C * (L * 1)))) by nia.
    apply Nat.div_mul. lia. }
  rewrite HT in Hperm.
  destruct (permute_0312_spec (mkTensor [S; C; L; T] (data stacked)) S C L T eq_refl)
    as (ests' & Hperm' & Hse & _ & Hget).
  rewrite Hperm in Hperm'. injection Hperm' as <-.
  split; [done|]. intros s j c t ? ? ? ?. set (g := ravel [S; C; L] [s; c; t]).
  rewrite Hget by done. unfold get at 1. cbn [shape data].
  change (ravel [S; C; L; T] [s; c; t; j])
    with (ravel ([S; C; L] ++ [T]) ([s; c; t] ++ [j])).
  rewrite (ravel_snoc [S; C; L] [s; c; t] T j eq_refl). fold g.
  assert (g < length es * Q) as Hg.
  { rewrite <- Hn. unfold g.
    eapply Nat.lt_le_trans; [apply (ravel_lt [S; C; L] [s; c; t]); simpl; tauto|].
    simpl. lia. }
  destruct (div_mod_lt_mul g _ Q HQ Hg) as (Hkk & Hr & Hgeq).
  destruct (lookup_lt_is_Some_2 es (g / Q) Hkk) as [e He].
  exists e. split; [done|].
  apply (Forall_lookup_1 _ _ _ _ Hes) in He as Hee. destruct Hee as [Hse' Hwfe].
  rewrite Hdata.
  replace (g * T + j) with (g / Q * (Q * T) + (g mod Q * T + j)) by nia.
  rewrite (lookup_total_concat _ (Q * T) _ _ (data e)).
  - unfold get. rewrite Hse', ravel_snoc by (by rewrite length_unravel).
    by rewrite ravel_unravel.
  - apply Forall_fmap. eapply Forall_impl; [exact Hes|]. intros e' [He' Hwf']. simpl.
    rewrite Hwf', He', numel_app. simpl. unfold Q. lia.
  - by rewrite list_lookup_fmap, He.
  - nia.
Qed.

Lemma unbind0_Ok (t : Tensor R) n s segs :
  shape t = n :: s → unbind0 t = Ok segs →
  length segs = n ∧ Forall (λ seg, shape seg = s) segs.
Proof.
  intros Hs Hu. destruct (unbind0_spec t n s Hs) as (segs' & Hu' & ? & ? & _).
  rewrite Hu in Hu'. by injection Hu' as <-.
Qed.

Lemma forward_padded_inv sep audio S C N sb cs ests :
  shape audio = [S; C; N] →
  Separator.nb_channels sep = Z.of_nat C →
  Separator.seq_batch sep = Z.of_nat sb → Separator.chunk_size_samples sep = Z.of_nat cs →
  0 < sb → 0 < cs →
  forward_padded sep audio = Ok ests →
  ∃ p, Separator.pad_last sep (Z.of_nat N) = Ok (Z.of_nat p) ∧
    shape ests = [S; Separator.nb_targets sep; C; N + p] ∧
    ∀ j item, Separator.items (Separator.target_models sep) !! j = Some item →
      j < Separator.nb_targets sep ∧
      ∃ w, target_estimate sep audio item = Ok w ∧ shape w = [S; C; N + p] ∧
        ∀ s c t, s < S → c < C → t < N + p → get ests [s; j; c; t] = get w [s; c; t].
Proof.
  intros Hs HC Hsb Hcs ? ? Hrun.
  destruct (pad_last_nat sep sb cs N Hsb Hcs) as (p & Hp & _); [done..|].
  exists p. split; [done|].
  unfold Separator.forward_padded in Hrun. unfold Separator.target_estimate.
  rewrite Hs in *. cbn [head last from_option] in *.
  apply bind_Ok in Hrun as (? & [= <-] & Hrun). apply bind_Ok in Hrun as (? & [= <-] & Hrun).
  apply bind_Ok in Hrun as (? & Hp' & Hrun). rewrite Hp in Hp'. injection Hp' as <-.
  apply bind_Ok in Hrun as (padded & Hpad & Hrun).
  apply bind_Ok in Hrun as (audio_segs & Hre & Hrun).
  apply bind_Ok in Hrun as (segs & Hsegs & Hrun).
  apply bind_Ok in Hrun as (es & Hes & Hrun).
  apply bind_Ok in Hrun as (stacked & Hstack & Hrun).
  destruct (segments_spec sep audio S C N sb cs p Hs HC Hsb Hcs _ _ Hpad Hre)
    as (HQ & n & Hn & Hsh).
  destruct (unbind0_Ok _ _ _ _ Hsh Hsegs) as (Hlen & Hshapes).
  apply for_each_Ok in Hes.
  pose proof (Forall2_length _ _ _ Hes) as Hlen2.
  set (T := Separator.nb_targets sep) in *.
  assert (Forall (λ e, shape e = [S * sb; C; cs] ++ [T] ∧ wf e) es) as Hes_shape.
  { apply Forall_forall. intros e He. apply list_elem_of_lookup in He as [k He].
    destruct (Forall2_lookup_r _ _ _ _ _ Hes He) as (seg & Hseg & Hrun_e).
    apply separate_segment_inv in Hrun_e as (Hse & Hwfe & _).
    by rewrite (Forall_lookup_1 _ _ _ _ Hshapes Hseg) in Hse. }
  rewrite HC, <- Nat2Z.inj_add in Hrun.
  destruct (reassemble_spec es [S * sb; C; cs] T S C (N + p) stacked ests Hes_shape)
    as (Hse & Hget); [simpl; lia|simpl; lia|done|done|].
  split; [done|]. intros j item Hitem.
  assert (j < T) as Hj.
  { destruct es as [|e0 es']; [by apply stack0_Ok in Hstack as (? & ? & ? & ? & ?)|].
    destruct segs as [|seg0 segs']; [done|]. apply Forall2_cons in Hes as [He0 _].
    apply separate_segment_inv in He0 as (_ & _ & Hitems). by apply Hitems in Hitem as [? _]. }
  split; [done|].
  cbn [mbind result_bind]. rewrite Hp. cbn [mbind result_bind].
  rewrite Hpad. cbn [mbind result_bind].
  rewrite Hre. cbn [mbind result_bind]. rewrite Hsegs. cbn [mbind result_bind].
  set (f := λ audio_seg : Tensor R,
         y ← run_target sep audio_seg item.1 item.2; setitem_value y (shape audio_seg)).
  assert (Forall2 (λ seg e, ∃ y', f seg = Ok y' ∧ shape y' = shape seg ∧
             ∀ idx, in_range (shape seg) idx → get e (idx ++ [j]) = get y' idx) segs es) as Hys.
  { eapply Forall2_impl; [exact Hes|]. intros seg e Hrun_e.
    apply separate_segment_inv in Hrun_e as (_ & _ & Hitems).
    destruct (Hitems _ _ Hitem) as (_ & y & y' & Hy & Hy' & Hg).
    exists y'. split; [unfold f; by rewrite Hy|]. split; [|done].
    by apply setitem_value_Ok in Hy' as [? _]. }
  destruct (for_each_exists f segs) as [ys Hfor].
  { apply Forall_forall. intros seg Hseg. apply list_elem_of_lookup in Hseg as [k Hk].
    destruct (Forall2_lookup_l _ _ _ _ _ Hys Hk) as (e & _ & y' & ? & _). by exists y'. }
  rewrite Hfor. cbn [mbind result_bind]. eexists. split; [done|].
  rewrite HC, <- Nat2Z.inj_add, !Nat2Z.id. split; [done|].
  intros s c t ? ? ?.
  destruct (Hget s j c t) as (e & He & ->); [done..|].
  set (g := ravel [S; C; N + p] [s; c; t]) in *.
  assert (g < length es * numel [S * sb; C; cs]) as Hg.
  { unfold g. eapply Nat.lt_le_trans; [apply (ravel_lt [S; C; N + p] [s; c; t]); simpl; tauto|].
    simpl. nia. }
  destruct (div_mod_lt_mul g (length es) (numel [S * sb; C; cs]) ltac:(simpl; nia) Hg) as (Hkk & Hr & Hgeq).
  destruct (Forall2_lookup_r _ _ _ _ _ Hys He) as (seg & Hseg & y' & Hy' & Hsy' & Hgy).
  pose proof (Forall_lookup_1 _ _ _ _ Hshapes Hseg) as Hsseg.
  apply for_each_Ok in Hfor.
  destruct (Forall2_lookup_l _ _ _ _ _ Hfor Hseg) as (y'' & Hys'' & Hy'').
  rewrite Hy' in Hy''. injection Hy'' as <-.
  rewrite <- Hsseg. rewrite Hgy by (apply unravel_in_range; by rewrite Hsseg).
  unfold get. cbn [shape data]. fold g. rewrite Hsy', ravel_unravel by (by rewrite Hsseg).
  rewrite Hgeq at 2. rewrite Hsseg.
  symmetry. apply (lookup_total_concat _ (numel [S * sb; C; cs]) _ _ (data y')).
  - apply Forall_fmap, Forall_forall. intros y3 Hy3. apply list_elem_of_lookup in Hy3 as [k3 Hy3].
    destruct (Forall2_lookup_r _ _ _ _ _ Hfor Hy3) as (seg3 & Hseg3 & Hf3).
    unfold f in Hf3. apply bind_Ok in Hf3 as (y0 & _ & Hexp).
    apply setitem_value_Ok in Hexp as [_ Hd]. simpl. rewrite Hd.
    by rewrite (Forall_lookup_1 _ _ _ _ Hshapes Hseg3).
  - by rewrite list_lookup_fmap, Hys''.
  - done.
Qed.

Lemma forward_padded_Ok sep audio S C N sb cs :
  shape audio = [S; C; N] →
  Separator.nb_channels sep = Z.of_nat C →
  Separator.seq_batch sep = Z.of_nat sb → Separator.chunk_size_samples sep = Z.of_nat cs →
  0 < S → 0 < C → 0 < N → 0 < sb → 0 < cs →
  length (Separator.items (Separator.target_models sep)) ≤ Separator.nb_targets sep →
  pipelines_keep_shape sep [S * sb; C; cs] →
  is_Ok (forward_padded sep audio).
Proof.
  intros Hs HC Hsb Hcs ? ? ? ? ? Hlen Hpipe.
  destruct (pad_last_nat sep sb cs N Hsb Hcs) as (p & Hp & _ & (k & Hk & Hkpos) & _); [done..|].
  specialize (Hkpos ltac:(done)).
  destruct (F_pad_spec audio [S; C] N p Hs) as (padded & Hpad & Hsp & _).
  set (T := Separator.nb_targets sep) in *.
  unfold Separator.forward_padded. rewrite Hs. cbn [head last from_option mbind result_bind].
  rewrite Hp. cbn [mbind result_bind]. rewrite Hpad. cbn [mbind result_bind].
  unfold reshape at 2. rewrite Hsp, HC, Hsb, Hcs.
  assert (infer_size [-1; Z.of_nat S * Z.of_nat sb; Z.of_nat C; Z.of_nat cs]%Z
            (numel ([S; C] ++ [N + p])) = Ok [k; S * sb; C; cs]) as ->.
  { apply infer_size_head. split; [repeat constructor; lia|].
    cbn [fmap list_fmap numel foldr app].
    rewrite <- Nat2Z.inj_mul, !Nat2Z.id.
    replace (S * (C * ((N + p) * 1))) with (k * (S * sb * (C * (cs * 1)))) by nia.
    split; [nia|]. split; [apply Nat.Div0.mod_mul|].
    rewrite Nat.div_mul; [done|nia]. }
  cbn [mbind result_bind].
  destruct (unbind0_spec (mkTensor [k; S * sb; C; cs] (data padded)) k [S * sb; C; cs] eq_refl)
    as (segs & Hsegs & Hlen_segs & Hshapes & _).
  rewrite Hsegs. cbn [mbind result_bind].
  destruct (for_each_exists (separate_segment sep) segs) as [es Hes].
  { eapply Forall_impl; [exact Hshapes|]. intros seg Hseg.
    destruct (separate_segment_Ok sep seg Hlen) as (e & He & _); [|by exists e].
    by apply Hpipe. }
  rewrite Hes. cbn [mbind result_bind]. apply for_each_Ok in Hes.
  pose proof (Forall2_length _ _ _ Hes) as Hlen2.
  assert (Forall (λ e, shape e = [S * sb; C; cs; T]) es) as Hes_shape.
  { apply Forall_forall. intros e He. apply list_elem_of_lookup in He as [i He].
    destruct (Forall2_lookup_r _ _ _ _ _ Hes He) as (seg & Hseg & Hrun_e).
    apply separate_segment_inv in Hrun_e as (Hse & _ & _).
    by rewrite (Forall_lookup_1 _ _ _ _ Hshapes Hseg) in Hse. }
  rewrite (stack0_same es [S * sb; C; cs; T]); [|destruct es; simpl in *; [lia|done]|done].
  cbn [mbind result_bind]. unfold reshape. cbn [shape data].
  rewrite <- Nat2Z.inj_add.
  assert (infer_size [Z.of_nat S; Z.of_nat C; Z.of_nat (N + p); -1]%Z
            (numel (length es :: [S * sb; C; cs; T])) = Ok [S; C; N + p; T]) as ->.
  { apply (infer_size_last [Z.of_nat S; Z.of_nat C; Z.of_nat (N + p)]).
    split; [repeat constructor; lia|]. cbn [fmap list_fmap numel foldr app].
    rewrite !Nat2Z.id.
    replace (length es * (S * sb * (C * (cs * (T * 1)))))
      with (T * (S * (C * ((N + p) * 1)))) by nia.
    split; [nia|]. split; [apply Nat.Div0.mod_mul|].
    rewrite Nat.div_mul; [done|nia]. }
  cbn [mbind result_bind].
  match goal with |- is_Ok (permute (mkTensor [?a; ?b; ?c; ?d] ?x) _) =>
    destruct (permute_0312_spec (mkTensor [a; b; c; d] x) a b c d eq_refl) as (ests & -> & _)
  end.
  by exists ests.
Qed.

Lemma forward_inv sep audio S C N sb cs out :
  shape audio = [S; C; N] →
  Separator.nb_channels sep = Z.of_nat C →
  Separator.seq_batch sep = Z.of_nat sb → Separator.chunk_size_samples sep = Z.of_nat cs →
  0 < sb → 0 < cs →
  forward sep audio = Ok out →
  ∃ ests p, forward_padded sep audio = Ok ests ∧
    Separator.pad_last sep (Z.of_nat N) = Ok (Z.of_nat p) ∧
    shape ests = [S; Separator.nb_targets sep; C; N + p] ∧
    shape out = [S; Separator.nb_targets sep; C; N] ∧
    ∀ s j c t, s < S → j < Separator.nb_targets sep → c < C → t < N →
      get out [s; j; c; t] = get ests [s; j; c; t].
Proof.
  intros Hs HC Hsb Hcs ? ? Hrun. unfold Separator.forward in Hrun.
  rewrite Hs in Hrun. cbn [last from_option mbind result_bind] in Hrun.
  apply bind_Ok in Hrun as (ests & Hests & Hcrop).
  destruct (forward_padded_inv sep audio S C N sb cs ests) as (p & Hp & Hse & _);
    [done..|].
  exists ests, p. split; [done|]. split; [done|]. split; [done|].
  destruct (narrow_last_spec ests [S; Separator.nb_targets sep; C] (N + p) N Hse)
    as (out' & Hcrop' & Hso & _ & Hget).
  rewrite Hcrop in Hcrop'. injection Hcrop' as <-.
  rewrite Nat.min_l in * by lia. split; [done|].
  intros s j c t ? ? ? ?. apply (Hget [s; j; c] t); simpl; tauto.
Qed.

Lemma forward_Ok sep audio S C N sb cs :
  shape audio = [S; C; N] →
  Separator.nb_channels sep = Z.of_nat C →
  Separator.seq_batch sep = Z.of_nat sb → Separator.chunk_size_samples sep = Z.of_nat cs →
  0 < S → 0 < C → 0 < N → 0 < sb → 0 < cs →
  length (Separator.items (Separator.target_models sep)) ≤ Separator.nb_targets sep →
  pipelines_keep_shape sep [S * sb; C; cs] →
  is_Ok (forward sep audio).
Proof.
  intros Hs HC Hsb Hcs ? ? ? ? ? Hlen Hpipe.
  destruct (forward_padded_Ok sep audio S C N sb cs) as [ests Hests]; [done..|].
  destruct (forward_padded_inv sep audio S C N sb cs ests) as (p & Hp & Hse & _);
    [done..|].
  destruct (narrow_last_spec ests [S; Separator.nb_targets sep; C] (N + p) N Hse)
    as (out & Hcrop & _).
  unfold Separator.forward. rewrite Hs. cbn [last from_option mbind result_bind].
  rewrite Hests. cbn [mbind result_bind]. by exists out.
Qed.

Lemma forward_padded_segments sep audio :
  forward_padded sep audio
  = (nb_samples ← from_option IndexError (head (shape audio));
     N ← from_option IndexError (last (shape audio));
     pad_last ← Separator.pad_last sep (Z.of_nat N);
     audio_segs ← Separator.segments sep audio;
     estimates ← for_each (separate_segment sep) audio_segs;
     est_segs ← stack0 estimates;
     est_segs ← reshape est_segs [Z.of_nat nb_samples; Separator.nb_channels sep;
                                  Z.of_nat N + pad_last; -1]%Z;
     permute est_segs [0; 3; 1; 2]).
Proof.
  unfold Separator.forward_padded, Separator.segments.
  destruct (head (shape audio)) as [S|]; [|done].
  destruct (last (shape audio)) as [N|]; [|done]. cbn [from_option mbind result_bind].
  destruct (Separator.pad_last sep (Z.of_nat N)) as [p|]; [|done]. cbn [mbind result_bind].
  destruct (F_pad audio p) as [padded|]; [|done]. cbn [mbind result_bind].
  destruct (reshape padded _) as [audio_segs|]; [|done]. done.
Qed.

End separator_facts.

Section segments_facts.
Context {R : Type} `{Scalar R}.
Implicit Types (sep : Separator.t R) (audio seg : Tensor R).

(** Every step of [forward] before the loop over the segments succeeds on
    a non-degenerate input; the segments are the consecutive runs of
    [S * seq_batch * C * chunk_size_samples] elements of the padded input in
    row-major order. *)
Lemma segments_Ok sep audio S C N sb cs :
  shape audio = [S; C; N] →
  Separator.nb_channels sep = Z.of_nat C →
  Separator.seq_batch sep = Z.of_nat sb → Separator.chunk_size_samples sep = Z.of_nat cs →
  0 < S → 0 < C → 0 < sb → 0 < cs →
  let Q := numel [S * sb; C; cs] in
  ∃ (p k : nat) padded,
    Separator.pad_last sep (Z.of_nat N) = Ok (Z.of_nat p) ∧
    N + p = k * (sb * cs) ∧ (0 < N → 0 < k) ∧
    F_pad audio (Z.of_nat p) = Ok padded ∧ shape padded = [S; C; N + p] ∧ wf padded ∧
    (∀ s c t, s < S → c < C → t < N + p →
       get padded [s; c; t] = if decide (t < N) then get audio [s; c; t] else zero) ∧
    Separator.segments sep audio
    = Ok ((λ g, mkTensor [S * sb; C; cs] (take Q (drop (g * Q) (data padded)))) <$> seq 0 k).
Proof.
  intros Hs HC Hsb Hcs ? ? ? ? Q.
  destruct (pad_last_nat sep sb cs N Hsb Hcs) as (p & Hp & _ & (k & Hk & Hkpos) & _); [done..|].
  destruct (F_pad_spec audio [S; C] N p Hs) as (padded & Hpad & Hsp & Hwf & Hget).
  exists p, k, padded. do 6 (split; [done|]).
  split; [intros s c t ? ? ?; apply (Hget [s; c] t); simpl; tauto|].
  unfold Separator.segments. rewrite Hs. cbn [head last from_option mbind result_bind].
  rewrite Hp. cbn [mbind result_bind]. rewrite Hpad. cbn [mbind result_bind].
  unfold reshape. rewrite Hsp, HC, Hsb, Hcs.
  assert (infer_size [-1; Z.of_nat S * Z.of_nat sb; Z.of_nat C; Z.of_nat cs]%Z
            (numel ([S; C] ++ [N + p])) = Ok [k; S * sb; C; cs]) as ->.
  { apply infer_size_head. split; [repeat constructor; lia|].
    cbn [fmap list_fmap numel foldr app].
    rewrite <- Nat2Z.inj_mul, !Nat2Z.id.
    replace (S * (C * ((N + p) * 1))) with (k * (S * sb * (C * (cs * 1)))) by nia.
    split; [nia|]. split; [apply Nat.Div0.mod_mul|].
    rewrite Nat.div_mul; [done|nia]. }
  cbn [mbind result_bind]. done.
Qed.

End segments_facts.

(** ** Separator.to_dict *)

Section to_dict_facts.
Context {R : Type} `{Scalar R}.
Implicit Types (sep : Separator.t R) (estimates : Tensor R).

Lemma for_in_nil {A St} (body : A → St → result St) acc : Separator.for_in body [] acc = Ok acc.
Proof. done. Qed.

Lemma for_enumerate_const {A St} (body : A → St → result St) xs : ∀ j acc,
  for_enumerate (λ _, body) j xs acc = for_enumerate (λ _, body) 0 xs acc.
Proof.
  induction xs as [|x xs IH]; intros j acc; simpl; [done|].
  destruct (body x acc) as [acc'|e]; simpl; [|done]. by rewrite (IH (S j)), (IH 1).
Qed.

Lemma for_in_cons {A St} (body : A → St → result St) x xs acc :
  Separator.for_in body (x :: xs) acc = acc' ← body x acc; Separator.for_in body xs acc'.
Proof.
  unfold Separator.for_in. simpl. destruct (body x acc); simpl; [|done].
  apply for_enumerate_const.
Qed.

Abbreviation slice_body := Separator.slice_target.

Lemma select1_shape estimates k slice :
  select1 estimates k = Ok slice →
  ∃ a b s, shape estimates = a :: b :: s ∧ k < b ∧ shape slice = a :: s ∧ wf slice.
Proof.
  unfold select1. destruct (shape estimates) as [|a [|b s]] eqn:Hs; try done.
  intros. inv_ok. subst. exists a, b, s. repeat split; try done.
  unfold wf. simpl. by rewrite length_tabulate.
Qed.

Lemma slices_inv estimates names : ∀ k0 acc d,
  for_enumerate (slice_body estimates) k0 names acc = Ok d →
  dom d = dom acc ∪ list_to_set names ∧
  (∀ name, name ∉ names → d !! name = acc !! name) ∧
  (∀ name slice, d !! name = Some slice →
     acc !! name = Some slice ∨ ∃ i, names !! i = Some name ∧ select1 estimates (k0 + i) = Ok slice) ∧
  (NoDup names → ∀ i name, names !! i = Some name →
     ∃ slice, select1 estimates (k0 + i) = Ok slice ∧ d !! name = Some slice).
Proof.
  induction names as [|name names IH]; intros k0 acc d; simpl.
  - intros [= <-]. split; [set_solver|]. split; [done|]. split; [by left|]. by intros _ [|?] ?.
  - intros Hrun. apply bind_Ok in Hrun as (acc1 & Hbody & Hrest).
    unfold Separator.slice_target in Hbody. apply bind_Ok in Hbody as (slice & Hslice & [= <-]).
    destruct (IH _ _ _ Hrest) as (Hdom & Hframe & Hprov & Hval).
    split; [rewrite Hdom, dom_insert_L; set_solver|]. split.
    { intros name' Hnot. rewrite Hframe by set_solver. rewrite lookup_insert_ne; [done|set_solver]. }
    split.
    { intros name' slice' Hd. destruct (Hprov _ _ Hd) as [Hacc|(i & Hi & Hs)].
      - destruct (decide (name = name')) as [<-|Hne].
        + rewrite lookup_insert_eq in Hacc. injection Hacc as <-. right. exists 0.
          by rewrite Nat.add_0_r.
        + rewrite lookup_insert_ne in Hacc by done. by left.
      - right. exists (S i). split; [done|]. by replace (k0 + S i) with (S k0 + i) by lia. }
    intros Hnd [|i] name' Hi; simpl in Hi.
    + injection Hi as <-. apply NoDup_cons in Hnd as [Hnotin _].
      exists slice. rewrite Nat.add_0_r. split; [done|].
      rewrite Hframe by done. by rewrite lookup_insert_eq.
    + apply NoDup_cons in Hnd as [_ Hnd]. destruct (Hval Hnd _ _ Hi) as (slice' & ? & ?).
      exists slice'. by replace (k0 + S i) with (S k0 + i) by lia.
Qed.

Lemma slices_Ok estimates a b s names : ∀ k0 acc,
  shape estimates = a :: b :: s → k0 + length names ≤ b →
  is_Ok (for_enumerate (slice_body estimates) k0 names acc).
Proof.
  induction names as [|name names IH]; intros k0 acc Hs Hlen; simpl; [by eexists|].
  simpl in Hlen. unfold Separator.slice_target.
  destruct (select1_spec estimates a b s k0 Hs ltac:(lia)) as (slice & -> & _). simpl.
  apply IH; [done|lia].
Qed.

Lemma slices_Raise estimates names : ∀ k0 acc e,
  for_enumerate (slice_body estimates) k0 names acc = Raise e → e = IndexError.
Proof.
  induction names as [|name names IH]; intros k0 acc e; simpl; [done|].
  unfold Separator.slice_target. destruct (select1 estimates k0) as [slice|e'] eqn:Hsel; simpl.
  - apply IH.
  - intros [= <-]. unfold select1 in Hsel.
    destruct (shape estimates) as [|? [|? ?]]; try by injection Hsel.
    case_decide; [done|]. by injection Hsel.
Qed.

Lemma zip_with_tabulate_l (op : R → R → R) n (f : nat → R) (l : list R) :
  length l = n → zip_with op (tabulate n f) l = tabulate n (λ i, op (f i) (l !!! i)).
Proof.
  intros Hl. apply list_eq_same_length with n;
    [by rewrite length_tabulate|by rewrite length_zip_with, length_tabulate, Hl, Nat.min_id|].
  intros i x y Hi. rewrite lookup_zip_with, !lookup_tabulate by done. simpl.
  rewrite (list_lookup_lookup_total_lt l i) by lia. simpl. congruence.
Qed.

Lemma replicate_tabulate n (z : R) : replicate n z = tabulate n (λ _, z).
Proof.
  apply list_eq_same_length with n; [by rewrite length_tabulate|by rewrite length_replicate|].
  intros i x y Hi. rewrite lookup_tabulate by done. intros [-> _]%lookup_replicate. congruence.
Qed.

Lemma tensor_add_holds s cur f x :
  Separator.holds s cur f → shape x = s → wf x →
  tensor_add cur x = Ok (mkTensor s (tabulate (numel s) (λ i, add (f i) (data x !!! i)))).
Proof.
  intros Hcur Hx Hwf. unfold tensor_add, pointwise.
  assert (expand_data x s = data x) as Hex by (rewrite <- Hx; by apply expand_data_same).
  unfold wf in Hwf. rewrite Hx in *.
  destruct Hcur as [(z & Hs & Hd & ->)|[Hs Hd]].
  - rewrite Hs, broadcast_shapes_scalar. simpl.
    rewrite (expand_data_scalar cur s Hs), Hd, Hex. simpl.
    by rewrite replicate_tabulate, zip_with_tabulate_l.
  - rewrite Hs, broadcast_shapes_same. simpl. rewrite Hex.
    assert (expand_data cur s = data cur) as ->.
    { rewrite <- Hs. apply expand_data_same. unfold wf. by rewrite Hd, Hs, length_tabulate. }
    by rewrite Hd, zip_with_tabulate_l.
Qed.

Lemma sum_from_spec s slices : ∀ x cur f,
  Separator.holds s cur f → Forall (λ x, shape x = s ∧ wf x) (x :: slices) →
  Separator.sum_from cur (x :: slices)
  = Ok (mkTensor s (tabulate (numel s)
          (λ i, foldl add (f i) ((λ t, data t !!! i) <$> x :: slices)))).
Proof.
  induction slices as [|x' slices IH]; intros x cur f Hcur Hall;
    apply Forall_cons in Hall as [[Hx Hwf] Hall]; unfold Separator.sum_from in *;
    rewrite for_in_cons, (tensor_add_holds s cur f x Hcur Hx Hwf); simpl.
  - done.
  - rewrite (IH x' _ (λ i, add (f i) (data x !!! i))); [done| |done].
    by right.
Qed.

Lemma aggregate_target_step (d0 : gmap string (Tensor R)) key t new cur x :
  new !! key = Some cur → d0 !! t = Some x →
  Separator.aggregate_target d0 key t new = sum ← tensor_add cur x; Ok (<[key := sum]> new).
Proof. intros Hc Hx. unfold Separator.aggregate_target. by rewrite Hc, Hx. Qed.

Lemma aggregate_group_unfold (d0 : gmap string (Tensor R)) key targets new :
  Separator.aggregate_group d0 (key, targets) new
  = Separator.for_in (Separator.aggregate_target d0 key) targets
      (<[key := scalar_tensor zero]> new).
Proof. done. Qed.

Lemma aggregate_targets_spec (d0 : gmap string (Tensor R)) key targets : ∀ slices new cur,
  new !! key = Some cur → Forall2 (λ t x, d0 !! t = Some x) targets slices →
  Separator.for_in (Separator.aggregate_target d0 key) targets new
  = total ← Separator.sum_from cur slices; Ok (<[key := total]> new).
Proof.
  induction targets as [|t targets IH]; intros slices new cur Hcur Hall.
  - apply Forall2_nil_inv_l in Hall as ->. simpl. unfold Separator.for_in. simpl.
    by rewrite insert_id.
  - apply Forall2_cons_inv_l in Hall as (x & slices' & Hx & Hall & ->).
    unfold Separator.sum_from. rewrite !for_in_cons, (aggregate_target_step _ _ _ _ _ _ Hcur Hx).
    destruct (tensor_add cur x) as [sum|e]; simpl; [|done].
    rewrite (IH slices' _ sum); [|by rewrite lookup_insert_eq|done].
    fold (Separator.sum_from sum slices'). destruct (Separator.sum_from sum slices'); simpl; [|done].
    by rewrite insert_insert_eq.
Qed.

Lemma elementwise_sum_holds s x slices :
  Forall (λ x, shape x = s ∧ wf x) (x :: slices) →
  Separator.sum_from (scalar_tensor zero) (x :: slices) = Ok (Separator.elementwise_sum (x :: slices)).
Proof.
  intros Hall. rewrite (sum_from_spec s slices x _ (λ _, zero)); [|by left; eexists|done].
  apply Forall_cons in Hall as [[<- _] _]. done.
Qed.

Lemma aggregate_groups_spec (d0 : gmap string (Tensor R)) s agg :
  (∀ t x, d0 !! t = Some x → shape x = s ∧ wf x) →
  Forall (λ item, Forall (λ t, is_Some (d0 !! t)) item.2) agg →
  ∀ new, ∃ d,
    Separator.for_in (Separator.aggregate_group d0) agg new = Ok d ∧
    dom d = dom new ∪ list_to_set agg.*1 ∧
    (∀ key, key ∉ agg.*1 → d !! key = new !! key) ∧
    (NoDup agg.*1 → ∀ key targets, (key, targets) ∈ agg →
       ∃ slices, Forall2 (λ t x, d0 !! t = Some x) targets slices ∧
                 d !! key = Some (Separator.elementwise_sum slices)).
Proof.
  intros Hd0. induction 1 as [|[key targets] agg Hitem _ IH]; intros new.
  - exists new. split; [done|]. split; [set_solver|]. split; [done|]. intros _ ?? ?%elem_of_nil. done.
  - assert (∃ slices, Forall2 (λ t x, d0 !! t = Some x) targets slices) as [slices Hsl].
    { clear -Hitem. simpl in Hitem. induction Hitem as [|t ts [x Hx] _ [sl IH]].
      - exists []. constructor.
      - exists (x :: sl). by constructor. }
    assert (Forall (λ x, shape x = s ∧ wf x) slices) as Hshapes.
    { apply Forall_forall. intros x Hx. apply list_elem_of_lookup in Hx as [i Hi].
      destruct (Forall2_lookup_r _ _ _ _ _ Hsl Hi) as (t & _ & Ht). by apply Hd0 in Ht. }
    rewrite for_in_cons, aggregate_group_unfold.
    rewrite (aggregate_targets_spec d0 key targets slices _ (scalar_tensor zero));
      [|by rewrite lookup_insert_eq|done].
    assert (Separator.sum_from (scalar_tensor zero) slices = Ok (Separator.elementwise_sum slices)) as ->.
    { destruct slices as [|x slices]; [done|]. by apply (elementwise_sum_holds s). }
    simpl. rewrite insert_insert_eq.
    destruct (IH (<[key := Separator.elementwise_sum slices]> new)) as (d & Hd & Hdom & Hframe & Hval).
    exists d. split; [done|]. split; [rewrite Hdom, dom_insert_L; set_solver|]. split.
    { intros key' Hnot. rewrite Hframe by set_solver. rewrite lookup_insert_ne; [done|set_solver]. }
    intros Hnd key' targets' Hin. simpl in Hnd. apply NoDup_cons in Hnd as [Hnotin Hnd].
    apply elem_of_cons in Hin as [[= -> ->]|Hin].
    + exists slices. split; [done|]. rewrite Hframe by done. by rewrite lookup_insert_eq.
    + by apply Hval.
Qed.

Lemma tensor_add_shape s (cur x : Tensor R) :
  shape cur = [] ∨ shape cur = s → shape x = s →
  ∃ sum, tensor_add cur x = Ok sum ∧ shape sum = s.
Proof.
  intros [Hc|Hc] Hx; unfold tensor_add, pointwise; rewrite Hc, Hx.
  - rewrite broadcast_shapes_scalar. by eexists.
  - rewrite broadcast_shapes_same. by eexists.
Qed.

Lemma aggregate_targets_cases (d0 : gmap string (Tensor R)) s key :
  (∀ t x, d0 !! t = Some x → shape x = s) →
  ∀ targets new cur, new !! key = Some cur → shape cur = [] ∨ shape cur = s →
  (∃ total, Separator.for_in (Separator.aggregate_target d0 key) targets new
            = Ok (<[key := total]> new) ∧
            Forall (λ t, is_Some (d0 !! t)) targets) ∨
  (∃ target, Separator.for_in (Separator.aggregate_target d0 key) targets new
             = Raise (KeyError target) ∧
             target ∈ targets ∧ d0 !! target = None).
Proof.
  intros Hd0. induction targets as [|t targets IH]; intros new cur Hcur Hs.
  - left. exists cur. by rewrite insert_id.
  - rewrite for_in_cons. destruct (d0 !! t) as [x|] eqn:Hx.
    + rewrite (aggregate_target_step _ _ _ _ _ _ Hcur Hx).
      destruct (tensor_add_shape s cur x Hs (Hd0 _ _ Hx)) as (sum & -> & Hsum). simpl.
      destruct (IH (<[key := sum]> new) sum) as [(total & Hrun & Hall)|(target & Hrun & Hin & Hnone)];
        [by rewrite lookup_insert_eq|by right| |].
      * left. exists total. rewrite Hrun, insert_insert_eq. split; [done|].
        constructor; [by rewrite Hx|done].
      * right. exists target. rewrite Hrun. split; [done|]. split; [set_solver|done].
    + right. exists t. unfold Separator.aggregate_target. rewrite Hcur, Hx. simpl.
      split; [done|]. split; [set_solver|done].
Qed.

Lemma aggregate_groups_raise (d0 : gmap string (Tensor R)) s :
  (∀ t x, d0 !! t = Some x → shape x = s) →
  ∀ agg new, Exists (λ item, Exists (λ t, d0 !! t = None) item.2) agg →
  ∃ target, Separator.for_in (Separator.aggregate_group d0) agg new = Raise (KeyError target) ∧
            d0 !! target = None ∧ ∃ key targets, (key, targets) ∈ agg ∧ target ∈ targets.
Proof.
  intros Hd0. induction agg as [|[key targets] agg IH]; intros new Hex.
  - by apply Exists_nil in Hex.
  - rewrite for_in_cons, aggregate_group_unfold.
    destruct (aggregate_targets_cases d0 s key Hd0 targets
                (<[key := scalar_tensor zero]> new) (scalar_tensor zero))
      as [(total & -> & Hall)|(target & -> & Hin & Hnone)];
      [by rewrite lookup_insert_eq|by left| |].
    + simpl. apply Exists_cons in Hex as [Hex|Hex].
      * simpl in Hex. apply Exists_exists in Hex as (t & Ht & Hnone).
        rewrite Forall_forall in Hall. destruct (Hall _ Ht) as [? Hsome]. congruence.
      * destruct (IH (<[key := total]> (<[key := scalar_tensor zero]> new)) Hex)
          as (target & -> & Hnone & key' & targets' & Hin & Hin').
        exists target. split; [done|]. split; [done|]. exists key', targets'. set_solver.
    + simpl. exists target. split; [done|]. split; [done|]. exists key, targets. set_solver.
Qed.

Abbreviation names sep := (Separator.keys (Separator.target_models sep)).

Lemma slices_spec estimates a b s (nms : list string) :
  shape estimates = a :: b :: s → length nms ≤ b →
  ∃ d0, for_enumerate (Separator.slice_target estimates) 0 nms ∅ = Ok d0 ∧
    dom d0 = list_to_set nms ∧
    (∀ name slice, d0 !! name = Some slice →
       shape slice = a :: s ∧ wf slice ∧
       ∃ i, nms !! i = Some name ∧ select1 estimates i = Ok slice) ∧
    (NoDup nms → ∀ i name, nms !! i = Some name →
       ∃ slice, select1 estimates i = Ok slice ∧ d0 !! name = Some slice).
Proof.
  intros Hs Hlen.
  destruct (slices_Ok estimates a b s nms 0 ∅ Hs Hlen) as [d0 Hd0].
  exists d0. split; [done|].
  destruct (slices_inv _ _ _ _ _ Hd0) as (Hdom & _ & Hprov & Hval).
  split; [set_solver|]. split; [|done].
  intros name slice Hd. destruct (Hprov _ _ Hd) as [?|(i & Hi & Hsel)]; [done|].
  simpl in Hsel. destruct (select1_shape _ _ _ Hsel) as (a' & b' & s' & Hs' & _ & ? & ?).
  rewrite Hs in Hs'. injection Hs' as <- <- <-. eauto.
Qed.

(** C4 -- With an [aggregate_dict] whose groups name only registered
    targets, [to_dict] returns a mapping whose keys are exactly the group
    names; the tensor of a group is the elementwise sum, accumulated from
    zero, of the slices [estimates[:, j, ...]] of its targets; the per-target
    mapping is not part of the result. *)
Theorem to_dict_aggregates sep estimates a b s
    (aggregate_dict : list (string * list string)) :
  shape estimates = a :: b :: s →
  length (names sep) ≤ b →
  NoDup aggregate_dict.*1 →
  Forall (λ item, Forall (λ target, target ∈ names sep) item.2) aggregate_dict →
  ∃ d, Separator.to_dict sep estimates (Some aggregate_dict) = Ok d ∧
    dom d = list_to_set aggregate_dict.*1 ∧
    ∀ key targets, (key, targets) ∈ aggregate_dict →
      ∃ slices,
        Forall2 (λ target slice,
                   ∃ j, names sep !! j = Some target ∧ select1 estimates j = Ok slice)
                targets slices ∧
        d !! key = Some (Separator.elementwise_sum slices).
Proof.
  intros Hs Hlen Hnd Hknown.
  destruct (slices_spec estimates a b s (names sep) Hs Hlen) as (d0 & Hd0 & Hdom & Hprov & _).
  unfold Separator.to_dict. rewrite Hd0. simpl.
  destruct (aggregate_groups_spec d0 (a :: s) aggregate_dict) with (new := (∅ : gmap string (Tensor R)))
    as (d & Hd & Hdomd & _ & Hval).
  { intros t x Hx. destruct (Hprov _ _ Hx) as (? & ? & _). done. }
  { eapply Forall_impl; [exact Hknown|]. intros item Hitem.
    eapply Forall_impl; [exact Hitem|]. intros t Ht. simpl in Ht.
    apply elem_of_dom. rewrite Hdom. set_solver. }
  exists d. split; [done|]. split; [set_solver|].
  intros key targets Hin. destruct (Hval Hnd _ _ Hin) as (slices & Hsl & Hkey).
  exists slices. split; [|done].
  eapply Forall2_impl; [exact Hsl|]. intros t x Hx. simpl in Hx.
  destruct (Hprov _ _ Hx) as (_ & _ & ?). done.
Qed.

(** C10 -- With an [aggregate_dict] in which some group names a target
    that is not registered, [to_dict] raises and returns no mapping: for
    estimates of the documented shape the exception is the [KeyError] of an
    unregistered name of some group; otherwise the only other possible
    exception is the [IndexError] of the slicing loop that runs first. *)
Theorem to_dict_unknown_target_raises sep estimates
    (aggregate_dict : list (string * list string)) :
  Exists (λ item, Exists (λ target, target ∉ (names sep)) item.2) aggregate_dict →
  (∃ e, Separator.to_dict sep estimates (Some aggregate_dict) = Raise e ∧
     (e = IndexError ∨
      ∃ target, e = KeyError target ∧ (target ∉ names sep) ∧
        ∃ key targets, (key, targets) ∈ aggregate_dict ∧ target ∈ targets)) ∧
  (∀ a b s, shape estimates = a :: b :: s → length (names sep) ≤ b →
     ∃ target, Separator.to_dict sep estimates (Some aggregate_dict) = Raise (KeyError target) ∧
       (target ∉ names sep) ∧
       ∃ key targets, (key, targets) ∈ aggregate_dict ∧ target ∈ targets).
Proof.
  intros Hex.
  assert (∀ d0, for_enumerate (Separator.slice_target estimates) 0 (names sep) ∅ = Ok d0 →
    ∃ target, Separator.to_dict sep estimates (Some aggregate_dict) = Raise (KeyError target) ∧
       (target ∉ names sep) ∧
       ∃ key targets, (key, targets) ∈ aggregate_dict ∧ target ∈ targets) as Hkey.
  { intros d0 Hd0.
    destruct (slices_inv _ _ _ _ _ Hd0) as (Hdom & _ & Hprov & _).
    set (sh := match shape estimates with a :: _ :: s => a :: s | _ => [] end).
    destruct (aggregate_groups_raise d0 sh) with (agg := aggregate_dict)
      (new := (∅ : gmap string (Tensor R))) as (target & Hrun & Hnone & Hwhere).
    { intros t x Hx. destruct (Hprov _ _ Hx) as [?|(i & _ & Hsel)]; [done|].
      destruct (select1_shape _ _ _ Hsel) as (a' & b' & s' & Hs' & _ & ? & _).
      unfold sh. by rewrite Hs'. }
    { eapply Exists_impl; [exact Hex|]. intros item Hitem.
      eapply Exists_impl; [exact Hitem|]. intros t Ht. simpl in Ht.
      apply not_elem_of_dom. rewrite Hdom. set_solver. }
    exists target. unfold Separator.to_dict. rewrite Hd0. simpl. split; [done|].
    split; [|done]. apply not_elem_of_dom in Hnone. rewrite Hdom in Hnone. set_solver. }
  split.
  - destruct (for_enumerate (Separator.slice_target estimates) 0 (names sep) ∅)
      as [d0|e] eqn:Hd0.
    + destruct (Hkey d0 eq_refl) as (target & Hrun & ? & ?).
      exists (KeyError target). split; [done|]. right. eauto.
    + exists e. unfold Separator.to_dict. rewrite Hd0. simpl. split; [done|].
      left. by apply slices_Raise in Hd0.
  - intros a b s Hs Hlen.
    destruct (slices_Ok estimates a b s (names sep) 0 ∅ Hs Hlen) as [d0 Hd0]. eauto.
Qed.

End to_dict_facts.

(** ** Claims on the separator *)

Section separator_claims.
Context {R : Type} `{Scalar R}.
Context (phasemix_sep : Tensor R → Tensor R → result (Tensor R)).
Implicit Types (sep : Separator.t R) (audio seg estimates : Tensor R).

Abbreviation run_target := (Separator.run_target phasemix_sep).
Abbreviation forward_padded := (Separator.forward_padded phasemix_sep).
Abbreviation forward := (Separator.forward phasemix_sep).
Abbreviation target_estimate := (Separator.target_estimate phasemix_sep).
Abbreviation models sep := (Separator.items (Separator.target_models sep)).
Abbreviation names sep := (Separator.keys (Separator.target_models sep)).

(** C1 -- For a waveform of shape (samples, channels, N) with N > 0 and
    a separator with positive [seq_batch] and [chunk_size_samples] whose
    transforms honour their contract, [forward] returns a tensor of shape
    (samples, nb_targets, channels, N): the time axis has length exactly
    N. *)
Theorem forward_keeps_length sep audio S C N :
  shape audio = [S; C; N] → 0 < S → 0 < C → 0 < N →
  Separator.nb_channels sep = Z.of_nat C →
  (0 < Separator.seq_batch sep)%Z → (0 < Separator.chunk_size_samples sep)%Z →
  Separator.nb_targets sep = length (models sep) →
  Separator.pipelines_keep_shape phasemix_sep sep
    [S * Z.to_nat (Separator.seq_batch sep); C; Z.to_nat (Separator.chunk_size_samples sep)] →
  ∃ out, forward sep audio = Ok out ∧
    shape out = [S; Separator.nb_targets sep; C; N] ∧
    last (shape out) = Some N.
Proof.
  intros Hs ? ? ? HC Hsb Hcs HT Hpipe.
  set (sb := Z.to_nat (Separator.seq_batch sep)) in *.
  set (cs := Z.to_nat (Separator.chunk_size_samples sep)) in *.
  assert (Separator.seq_batch sep = Z.of_nat sb) as Hsb' by lia.
  assert (Separator.chunk_size_samples sep = Z.of_nat cs) as Hcs' by lia.
  destruct (forward_Ok phasemix_sep sep audio S C N sb cs) as [out Hout]; try done; try lia.
  exists out. split; [done|].
  destruct (forward_inv phasemix_sep sep audio S C N sb cs out) as (_ & _ & _ & _ & _ & Hso & _);
    try done; try lia.
  by rewrite Hso.
Qed.

(** C2 -- In [forward], for a waveform of shape (samples, channels, N)
    short enough for the floating-point quotient of line 204 to be exact
    (N + seq_batch * chunk_size_samples at most 2^53), [pad_last] is
    non-negative and N + pad_last is the least multiple of
    seq_batch * chunk_size_samples that is at least N.  The tensor that
    [forward] cuts into segments is the input with [pad_last] zeros appended
    on the right of the time axis and nothing on the left: the segments are
    its consecutive row-major chunks, the estimates are computed from these
    chunks and from nothing else, and they are reshaped to the time length
    N + pad_last.  The result of [forward] is this tensor cropped to its
    first N samples, so the crop removes exactly the [pad_last] trailing
    ones; and [forward] does return when the transforms honour their
    contract. *)
Theorem padding_is_least_multiple_and_is_cropped sep audio S C N :
  shape audio = [S; C; N] → 0 < S → 0 < C →
  Separator.nb_channels sep = Z.of_nat C →
  (0 < Separator.seq_batch sep)%Z → (0 < Separator.chunk_size_samples sep)%Z →
  (Z.of_nat N + Separator.seq_batch sep * Separator.chunk_size_samples sep
   ≤ 9007199254740992)%Z →
  let sb := Z.to_nat (Separator.seq_batch sep) in
  let cs := Z.to_nat (Separator.chunk_size_samples sep) in
  let d := Z.to_nat (Separator.seq_batch sep * Separator.chunk_size_samples sep) in
  let Q := numel [S * sb; C; cs] in
  ∃ (pad_last k : nat) padded,
    Separator.pad_last sep (Z.of_nat N) = Ok (Z.of_nat pad_last) ∧
    N + pad_last = k * d ∧
    (N + pad_last) mod d = 0 ∧
    (∀ m, m mod d = 0 → N ≤ m → N + pad_last ≤ m) ∧
    F_pad audio (Z.of_nat pad_last) = Ok padded ∧
    shape padded = [S; C; N + pad_last] ∧
    (∀ s c t, s < S → c < C → t < N + pad_last →
       get padded [s; c; t] = if decide (t < N) then get audio [s; c; t] else zero) ∧
    let chunks :=
      (λ g, mkTensor [S * sb; C; cs] (take Q (drop (g * Q) (data padded)))) <$> seq 0 k in
    Separator.segments sep audio = Ok chunks ∧
    forward_padded sep audio
    = (estimates ← for_each (Separator.separate_segment phasemix_sep sep) chunks;
       est_segs ← stack0 estimates;
       est_segs ← reshape est_segs [Z.of_nat S; Z.of_nat C;
                                    Z.of_nat N + Z.of_nat pad_last; -1]%Z;
       permute est_segs [0; 3; 1; 2]) ∧
    forward sep audio = (ests ← forward_padded sep audio; narrow_last ests N) ∧
    (∀ out, forward sep audio = Ok out →
       ∃ ests, forward_padded sep audio = Ok ests ∧
         shape ests = [S; Separator.nb_targets sep; C; N + pad_last] ∧
         shape out = [S; Separator.nb_targets sep; C; N] ∧
         ∀ s j c t, s < S → j < Separator.nb_targets sep → c < C → t < N →
           get out [s; j; c; t] = get ests [s; j; c; t]) ∧
    (0 < N → Separator.nb_targets sep = length (models sep) →
     Separator.pipelines_keep_shape phasemix_sep sep [S * sb; C; cs] →
     ∃ out, forward sep audio = Ok out).
Proof.
  intros Hs ? ? HC Hsb Hcs _ sb cs d Q.
  assert (Separator.seq_batch sep = Z.of_nat sb) as Hsb' by (unfold sb; lia).
  assert (Separator.chunk_size_samples sep = Z.of_nat cs) as Hcs' by (unfold cs; lia).
  assert (0 < sb) by (unfold sb; lia). assert (0 < cs) by (unfold cs; lia).
  assert (d = sb * cs) as -> by (unfold d, sb, cs; lia).
  destruct (segments_Ok sep audio S C N sb cs)
    as (p & k & padded & Hp & Hk & _ & Hpad & Hsp & _ & Hgp & Hsegs); [done..|].
  destruct (pad_last_nat sep sb cs N Hsb' Hcs') as (p' & Hp' & _ & _ & Hmin); [done..|].
  rewrite Hp in Hp'. injection Hp' as Hpp. apply Nat2Z.inj in Hpp as <-.
  exists p, k, padded. split; [done|]. split; [done|].
  split; [rewrite Hk; apply Nat.Div0.mod_mul|]. split; [done|]. split; [done|].
  split; [done|]. split; [done|]. intros chunks.
  split; [done|]. split.
  { rewrite (forward_padded_segments phasemix_sep), Hs.
    cbn [head last from_option mbind result_bind]. rewrite Hp. cbn [mbind result_bind].
    rewrite Hsegs. cbn [mbind result_bind]. by rewrite HC. }
  split.
  { unfold Separator.forward. rewrite Hs. done. }
  split.
  - intros out Hout.
    destruct (forward_inv phasemix_sep sep audio S C N sb cs out)
      as (ests & p' & Hests & Hp' & Hse & Hso & Hget); [done..|].
    rewrite Hp in Hp'. injection Hp' as Hpp. apply Nat2Z.inj in Hpp as <-.
    by exists ests.
  - intros ? HT Hpipe.
    destruct (forward_Ok phasemix_sep sep audio S C N sb cs) as [out Hout]; try done; [lia|].
    by exists out.
Qed.


Lemma select1_ext (a b : Tensor R) s0 T rest j :
  shape a = s0 :: T :: rest → shape b = s0 :: T :: rest → j < T →
  (∀ i idx, i < s0 → in_range rest idx → get a (i :: j :: idx) = get b (i :: j :: idx)) →
  select1 a j = select1 b j.
Proof.
  intros Ha Hb Hj Hget. unfold select1. rewrite Ha, Hb, !decide_True by done.
  do 2 f_equal. apply tabulate_ext. intros i Hi.
  assert (0 < numel rest) by (destruct (numel rest); lia).
  specialize (Hget (i / numel rest) (unravel rest (i mod numel rest))
                ltac:(by apply div_lt_mul) ltac:(by apply unravel_in_range, mod_lt_pos)).
  unfold get in Hget. rewrite Ha, Hb in Hget. simpl in Hget.
  rewrite ravel_unravel in Hget by (by apply mod_lt_pos).
  by rewrite !Nat.add_assoc in Hget.
Qed.

Lemma for_each_ext {A B} (f g : A → result B) xs :
  (∀ x, f x = g x) → for_each f xs = for_each g xs.
Proof. intros Hfg. induction xs as [|x xs IH]; simpl; [done|]. by rewrite Hfg, IH. Qed.

Lemma target_estimate_ext k sepA sepB audio j item :
  Separator.differ_only_at k sepA sepB → j ≠ k → models sepA !! j = Some item →
  target_estimate sepA audio item = target_estimate sepB audio item.
Proof.
  intros (Hcn & Hch & HT & Hcs & Hsb & Hitems) Hj Hitem.
  destruct (Hitems _ _ Hj Hitem) as [_ Hfb].
  unfold Separator.target_estimate, Separator.pad_last. rewrite Hch, Hcs, Hsb.
  destruct (from_option IndexError (head (shape audio))) as [nb_samples|]; simpl; [|done].
  destruct (from_option IndexError (last (shape audio))) as [N|]; simpl; [|done].
  destruct (Separator.ceil_div _ _) as [chunks_ceil|]; simpl; [|done].
  destruct (F_pad audio _) as [padded|]; simpl; [|done].
  destruct (reshape padded _) as [audio_segs|]; simpl; [|done].
  destruct (unbind0 audio_segs) as [segs|]; simpl; [|done].
  rewrite (for_each_ext _ (λ audio_seg,
     y ← run_target sepB audio_seg item.1 item.2; setitem_value y (shape audio_seg))); [done|].
  intros seg. unfold Separator.run_target. by rewrite Hfb, Hcn.
Qed.

(** C3 -- Position [j] of the target axis of the output of [forward]
    holds the estimate of the [j]-th registered target, and [to_dict]
    without [aggregate_dict] returns a mapping with exactly [nb_targets]
    keys, the registered names, the [j]-th name being mapped to the slice
    [estimates[:, j, ...]]. *)
Theorem target_axis_follows_registry_order sep audio S C N out :
  shape audio = [S; C; N] →
  Separator.nb_channels sep = Z.of_nat C →
  (0 < Separator.seq_batch sep)%Z → (0 < Separator.chunk_size_samples sep)%Z →
  NoDup (names sep) →
  Separator.nb_targets sep = length (models sep) →
  forward sep audio = Ok out →
  (∀ j item, models sep !! j = Some item →
     ∃ w, target_estimate sep audio item = Ok w ∧
       ∀ s c t, s < S → c < C → t < N → get out [s; j; c; t] = get w [s; c; t]) ∧
  (∀ estimates a b s, shape estimates = a :: b :: s → Separator.nb_targets sep ≤ b →
     ∃ d, Separator.to_dict sep estimates None = Ok d ∧
       dom d = list_to_set (names sep) ∧
       size d = Separator.nb_targets sep ∧
       ∀ j name, names sep !! j = Some name →
         ∃ slice, select1 estimates j = Ok slice ∧ d !! name = Some slice ∧
           ∀ i idx, in_range (a :: s) (i :: idx) →
             get slice (i :: idx) = get estimates (i :: j :: idx)).
Proof.
  intros Hs HC Hsb Hcs Hnd HT Hout.
  set (sb := Z.to_nat (Separator.seq_batch sep)) in *.
  set (cs := Z.to_nat (Separator.chunk_size_samples sep)) in *.
  assert (Separator.seq_batch sep = Z.of_nat sb) as Hsb' by lia.
  assert (Separator.chunk_size_samples sep = Z.of_nat cs) as Hcs' by lia.
  split.
  - destruct (forward_inv phasemix_sep sep audio S C N sb cs out)
      as (ests & p & Hests & Hp & Hse & Hso & Hget); try done; try lia.
    destruct (forward_padded_inv phasemix_sep sep audio S C N sb cs ests)
      as (p' & Hp' & _ & Hslots); try done; try lia.
    rewrite Hp in Hp'. injection Hp' as Hpp. apply Nat2Z.inj in Hpp as <-.
    intros j item Hitem. destruct (Hslots _ _ Hitem) as (Hj & w & Hw & _ & Hgw).
    exists w. split; [done|]. intros s c t ? ? ?.
    rewrite Hget by done. apply Hgw; lia.
  - intros estimates a b s Hse Hb.
    assert (length (names sep) = Separator.nb_targets sep) as Hlen.
    { unfold Separator.keys. by rewrite length_fmap. }
    destruct (slices_spec estimates a b s (names sep) Hse ltac:(lia))
      as (d & Hd & Hdom & _ & Hval).
    exists d. unfold Separator.to_dict. rewrite Hd. simpl. split; [done|].
    split; [done|]. split.
    { rewrite <- size_dom, Hdom, size_list_to_set by done. done. }
    intros j name Hname. destruct (Hval Hnd _ _ Hname) as (slice & Hsel & Hdn).
    exists slice. split; [done|]. split; [done|].
    pose proof (lookup_lt_Some _ _ _ Hname) as Hj.
    destruct (select1_spec estimates a b s j Hse ltac:(lia)) as (slice' & Hsel' & _ & _ & Hg).
    rewrite Hsel in Hsel'. injection Hsel' as <-. done.
Qed.

(** C8 -- In one call of [forward] the slice of a target depends only
    on the input and on that target's own model and transforms: two
    separators that differ only at target [k] return the same slice for
    every other registered target.  The write of target [j] into the
    per-segment tensor changes slot [j] only. *)
Theorem targets_are_independent k sepA sepB audio S C N outA outB :
  Separator.differ_only_at k sepA sepB →
  shape audio = [S; C; N] →
  Separator.nb_channels sepA = Z.of_nat C →
  (0 < Separator.seq_batch sepA)%Z → (0 < Separator.chunk_size_samples sepA)%Z →
  forward sepA audio = Ok outA →
  forward sepB audio = Ok outB →
  (∀ j item, j ≠ k → models sepA !! j = Some item →
     ∃ slice, select1 outA j = Ok slice ∧ select1 outB j = Ok slice) ∧
  (∀ seg j item seg_estimates seg_estimates',
     shape seg_estimates = shape seg ++ [Separator.nb_targets sepA] → wf seg_estimates →
     Separator.separate_target phasemix_sep sepA seg j item seg_estimates = Ok seg_estimates' →
     ∀ idx j', in_range (shape seg) idx → j' < Separator.nb_targets sepA → j' ≠ j →
       get seg_estimates' (idx ++ [j']) = get seg_estimates (idx ++ [j'])).
Proof.
  intros Hdiff Hs HC Hsb Hcs HoutA HoutB.
  pose proof Hdiff as (Hcn & Hch & HT & Hcs_eq & Hsb_eq & Hitems).
  set (sb := Z.to_nat (Separator.seq_batch sepA)) in *.
  set (cs := Z.to_nat (Separator.chunk_size_samples sepA)) in *.
  assert (Separator.seq_batch sepA = Z.of_nat sb) as Hsb' by lia.
  assert (Separator.chunk_size_samples sepA = Z.of_nat cs) as Hcs' by lia.
  split.
  - destruct (forward_inv phasemix_sep sepA audio S C N sb cs outA)
      as (estsA & p & HestsA & Hp & _ & HsoA & HgetA); try done; try lia.
    destruct (forward_inv phasemix_sep sepB audio S C N sb cs outB)
      as (estsB & pB & HestsB & HpB & _ & HsoB & HgetB); try done; try lia; try congruence.
    destruct (forward_padded_inv phasemix_sep sepA audio S C N sb cs estsA)
      as (p' & Hp' & _ & HslotsA); try done; try lia.
    rewrite Hp in Hp'. injection Hp' as Hpp. apply Nat2Z.inj in Hpp as <-.
    destruct (forward_padded_inv phasemix_sep sepB audio S C N sb cs estsB)
      as (pB' & HpB' & _ & HslotsB); try done; try lia; try congruence.
    rewrite HpB in HpB'. injection HpB' as Hpp. apply Nat2Z.inj in Hpp as <-.
    intros j item Hj Hitem.
    destruct (HslotsA _ _ Hitem) as (HjT & wA & HwA & _ & HgA).
    destruct (Hitems _ _ Hj Hitem) as [HitemB _].
    destruct (HslotsB _ _ HitemB) as (_ & wB & HwB & _ & HgB).
    rewrite (target_estimate_ext k sepA sepB audio j item Hdiff Hj Hitem) in HwA.
    rewrite HwA in HwB. injection HwB as <-.
    destruct (select1_spec outA S (Separator.nb_targets sepA) [C; N] j HsoA HjT)
      as (slice & Hsel & _).
    exists slice. split; [done|]. rewrite <- Hsel. symmetry.
    rewrite <- HT in *.
    apply (select1_ext outA outB S (Separator.nb_targets sepA) [C; N] j); try done.
    intros s [|c [|t [|??]]]; simpl; try tauto. intros ? (? & ? & _).
    rewrite HgetA, HgetB by done. rewrite HgA, HgB by lia. done.
  - intros seg j item e e' Hse Hwf Hrun idx j' Hr Hj' Hne.
    unfold Separator.separate_target in Hrun. apply bind_Ok in Hrun as (y & _ & Hset).
    destruct (setitem_last_spec _ _ _ _ _ _ Hse Hwf Hset) as (_ & _ & _ & y' & _ & Hg).
    rewrite Hg by done. by rewrite decide_False.
Qed.

End separator_claims.

(** ** OpenUnmix.forward *)

Section openunmix_facts.
Context {R : Type} `{Scalar R}.
Context (torch_kernel : NN.Module R → Tensor R → nat → R).
Context (torch_init : NN.Kind → list (string * Tensor R)).

Lemma broadcast_shapes_vector a b c d :
  broadcast_shapes [a; b; c; d] [d] = Ok [a; b; c; d].
Proof.
  unfold broadcast_shapes. rewrite !reverse_cons, reverse_nil. simpl.
  rewrite decide_True by done. simpl. by rewrite !reverse_cons, reverse_nil.
Qed.

Lemma lookup_total_zip_with (op : R → R → R) l1 l2 i :
  i < length l1 → i < length l2 →
  zip_with op l1 l2 !!! i = op (l1 !!! i) (l2 !!! i).
Proof.
  intros H1 H2. apply list_lookup_total_correct.
  rewrite lookup_zip_with, (list_lookup_lookup_total_lt l1), (list_lookup_lookup_total_lt l2) by done.
  done.
Qed.

Lemma get_pointwise (op : R → R → R) (a b r : Tensor R) idx :
  pointwise op a b = Ok r → in_range (shape r) idx →
  get r idx = op (data a !!! expand_index (shape a) (shape r) (ravel (shape r) idx))
                 (data b !!! expand_index (shape b) (shape r) (ravel (shape r) idx)).
Proof.
  unfold pointwise. intros Hr Hidx. apply bind_Ok in Hr as (s & Hs & [= <-]).
  simpl in *. pose proof (ravel_lt _ _ Hidx).
  unfold get. simpl. unfold expand_data.
  rewrite lookup_total_zip_with by (by rewrite length_tabulate).
  by rewrite !lookup_total_tabulate.
Qed.

Lemma expand_index_vector a b c d i j k l :
  i < a → j < b → k < c → l < d →
  expand_index [d] [a; b; c; d] (ravel [a; b; c; d] [i; j; k; l]) = l.
Proof.
  intros. unfold expand_index. rewrite unravel_ravel by (simpl; tauto). simpl.
  case_decide; lia.
Qed.

Lemma expand_index_ravel s idx :
  in_range s idx → expand_index s s (ravel s idx) = ravel s idx.
Proof. intros. apply expand_index_same. by apply ravel_lt. Qed.

Lemma narrow_first_vector (v : Tensor R) n k :
  shape v = [n] → k ≤ n →
  narrow_first v k = Ok (mkTensor [k] (take k (data v))).
Proof.
  intros Hs Hk. unfold narrow_first. rewrite Hs. rewrite Nat.min_l by done.
  simpl. by rewrite Nat.mul_1_r.
Qed.

(** The normalization stage. *)
Lemma normalize_spec (net : OpenUnmix.t R) (x : Tensor R) S C F T M nm ns :
  shape x = [S; C; F; T; M] →
  OpenUnmix.nb_bins net = F →
  shape (NN.value (OpenUnmix.input_mean net)) = [nm] → F ≤ nm →
  shape (NN.value (OpenUnmix.input_scale net)) = [ns] → F ≤ ns →
  0 < S * C * F →
  ∃ y, OpenUnmix.normalize net x = Ok y ∧ shape y = [T * M; S; C; F] ∧
    ∀ t m s c f, t < T → m < M → s < S → c < C → f < F →
      get y [t * M + m; s; c; f]
      = mul (add (get x [s; c; f; t; m])
                 (take F (data (NN.value (OpenUnmix.input_mean net))) !!! f))
            (take F (data (NN.value (OpenUnmix.input_scale net))) !!! f).
Proof.
  intros Hs HF Hm Hnm Hsc Hns Hpos. unfold OpenUnmix.normalize. rewrite Hs, HF.
  unfold reshape at 1. rewrite Hs.
  assert (infer_size [Z.of_nat S; Z.of_nat C; Z.of_nat F; -1]%Z (numel [S; C; F; T; M])
          = Ok [S; C; F; T * M]) as ->.
  { apply (infer_size_last [Z.of_nat S; Z.of_nat C; Z.of_nat F]).
    split; [repeat constructor; lia|]. cbn [fmap list_fmap numel foldr app].
    rewrite !Nat2Z.id.
    replace (S * (C * (F * (T * (M * 1))))) with ((T * M) * (S * (C * (F * 1)))) by lia.
    split; [lia|]. split; [apply Nat.Div0.mod_mul|].
    rewrite Nat.div_mul; [done|lia]. }
  cbn [mbind result_bind].
  destruct (permute_3012_spec (mkTensor [S; C; F; T * M] (data x)) S C F (T * M) eq_refl)
    as (x1 & -> & Hs1 & _ & Hg1).
  cbn [mbind result_bind].
  rewrite (narrow_first_vector _ nm F Hm Hnm). cbn [mbind result_bind].
  destruct (tensor_add x1 _) as [x2|] eqn:Hx2.
  2:{ unfold tensor_add, pointwise in Hx2. by rewrite Hs1, broadcast_shapes_vector in Hx2. }
  cbn [mbind result_bind].
  rewrite (narrow_first_vector _ ns F Hsc Hns). cbn [mbind result_bind].
  assert (shape x2 = [T * M; S; C; F]) as Hs2.
  { unfold tensor_add, pointwise in Hx2. rewrite Hs1, broadcast_shapes_vector in Hx2.
    by injection Hx2 as <-. }
  destruct (tensor_mul x2 _) as [x3|] eqn:Hx3.
  2:{ unfold tensor_mul, pointwise in Hx3. by rewrite Hs2, broadcast_shapes_vector in Hx3. }
  assert (shape x3 = [T * M; S; C; F]) as Hs3.
  { unfold tensor_mul, pointwise in Hx3. rewrite Hs2, broadcast_shapes_vector in Hx3.
    by injection Hx3 as <-. }
  exists x3. split; [done|]. split; [done|].
  intros t m s c f ? ? ? ? ?.
  assert (t * M + m < T * M) by nia.
  assert (in_range [T * M; S; C; F] [t * M + m; s; c; f]) as Hr by (simpl; tauto).
  rewrite (get_pointwise mul x2 _ x3 _ Hx3) by (by rewrite Hs3).
  rewrite Hs3, Hs2. cbn [shape data].
  rewrite expand_index_ravel, expand_index_vector by done.
  f_equal. change (data x2 !!! ravel [T * M; S; C; F] [t * M + m; s; c; f])
    with (data x2 !!! ravel [T * M; S; C; F] [t * M + m; s; c; f]).
  rewrite <- Hs2 at 1. fold (get x2 [t * M + m; s; c; f]).
  rewrite (get_pointwise add x1 _ x2 _ Hx2) by (by rewrite Hs2).
  rewrite Hs2, Hs1. cbn [shape data].
  rewrite expand_index_ravel, expand_index_vector by done.
  f_equal. rewrite <- Hs1 at 1. fold (get x1 [t * M + m; s; c; f]).
  rewrite Hg1 by done. unfold get. rewrite Hs. simpl. f_equal. lia.
Qed.

Abbreviation call_layer := (OpenUnmix.call_layer torch_kernel).
Abbreviation sequential := (OpenUnmix.sequential torch_kernel).
Abbreviation decoder_output := (OpenUnmix.decoder_output torch_kernel).
Abbreviation forward := (OpenUnmix.forward torch_kernel).

Abbreviation layer_output := (OpenUnmix.layer_output torch_kernel).

Lemma call_Conv3d (l : NN.Module R) x cin cout kd kh kw sw n d h w :
  NN.kind l = NN.Conv3d cin cout (kd, kh, kw) (1, 1, sw) →
  shape x = [n; cin; d; h; w] → 0 < sw → kd ≤ d → kh ≤ h → kw ≤ w →
  ∃ y, call_layer l x = Ok y ∧
       shape y = [n; cout; d - kd + 1; h - kh + 1; (w - kw) / sw + 1].
Proof.
  intros Hk Hs ? ? ? ?. unfold OpenUnmix.call_layer, OpenUnmix.out_shape, OpenUnmix.conv_out.
  rewrite Hk, Hs. rewrite decide_True by done.
  rewrite !(decide_False (P := 1 = 0)) by done. rewrite (decide_False (P := sw = 0)) by lia.
  rewrite !decide_False by lia. cbn [mbind result_bind]. rewrite !Nat.div_1_r.
  by eexists.
Qed.

Lemma call_ConvTranspose3d (l : NN.Module R) x cin cout kd kh kw sw pw n d h w :
  NN.kind l = NN.ConvTranspose3d cin cout (kd, kh, kw) (1, 1, sw) (0, 0, pw) →
  shape x = [n; cin; d; h; w] →
  pw < sw → 0 < d → 0 < h → 0 < w → 0 < kd → 0 < kh → 0 < kw →
  ∃ y, call_layer l x = Ok y ∧
       shape y = [n; cout; d + kd - 1; h + kh - 1; (w - 1) * sw + (kw - 1) + pw + 1].
Proof.
  intros Hk Hs ? ? ? ? ? ? ?.
  unfold OpenUnmix.call_layer, OpenUnmix.out_shape, OpenUnmix.conv_transpose_out.
  rewrite Hk, Hs. rewrite decide_True by done.
  rewrite !(decide_False (P := 1 = 0)) by done. rewrite (decide_False (P := sw = 0)) by lia.
  rewrite !(decide_False (P := _ ∧ _)) by lia. rewrite !(decide_False (P := _ ∨ _)) by lia.
  cbn [mbind result_bind]. eexists. split; [done|]. cbn [shape OpenUnmix.layer_output].
  rewrite !Nat.mul_1_r.
  by replace (d - 1 + (kd - 1) + 0 + 1) with (d + kd - 1) by lia;
     replace (h - 1 + (kh - 1) + 0 + 1) with (h + kh - 1) by lia.
Qed.

Lemma call_ReLU (l : NN.Module R) x :
  NN.kind l = NN.ReLU → call_layer l x = Ok (layer_output l x (shape x)).
Proof. intros Hk. unfold OpenUnmix.call_layer, OpenUnmix.out_shape. by rewrite Hk. Qed.

Lemma call_BatchNorm3d (l : NN.Module R) x c n d h w :
  NN.kind l = NN.BatchNorm3d c → shape x = [n; c; d; h; w] → 1 < n * (d * (h * w)) →
  ∃ y, call_layer l x = Ok y ∧ shape y = [n; c; d; h; w].
Proof.
  intros Hk Hs ?. unfold OpenUnmix.call_layer, OpenUnmix.out_shape. rewrite Hk, Hs.
  rewrite decide_False by lia. rewrite decide_True by done. by eexists.
Qed.

Lemma more_than_one_value a b c d :
  0 < a → 2 ≤ b → 0 < c → 0 < d → 1 < a * (b * (c * d)).
Proof. intros. assert (0 < c * d) by nia. nia. Qed.

Lemma width_arith M :
  105 ≤ M →
  let W1 := (M - 42) / 3 + 1 in
  let W2 := ((M - 42) / 3 - 21) / 3 + 1 in
  22 ≤ W1 ∧ (W1 - 22) / 3 + 1 = W2 ∧ 1 ≤ W2 ∧
  (9 * W2 + 104 = M ↔ M mod 9 = 5).
Proof.
  intros HM W1 W2. unfold W1, W2.
  pose proof (Nat.div_mod_eq (M - 42) 3). pose proof (Nat.mod_upper_bound (M - 42) 3 ltac:(lia)).
  pose proof (Nat.div_mod_eq ((M - 42) / 3 - 21) 3).
  pose proof (Nat.mod_upper_bound ((M - 42) / 3 - 21) 3 ltac:(lia)).
  pose proof (Nat.div_mod_eq M 9). pose proof (Nat.mod_upper_bound M 9 ltac:(lia)).
  replace ((M - 42) / 3 + 1 - 22) with ((M - 42) / 3 - 21) by lia.
  repeat split; lia.
Qed.

Lemma decoder_output_spec (net : OpenUnmix.t R) (x : Tensor R) S C F T M nm ns :
  shape x = [S; C; F; T; M] →
  OpenUnmix.has_architecture C net →
  OpenUnmix.nb_bins net = F →
  shape (NN.value (OpenUnmix.input_mean net)) = [nm] → F ≤ nm →
  shape (NN.value (OpenUnmix.input_scale net)) = [ns] → F ≤ ns →
  0 < S → 0 < C → 9 ≤ T → 21 ≤ F → 105 ≤ M →
  let W2 := ((M - 42) / 3 - 21) / 3 + 1 in
  1 < S * (T - 8) * (F - 20) * W2 →
  ∃ last before,
    List.last (NN.children (OpenUnmix.decoder net)).*2 last = last ∧
    NN.kind last = NN.ReLU ∧
    decoder_output net x = Ok (layer_output last before [S; C; T; F; 9 * W2 + 104]).
Proof.
  intros Hs [Henc Hdec] HF Hm Hnm Hsc Hns ? ? ? ? ? W2 Hbn.
  destruct (width_arith M ltac:(done)) as (HW1 & HW2 & HW2pos & _). fold W2 in HW2, HW2pos.
  set (W1 := (M - 42) / 3 + 1) in *.
  destruct (normalize_spec net x S C F T M nm ns) as (x0 & Hx0 & Hs0 & _); try done; try nia.
  unfold OpenUnmix.decoder_output. rewrite Hs, Hx0. cbn [mbind result_bind].
  unfold reshape. rewrite Hs0.
  rewrite infer_size_known by (repeat constructor; lia).
  cbn [fmap list_fmap]. rewrite !Nat2Z.id.
  rewrite decide_True by (simpl; lia). cbn [mbind result_bind].
  unfold OpenUnmix.sequential.
  apply Forall2_cons_inv_r in Henc as ([n0 e0] & enc0 & He0 & Henc & ->).
  apply Forall2_cons_inv_r in Henc as ([n1 e1] & enc1 & He1 & Henc & ->).
  apply Forall2_cons_inv_r in Henc as ([n2 e2] & enc2 & He2 & Henc & ->).
  apply Forall2_cons_inv_r in Henc as ([n3 e3] & enc3 & He3 & Henc & ->).
  apply Forall2_cons_inv_r in Henc as ([n4 e4] & enc4 & He4 & Henc & ->).
  apply Forall2_cons_inv_r in Henc as ([n5 e5] & enc5 & He5 & Henc & ->).
  apply Forall2_nil_inv_r in Henc as ->.
  apply Forall2_cons_inv_r in Hdec as ([m0 d0] & dec0 & Hd0 & Hdec & ->).
  apply Forall2_cons_inv_r in Hdec as ([m1 d1] & dec1 & Hd1 & Hdec & ->).
  apply Forall2_cons_inv_r in Hdec as ([m2 d2] & dec2 & Hd2 & Hdec & ->).
  apply Forall2_cons_inv_r in Hdec as ([m3 d3] & dec3 & Hd3 & Hdec & ->).
  apply Forall2_cons_inv_r in Hdec as ([m4 d4] & dec4 & Hd4 & Hdec & ->).
  apply Forall2_nil_inv_r in Hdec as ->.
  simpl in He0, He1, He2, He3, He4, He5, Hd0, Hd1, Hd2, Hd3, Hd4.
  cbn [for_enumerate snd].
  destruct (call_Conv3d e0 (mkTensor [S; C; T; F; M] (data x0)) C 25 5 11 42 3 S T F M He0 eq_refl)
    as (y0 & -> & Hy0); try lia.
  cbn [mbind result_bind]. rewrite (call_ReLU e1 _ He1). cbn [mbind result_bind].
  destruct (call_BatchNorm3d e2 (layer_output e1 y0 (shape y0)) 25 S _ _ _ He2 Hy0)
    as (y2 & -> & Hy2); [apply more_than_one_value; lia|].
  cbn [mbind result_bind]. fold W1 in Hy2.
  destruct (call_Conv3d e3 y2 25 55 5 11 22 3 S _ _ _ He3 Hy2) as (y3 & -> & Hy3); try lia.
  cbn [mbind result_bind]. rewrite (call_ReLU e4 _ He4). cbn [mbind result_bind].
  rewrite HW2 in Hy3.
  destruct (call_BatchNorm3d e5 (layer_output e4 y3 (shape y3)) 55 S _ _ _ He5 Hy3)
    as (y5 & -> & Hy5).
  { replace (T - 5 + 1 - 5 + 1) with (T - 8) by lia.
    replace (F - 11 + 1 - 11 + 1) with (F - 20) by lia. nia. }
  cbn [mbind result_bind].
  destruct (call_ConvTranspose3d d0 y5 55 25 5 11 22 3 2 S _ _ _ Hd0 Hy5)
    as (z0 & -> & Hz0); try lia.
  cbn [mbind result_bind]. rewrite (call_ReLU d1 _ Hd1). cbn [mbind result_bind].
  destruct (call_BatchNorm3d d2 (layer_output d1 z0 (shape z0)) 25 S _ _ _ Hd2 Hz0)
    as (z2 & -> & Hz2); [apply more_than_one_value; lia|].
  cbn [mbind result_bind].
  destruct (call_ConvTranspose3d d3 z2 25 C 5 11 42 3 2 S _ _ _ Hd3 Hz2)
    as (z3 & -> & Hz3); try lia.
  cbn [mbind result_bind]. rewrite (call_ReLU d4 _ Hd4). cbn [mbind result_bind].
  exists d4, z3. split; [done|]. split; [done|]. rewrite Hz3.
  do 2 f_equal. repeat (f_equal; try lia).
Qed.

(** [forward] as the layers applied to the normalized input. *)
Lemma decoder_output_unfold (net : OpenUnmix.t R) x :
  decoder_output net x
  = (e ← OpenUnmix.encoder_input net x;
     e ← sequential (OpenUnmix.encoder net) e;
     sequential (OpenUnmix.decoder net) e).
Proof.
  unfold OpenUnmix.decoder_output, OpenUnmix.encoder_input.
  destruct (shape x) as [|? [|? [|? [|? [|? [|]]]]]]; try reflexivity.
  destruct (OpenUnmix.normalize net x) as [x0|]; [|reflexivity]. cbn [mbind result_bind].
  destruct (reshape x0 _) as [x1|]; [|reflexivity]. cbn [mbind result_bind].
  destruct (sequential (OpenUnmix.encoder net) x1) as [x2|]; [|reflexivity].
  cbn [mbind result_bind]. by destruct (sequential (OpenUnmix.decoder net) x2).
Qed.

Lemma encoder_input_Ok (net : OpenUnmix.t R) (x : Tensor R) S C F T M nm ns :
  shape x = [S; C; F; T; M] →
  OpenUnmix.nb_bins net = F →
  shape (NN.value (OpenUnmix.input_mean net)) = [nm] → F ≤ nm →
  shape (NN.value (OpenUnmix.input_scale net)) = [ns] → F ≤ ns →
  0 < S * C * F →
  ∃ y, OpenUnmix.normalize net x = Ok y ∧ shape y = [T * M; S; C; F] ∧
    OpenUnmix.encoder_input net x = Ok (mkTensor [S; C; T; F; M] (data y)).
Proof.
  intros Hs HF Hm Hnm Hsc Hns Hpos.
  destruct (normalize_spec net x S C F T M nm ns) as (y & Hy & Hsy & _); try done.
  exists y. split; [done|]. split; [done|].
  unfold OpenUnmix.encoder_input. rewrite Hs, Hy. cbn [mbind result_bind].
  unfold reshape. rewrite Hsy.
  rewrite infer_size_known by (repeat constructor; lia).
  cbn [fmap list_fmap]. rewrite !Nat2Z.id.
  by rewrite decide_True by (simpl; lia).
Qed.

End openunmix_facts.

(** ** Claims on the masking network *)

Section openunmix_claims.
Context {R : Type} `{Scalar R}.
Context (torch_kernel : NN.Module R → Tensor R → nat → R).
Context (torch_init : NN.Kind → list (string * Tensor R)).

Abbreviation decoder_output := (OpenUnmix.decoder_output torch_kernel).
Abbreviation forward := (OpenUnmix.forward torch_kernel).
Abbreviation layer_output := (OpenUnmix.layer_output torch_kernel).

Lemma init_has_architecture nb_bins M nb_channels input_mean input_scale :
  OpenUnmix.has_architecture nb_channels
    (OpenUnmix.__init__ torch_init nb_bins M nb_channels input_mean input_scale).
Proof. split; repeat constructor. Qed.

Lemma freeze_has_architecture nb_channels (net : OpenUnmix.t R) :
  OpenUnmix.has_architecture nb_channels net →
  OpenUnmix.has_architecture nb_channels (OpenUnmix.freeze net).
Proof.
  assert (∀ (m : NN.Module R) ks,
    Forall2 (λ l k, NN.kind l.2 = k) (NN.children m) ks →
    Forall2 (λ l k, NN.kind l.2 = k)
      (NN.children (NN.eval (NN.for_parameters (λ p, NN.mkParam (NN.value p) false) m))) ks)
    as Hkeep.
  { intros [k t ps cs] ks. simpl. rewrite <- list_fmap_compose.
    intros Hall. apply Forall2_fmap_l. eapply Forall2_impl; [exact Hall|].
    intros [n [k' t' ps' cs']] k0. done. }
  intros [Henc Hdec]. split; simpl; by apply Hkeep.
Qed.

Lemma forward_spec (net : OpenUnmix.t R) (x : Tensor R) S C F T M nm ns :
  shape x = [S; C; F; T; M] →
  OpenUnmix.has_architecture C net →
  OpenUnmix.nb_bins net = F →
  shape (NN.value (OpenUnmix.input_mean net)) = [nm] → F ≤ nm →
  shape (NN.value (OpenUnmix.input_scale net)) = [ns] → F ≤ ns →
  0 < S → 0 < C → 9 ≤ T → 21 ≤ F → 105 ≤ M →
  1 < S * (T - 8) * (F - 20) * (((M - 42) / 3 - 21) / 3 + 1) →
  ∃ y, forward net x = Ok y ∧
    shape y = [S; C; F; T; 9 * (((M - 42) / 3 - 21) / 3 + 1) + 104].
Proof.
  intros Hs Harch HF Hm Hnm Hsc Hns ? ? ? ? ? Hbn.
  destruct (decoder_output_spec torch_kernel net x S C F T M nm ns)
    as (last & before & _ & _ & Hdec); try done.
  unfold OpenUnmix.forward. rewrite Hdec. cbn [mbind result_bind].
  match goal with |- context [permute ?d _] =>
    destruct (permute_01324_spec d S C T F (9 * (((M - 42) / 3 - 21) / 3 + 1) + 104) eq_refl)
      as (y & -> & Hsy & _)
  end.
  cbn [mbind result_bind]. by exists y.
Qed.

(** C5 (amended) -- For an input of shape (S, C, F, T, M) the network
    accepts, [forward] returns a tensor of shape (S, C, F, T, M') with
    M' = 9 * (((M - 42) / 3 - 21) / 3 + 1) + 104: samples, channels, bins
    and frames are restored, and the last dimension is restored exactly
    when M mod 9 = 5. *)
Theorem forward_output_shape (net : OpenUnmix.t R) (x : Tensor R) S C F T M nm ns :
  shape x = [S; C; F; T; M] →
  OpenUnmix.has_architecture C net →
  OpenUnmix.nb_bins net = F →
  shape (NN.value (OpenUnmix.input_mean net)) = [nm] → F ≤ nm →
  shape (NN.value (OpenUnmix.input_scale net)) = [ns] → F ≤ ns →
  0 < S → 0 < C → 9 ≤ T → 21 ≤ F → 105 ≤ M →
  1 < S * (T - 8) * (F - 20) * (((M - 42) / 3 - 21) / 3 + 1) →
  ∃ y, forward net x = Ok y ∧
    shape y = [S; C; F; T; 9 * (((M - 42) / 3 - 21) / 3 + 1) + 104] ∧
    (shape y = shape x ↔ M mod 9 = 5).
Proof.
  intros Hs Harch HF Hm Hnm Hsc Hns ? ? ? ? ? Hbn.
  destruct (forward_spec net x S C F T M nm ns) as (y & Hy & Hsy); try done.
  exists y. split; [done|]. split; [done|].
  rewrite Hsy, Hs. destruct (width_arith M ltac:(done)) as (_ & _ & _ & Hiff).
  split.
  - intros Heq. apply Hiff. congruence.
  - intros Hmod. apply Hiff in Hmod. by rewrite Hmod.
Qed.

(** C6 -- The tensor [forward] returns is the output of the last decoder
    layer with the frame and bin axes exchanged: its element at
    (s, c, f, t, m) is the element at (s, c, t, f, m) of what that layer, a
    rectifier, computes.  Nothing is multiplied into it. *)
Theorem forward_returns_decoder_output (net : OpenUnmix.t R) (x : Tensor R) S C F T M nm ns :
  shape x = [S; C; F; T; M] →
  OpenUnmix.has_architecture C net →
  OpenUnmix.nb_bins net = F →
  shape (NN.value (OpenUnmix.input_mean net)) = [nm] → F ≤ nm →
  shape (NN.value (OpenUnmix.input_scale net)) = [ns] → F ≤ ns →
  0 < S → 0 < C → 9 ≤ T → 21 ≤ F → 105 ≤ M →
  1 < S * (T - 8) * (F - 20) * (((M - 42) / 3 - 21) / 3 + 1) →
  let M' := 9 * (((M - 42) / 3 - 21) / 3 + 1) + 104 in
  ∃ last before dec y,
    List.last (NN.children (OpenUnmix.decoder net)).*2 last = last ∧
    NN.kind last = NN.ReLU ∧
    dec = layer_output last before [S; C; T; F; M'] ∧
    decoder_output net x = Ok dec ∧
    forward net x = Ok y ∧
    shape y = [S; C; F; T; M'] ∧
    ∀ s c f t m, s < S → c < C → f < F → t < T → m < M' →
      get y [s; c; f; t; m] = get dec [s; c; t; f; m] ∧
      get y [s; c; f; t; m]
      = torch_kernel last before (ravel [S; C; T; F; M'] [s; c; t; f; m]).
Proof.
  intros Hs Harch HF Hm Hnm Hsc Hns ? ? ? ? ? Hbn M'.
  destruct (decoder_output_spec torch_kernel net x S C F T M nm ns)
    as (last & before & Hlast & Hrelu & Hdec); try done. fold M' in Hdec.
  exists last, before, (layer_output last before [S; C; T; F; M']).
  destruct (permute_01324_spec (layer_output last before [S; C; T; F; M']) S C T F M' eq_refl)
    as (y & Hy & Hsy & _ & Hget).
  exists y. split; [done|]. split; [done|]. split; [done|]. split; [done|].
  split; [unfold OpenUnmix.forward; rewrite Hdec; cbn [mbind result_bind]; by rewrite Hy|].
  split; [done|]. intros s c f t m ? ? ? ? ?. rewrite Hget by done. split; [done|].
  apply get_tabulate. simpl. tauto.
Qed.


(** C7 -- A network constructed with statistics [m] and [s] stores [-m]
    and [1/s]; with the statistics omitted it stores zeros and ones.  The
    forward pass feeds the encoder the normalized tensor and nothing else:
    the value [v] of bin [i] has become
    [(v + stored_mean[i]) * stored_scale[i]], that is
    [(v + (-m[i])) * (1/s[i])], reading only the first [nb_bins] entries of
    the stored vectors.  In every arithmetic with the laws of the exact
    one this is [(v - m[i]) / s[i]], and [v] itself when the statistics were
    omitted; in floating point it is so up to the rounding of [1/s[i]]. *)
Theorem normalization_is_standardization nb_bins M0 nb_channels
    (input_mean input_scale : option (Tensor R)) (x : Tensor R) S C T M :
  let net := OpenUnmix.__init__ torch_init nb_bins M0 nb_channels input_mean input_scale in
  let stored_mean := NN.value (OpenUnmix.input_mean net) in
  let stored_scale := NN.value (OpenUnmix.input_scale net) in
  shape x = [S; C; nb_bins; T; M] → 0 < S * C * nb_bins →
  (∀ m, input_mean = Some m → wf m ∧ ∃ n, shape m = [n] ∧ nb_bins ≤ n) →
  (∀ s, input_scale = Some s → wf s ∧ ∃ n, shape s = [n] ∧ nb_bins ≤ n) →
  stored_mean = match input_mean with Some m => tensor_neg m | None => zeros [nb_bins] end ∧
  stored_scale = match input_scale with Some s => tensor_recip s | None => ones [nb_bins] end ∧
  ∃ y e, OpenUnmix.normalize net x = Ok y ∧ shape y = [T * M; S; C; nb_bins] ∧
    OpenUnmix.encoder_input net x = Ok e ∧
    shape e = [S; C; T; nb_bins; M] ∧ data e = data y ∧
    forward net x
    = (h ← OpenUnmix.sequential torch_kernel (OpenUnmix.encoder net) e;
       h ← OpenUnmix.sequential torch_kernel (OpenUnmix.decoder net) h;
       permute h [0; 1; 3; 2; 4]) ∧
    ∀ t m s c i, t < T → m < M → s < S → c < C → i < nb_bins →
      let v := get x [s; c; i; t; m] in
      get y [t * M + m; s; c; i]
      = mul (add v (take nb_bins (data stored_mean) !!! i))
            (take nb_bins (data stored_scale) !!! i) ∧
      (∀ mean scale, input_mean = Some mean → input_scale = Some scale →
         take nb_bins (data stored_mean) !!! i = neg (data mean !!! i) ∧
         take nb_bins (data stored_scale) !!! i = recip (data scale !!! i) ∧
         get y [t * M + m; s; c; i]
         = mul (add v (neg (data mean !!! i))) (recip (data scale !!! i)) ∧
         ∀ sub div : R → R → R, ExactArithmetic R sub div →
           get y [t * M + m; s; c; i] = div (sub v (data mean !!! i)) (data scale !!! i)) ∧
      (input_mean = None → input_scale = None →
         get y [t * M + m; s; c; i] = mul (add v zero) one ∧
         ∀ sub div : R → R → R, ExactArithmetic R sub div →
           get y [t * M + m; s; c; i] = v).
Proof.
  intros net stored_mean stored_scale Hs Hpos Hmean Hscale.
  split; [done|]. split; [done|].
  assert (∃ nm, shape stored_mean = [nm] ∧ nb_bins ≤ nm) as (nm & Hnm & ?).
  { unfold stored_mean. simpl. destruct input_mean as [m|]; [|by exists nb_bins].
    destruct (Hmean m eq_refl) as (_ & n & ? & ?). by exists n. }
  assert (∃ ns, shape stored_scale = [ns] ∧ nb_bins ≤ ns) as (ns & Hns & ?).
  { unfold stored_scale. simpl. destruct input_scale as [s|]; [|by exists nb_bins].
    destruct (Hscale s eq_refl) as (_ & n & ? & ?). by exists n. }
  destruct (normalize_spec net x S C nb_bins T M nm ns) as (y & Hy & Hsy & Hget); try done.
  destruct (encoder_input_Ok net x S C nb_bins T M nm ns) as (y' & Hy' & _ & He); try done.
  assert (y' = y) as -> by congruence.
  exists y, (mkTensor [S; C; T; nb_bins; M] (data y)).
  split; [done|]. split; [done|]. split; [done|]. split; [done|]. split; [done|].
  split.
  { unfold OpenUnmix.forward. rewrite (decoder_output_unfold torch_kernel), He.
    cbn [mbind result_bind].
    destruct (OpenUnmix.sequential torch_kernel (OpenUnmix.encoder net) _) as [h|]; [|done].
    cbn [mbind result_bind].
    destruct (OpenUnmix.sequential torch_kernel (OpenUnmix.decoder net) h) as [h'|]; [|done].
    cbn [mbind result_bind]. by destruct (permute h' _). }
  intros t m s c i ? ? ? ? ? v.
  specialize (Hget t m s c i ltac:(done) ltac:(done) ltac:(done) ltac:(done) ltac:(done)).
  fold v stored_mean stored_scale in Hget. split; [done|]. split.
  - intros mean scale -> ->.
    destruct (Hmean mean eq_refl) as (Hwfm & n1 & Hsm & ?).
    destruct (Hscale scale eq_refl) as (Hwfs & n2 & Hss & ?).
    unfold wf in Hwfm, Hwfs. rewrite Hsm in Hwfm. rewrite Hss in Hwfs. simpl in Hwfm, Hwfs.
    assert (take nb_bins (data stored_mean) !!! i = neg (data mean !!! i)) as Hm.
    { rewrite lookup_total_take_lt by done. unfold stored_mean. simpl.
      apply list_lookup_total_correct.
      rewrite list_lookup_fmap, (list_lookup_lookup_total_lt (data mean)) by lia. done. }
    assert (take nb_bins (data stored_scale) !!! i = recip (data scale !!! i)) as Hsc.
    { rewrite lookup_total_take_lt by done. unfold stored_scale. simpl.
      apply list_lookup_total_correct.
      rewrite list_lookup_fmap, (list_lookup_lookup_total_lt (data scale)) by lia. done. }
    split; [done|]. split; [done|]. split; [by rewrite Hget, Hm, Hsc|].
    intros sub div Hexact.
    by rewrite Hget, Hm, Hsc, (@div_def R _ sub div Hexact), (@sub_def R _ sub div Hexact).
  - intros -> ->.
    assert (get y [t * M + m; s; c; i] = mul (add v zero) one) as Hdef.
    { rewrite Hget, !lookup_total_take_lt by done.
      unfold stored_mean, stored_scale. simpl.
      by rewrite !lookup_total_replicate_2 by lia. }
    split; [done|]. intros sub div Hexact.
    by rewrite Hdef, (@add_zero_r R _ sub div Hexact), (@mul_one_r R _ sub div Hexact).
Qed.

End openunmix_claims.

(** * Further properties

    Error and edge behaviour, invariants and compositions that the code
    shows beyond the claims above. *)

(** ** Tensor operations *)

Section more_tensor_facts.
Context {R : Type} `{Scalar R}.

Lemma infer_size_Raise spec n e : infer_size spec n = Raise e → e = RuntimeError.
Proof.
  unfold infer_size. case_decide; [congruence|].
  destruct (length spec - _) as [|[|k]]; [| |congruence]; case_decide; congruence.
Qed.

Lemma reshape_Raise (t : Tensor R) spec e : reshape t spec = Raise e → e = RuntimeError.
Proof.
  unfold reshape. destruct (infer_size spec _) eqn:Hs; [done|].
  apply infer_size_Raise in Hs as ->. simpl. congruence.
Qed.

Lemma broadcast_shapes_vector_cases a b c d k :
  broadcast_shapes [a; b; c; d] [k]
  = if decide (d = k) then Ok [a; b; c; d]
    else if decide (d = 1) then Ok [a; b; c; k]
    else if decide (k = 1) then Ok [a; b; c; d]
    else Raise RuntimeError.
Proof.
  unfold broadcast_shapes. rewrite !reverse_cons, reverse_nil. simpl.
  repeat case_decide; simpl; by rewrite ?reverse_cons, ?reverse_nil.
Qed.

Lemma reshape_inv (t t' : Tensor R) spec :
  reshape t spec = Ok t' →
  infer_size spec (numel (shape t)) = Ok (shape t') ∧ data t' = data t.
Proof. unfold reshape. intros Ht. inv_ok. by subst. Qed.

Lemma permute_01324_inv (t t' : Tensor R) a b c d e :
  shape t = [a; b; c; d; e] → permute t [0; 1; 3; 2; 4] = Ok t' →
  shape t' = [a; b; d; c; e].
Proof.
  intros Hs Ht. destruct (permute_01324_spec t a b c d e Hs) as (t0 & Ht0 & Hs0 & _).
  congruence.
Qed.

Lemma length_drop_ones s : length (drop_ones s) ≤ length s.
Proof. induction s as [|d s IH]; simpl; [done|]. case_decide; simpl; lia. Qed.

Lemma expand_index_drop_ones s i : i < numel s → expand_index (drop_ones s) s i = i.
Proof.
  revert i. induction s as [|d s IH]; intros i Hi; [by apply expand_index_same|].
  cbn [drop_ones]. case_decide as Hd; [|by apply expand_index_same].
  subst d. simpl in Hi. rewrite Nat.add_0_r in Hi.
  unfold expand_index. cbn [unravel length].
  pose proof (length_drop_ones s).
  replace (S (length s) - length (drop_ones s)) with (S (length s - length (drop_ones s))) by lia.
  cbn [drop]. rewrite Nat.mod_small by done. by apply IH.
Qed.

Lemma setitem_value_data (y y' : Tensor R) :
  wf y → setitem_value y (shape y) = Ok y' → y' = y.
Proof.
  intros Hwf Hy. unfold setitem_value in Hy. apply expand_Ok in Hy as [Hs Hd].
  destruct y as [s d], y' as [s' d']. simpl in *. subst s'. f_equal.
  rewrite Hd. unfold expand_data. cbn [shape data]. unfold wf in Hwf. simpl in Hwf.
  rewrite <- Hwf. etrans; [|apply (tabulate_lookup_total d)].
  apply tabulate_ext. intros i Hi. rewrite expand_index_drop_ones; [done|]. by rewrite <- Hwf.
Qed.

Lemma concat_chunks {A} (d : list A) Q k :
  concat ((λ g, take Q (drop (g * Q) d)) <$> seq 0 k) = take (k * Q) d.
Proof.
  induction k as [|k IH]; [done|].
  rewrite seq_S, fmap_app, concat_app, IH. simpl. rewrite app_nil_r.
  rewrite take_take_drop. f_equal. lia.
Qed.

Lemma concat_fmap_fmap {A B} (f : A → B) (ls : list (list A)) :
  concat (fmap (M:=list) f <$> ls) = f <$> concat ls.
Proof. induction ls as [|l ls IH]; csimpl; [done|]. by rewrite fmap_app, IH. Qed.

Lemma for_each_fmap {A B} (F : A → result B) (G : A → B) xs :
  Forall (λ x, F x = Ok (G x)) xs → for_each F xs = Ok (G <$> xs).
Proof. induction 1 as [|x xs Hx _ IH]; simpl; [done|]. by rewrite Hx, IH. Qed.

Lemma numel_last_zero s : last s = Some 0 → numel s = 0.
Proof. intros [pre ->]%last_Some. rewrite numel_app. simpl. lia. Qed.

Lemma for_enumerate_Raise {A St} (body : nat → A → St → result St) xs :
  Exists (λ x, ∀ j acc, ∃ e, body j x acc = Raise e) xs →
  ∀ j acc, ∃ e, for_enumerate body j xs acc = Raise e.
Proof.
  induction xs as [|x xs IH]; intros Hex j acc; [by apply Exists_nil in Hex|].
  cbn [for_enumerate]. destruct (body j x acc) as [acc'|e] eqn:Hb; [|by exists e].
  apply Exists_cons in Hex as [Hx|Hxs].
  - destruct (Hx j acc) as [e He]. congruence.
  - by apply IH.
Qed.

End more_tensor_facts.

(** ** OpenUnmix.forward: the inputs it accepts *)

Ltac layers H :=
  repeat (apply Forall2_cons_inv_r in H as ([? ?] & ? & ? & H & ->));
  apply Forall2_nil_inv_r in H as ->.

Section openunmix_domain.
Context {R : Type} `{Scalar R}.
Context (torch_kernel : NN.Module R → Tensor R → nat → R).
Context (torch_init : NN.Kind → list (string * Tensor R)).

Abbreviation call_layer := (OpenUnmix.call_layer torch_kernel).
Abbreviation sequential := (OpenUnmix.sequential torch_kernel).
Abbreviation decoder_output := (OpenUnmix.decoder_output torch_kernel).
Abbreviation forward := (OpenUnmix.forward torch_kernel).
Abbreviation layer_output := (OpenUnmix.layer_output torch_kernel).

(** The shapes a list of layers produces, and the exception it raises,
    depend on the shape of the input only. *)
Abbreviation shapes_through ls s :=
  (for_enumerate (λ (_ : nat) (l : string * NN.Module R) s0, OpenUnmix.out_shape l.2 s0) 0 ls s).

Lemma layers_shape (ls : list (string * NN.Module R)) : ∀ j j' x,
  (y ← for_enumerate (λ _ l x, call_layer l.2 x) j ls x; Ok (shape y))
  = for_enumerate (λ _ l s, OpenUnmix.out_shape l.2 s) j' ls (shape x).
Proof.
  induction ls as [|l ls IH]; intros j j' x; [reflexivity|].
  cbn [for_enumerate].
  destruct (OpenUnmix.out_shape l.2 (shape x)) as [s|e] eqn:Hs.
  - assert (call_layer l.2 x = Ok (layer_output l.2 x s)) as ->
      by (unfold OpenUnmix.call_layer; by rewrite Hs).
    cbn [mbind result_bind]. by rewrite (IH _ (S j')).
  - assert (call_layer l.2 x = Raise e) as ->
      by (unfold OpenUnmix.call_layer; by rewrite Hs).
    reflexivity.
Qed.

Lemma sequential_shape (layers : NN.Module R) x :
  (y ← sequential layers x; Ok (shape y)) = shapes_through (NN.children layers) (shape x).
Proof. apply layers_shape. Qed.

Lemma sequential_Ok_shape layers x y :
  sequential layers x = Ok y → shapes_through (NN.children layers) (shape x) = Ok (shape y).
Proof. intros Hy. by rewrite <- sequential_shape, Hy. Qed.

Lemma sequential_Raise_shape layers x e :
  sequential layers x = Raise e ↔ shapes_through (NN.children layers) (shape x) = Raise e.
Proof.
  rewrite <- sequential_shape. destruct (sequential layers x); simpl; split; congruence.
Qed.

Lemma sequential_is_Ok_shape layers x s :
  shapes_through (NN.children layers) (shape x) = Ok s →
  ∃ y, sequential layers x = Ok y ∧ shape y = s.
Proof.
  rewrite <- sequential_shape. destruct (sequential layers x) as [y|]; simpl; [|done].
  intros [= <-]. by exists y.
Qed.

(** *** One layer *)

Lemma out_shape_Conv3d_inv (l : NN.Module R) cin cout kd kh kw sd sh sw n c d h w s :
  NN.kind l = NN.Conv3d cin cout (kd, kh, kw) (sd, sh, sw) →
  OpenUnmix.out_shape l [n; c; d; h; w] = Ok s →
  c = cin ∧ kd ≤ d ∧ kh ≤ h ∧ kw ≤ w ∧
  s = [n; cout; (d - kd) / sd + 1; (h - kh) / sh + 1; (w - kw) / sw + 1].
Proof.
  intros Hk. unfold OpenUnmix.out_shape, OpenUnmix.conv_out. rewrite Hk.
  intros Hs. inv_ok. subst. repeat split; lia.
Qed.

Lemma out_shape_Conv3d (l : NN.Module R) cin cout kd kh kw sw n d h w :
  NN.kind l = NN.Conv3d cin cout (kd, kh, kw) (1, 1, sw) →
  0 < sw → kd ≤ d → kh ≤ h → kw ≤ w →
  OpenUnmix.out_shape l [n; cin; d; h; w]
  = Ok [n; cout; d - kd + 1; h - kh + 1; (w - kw) / sw + 1].
Proof.
  intros Hk ? ? ? ?. unfold OpenUnmix.out_shape, OpenUnmix.conv_out. rewrite Hk.
  rewrite decide_True by done.
  rewrite !(decide_False (P := 1 = 0)) by done. rewrite (decide_False (P := sw = 0)) by lia.
  rewrite !decide_False by lia. cbn [mbind result_bind]. by rewrite !Nat.div_1_r.
Qed.

Lemma out_shape_ConvTranspose3d (l : NN.Module R) cin cout kd kh kw sw pw n d h w :
  NN.kind l = NN.ConvTranspose3d cin cout (kd, kh, kw) (1, 1, sw) (0, 0, pw) →
  pw < sw → 0 < d → 0 < h → 0 < w → 0 < kd → 0 < kh → 0 < kw →
  OpenUnmix.out_shape l [n; cin; d; h; w]
  = Ok [n; cout; d + kd - 1; h + kh - 1; (w - 1) * sw + (kw - 1) + pw + 1].
Proof.
  intros Hk ? ? ? ? ? ? ?.
  unfold OpenUnmix.out_shape, OpenUnmix.conv_transpose_out. rewrite Hk.
  rewrite decide_True by done.
  rewrite !(decide_False (P := 1 = 0)) by done. rewrite (decide_False (P := sw = 0)) by lia.
  rewrite !(decide_False (P := _ ∧ _)) by lia. rewrite !(decide_False (P := _ ∨ _)) by lia.
  cbn [mbind result_bind]. rewrite !Nat.mul_1_r.
  by replace (d - 1 + (kd - 1) + 0 + 1) with (d + kd - 1) by lia;
     replace (h - 1 + (kh - 1) + 0 + 1) with (h + kh - 1) by lia.
Qed.

Lemma out_shape_ReLU (l : NN.Module R) s :
  NN.kind l = NN.ReLU → OpenUnmix.out_shape l s = Ok s.
Proof. intros Hk. unfold OpenUnmix.out_shape. by rewrite Hk. Qed.

Lemma out_shape_BatchNorm3d (l : NN.Module R) c n d h w :
  NN.kind l = NN.BatchNorm3d c →
  ¬ (NN.training l = true ∧ n * (d * (h * w)) = 1) →
  OpenUnmix.out_shape l [n; c; d; h; w] = Ok [n; c; d; h; w].
Proof.
  intros Hk ?. unfold OpenUnmix.out_shape. rewrite Hk.
  rewrite decide_False by done. by rewrite decide_True.
Qed.

Lemma out_shape_BatchNorm3d_single (l : NN.Module R) c c' n d h w :
  NN.kind l = NN.BatchNorm3d c →
  NN.training l = true → n * (d * (h * w)) = 1 →
  OpenUnmix.out_shape l [n; c'; d; h; w] = Raise ValueError.
Proof.
  intros Hk ? ?. unfold OpenUnmix.out_shape. rewrite Hk. by rewrite decide_True.
Qed.

Lemma out_shape_BatchNorm3d_inv (l : NN.Module R) c s s' :
  NN.kind l = NN.BatchNorm3d c → OpenUnmix.out_shape l s = Ok s' → s' = s.
Proof.
  intros Hk. unfold OpenUnmix.out_shape. rewrite Hk.
  destruct s as [|n [|c0 [|d [|h [|w [|]]]]]]; try congruence.
  intros Hs. inv_ok. congruence.
Qed.

Lemma out_shape_Conv3d_small (l : NN.Module R) cin cout kd kh kw st n c d h w :
  NN.kind l = NN.Conv3d cin cout (kd, kh, kw) st → h < kh →
  OpenUnmix.out_shape l [n; c; d; h; w] = Raise RuntimeError.
Proof.
  intros Hk ?. unfold OpenUnmix.out_shape, OpenUnmix.conv_out. rewrite Hk.
  destruct st as [[sd sh] sw].
  repeat (case_decide; cbn [mbind result_bind]; try done); lia.
Qed.

(** *** The encoder and the decoder *)

Lemma not_single_value a b c d : 2 ≤ b → a * (b * (c * d)) ≠ 1.
Proof.
  intros ? Hp. apply Nat.mul_eq_1 in Hp as [_ Hp]. apply Nat.mul_eq_1 in Hp as [? _]. lia.
Qed.

Ltac shapes_inv :=
  repeat match goal with
  | Hk : NN.kind ?l = NN.ReLU, Hs : OpenUnmix.out_shape ?l _ = Ok _ |- _ =>
      rewrite (out_shape_ReLU l _ Hk) in Hs; injection Hs as <-
  | Hk : NN.kind ?l = NN.BatchNorm3d _, Hs : OpenUnmix.out_shape ?l _ = Ok _ |- _ =>
      apply (out_shape_BatchNorm3d_inv _ _ _ _ Hk) in Hs; subst
  | Hk : NN.kind ?l = NN.Conv3d _ _ _ _,
    Hs : OpenUnmix.out_shape ?l [_; _; _; _; _] = Ok _ |- _ =>
      apply (out_shape_Conv3d_inv _ _ _ _ _ _ _ _ _ _ _ _ _ _ _ Hk) in Hs
        as (? & ? & ? & ? & ->)
  end.

Lemma encoder_shapes_inv C0 (net : OpenUnmix.t R) n c d h w s' :
  OpenUnmix.has_architecture C0 net →
  shapes_through (NN.children (OpenUnmix.encoder net)) [n; c; d; h; w] = Ok s' →
  c = C0 ∧ 9 ≤ d ∧ 21 ≤ h ∧ 105 ≤ w ∧
  s' = [n; 55; d - 8; h - 20; ((w - 42) / 3 - 21) / 3 + 1].
Proof.
  intros [Henc _]. remember (NN.children (OpenUnmix.encoder net)) as ls eqn:Hls. clear Hls.
  layers Henc. cbn [snd for_enumerate] in *. intros Hs. inv_ok. shapes_inv. subst.
  rewrite !Nat.div_1_r in *.
  pose proof (Nat.div_mod_eq (w - 42) 3). pose proof (Nat.mod_upper_bound (w - 42) 3 ltac:(lia)).
  repeat split; try lia.
  f_equal. f_equal. repeat (f_equal; try lia).
Qed.

Lemma encoder_shapes C0 (net : OpenUnmix.t R) n d h w :
  OpenUnmix.has_architecture C0 net →
  9 ≤ d → 21 ≤ h → 105 ≤ w →
  let W2 := ((w - 42) / 3 - 21) / 3 + 1 in
  (∀ l, (NN.children (OpenUnmix.encoder net)).*2 !! 5 = Some l →
     ¬ (NN.training l = true ∧ n * ((d - 8) * ((h - 20) * W2)) = 1)) →
  shapes_through (NN.children (OpenUnmix.encoder net)) [n; C0; d; h; w]
  = Ok [n; 55; d - 8; h - 20; W2].
Proof.
  intros [Henc _] ? ? ? W2.
  destruct (width_arith w ltac:(done)) as (HW1 & HW2 & HW2pos & _). fold W2 in HW2, HW2pos.
  remember (NN.children (OpenUnmix.encoder net)) as ls eqn:Hls. clear Hls.
  layers Henc. cbn [snd for_enumerate] in *. intros Hbn.
  erewrite out_shape_Conv3d by (done || lia). cbn [mbind result_bind].
  erewrite out_shape_ReLU by done. cbn [mbind result_bind].
  erewrite out_shape_BatchNorm3d; [|done|intros [_ []%not_single_value]; lia].
  cbn [mbind result_bind].
  erewrite out_shape_Conv3d by (done || lia). cbn [mbind result_bind].
  erewrite out_shape_ReLU by done. cbn [mbind result_bind].
  rewrite HW2.
  replace (d - 5 + 1 - 5 + 1) with (d - 8) by lia.
  replace (h - 11 + 1 - 11 + 1) with (h - 20) by lia.
  erewrite out_shape_BatchNorm3d; [done|done|]. by apply Hbn.
Qed.

Lemma encoder_shapes_single C0 (net : OpenUnmix.t R) l n d h w :
  OpenUnmix.has_architecture C0 net →
  9 ≤ d → 21 ≤ h → 105 ≤ w →
  (NN.children (OpenUnmix.encoder net)).*2 !! 5 = Some l →
  NN.training l = true →
  n * ((d - 8) * ((h - 20) * (((w - 42) / 3 - 21) / 3 + 1))) = 1 →
  shapes_through (NN.children (OpenUnmix.encoder net)) [n; C0; d; h; w] = Raise ValueError.
Proof.
  intros [Henc _] ? ? ?.
  destruct (width_arith w ltac:(done)) as (HW1 & HW2 & HW2pos & _).
  remember (NN.children (OpenUnmix.encoder net)) as ls eqn:Hls. clear Hls.
  layers Henc. cbn [snd for_enumerate] in *. intros [= <-] Ht Hone.
  erewrite out_shape_Conv3d by (done || lia). cbn [mbind result_bind].
  erewrite out_shape_ReLU by done. cbn [mbind result_bind].
  erewrite out_shape_BatchNorm3d; [|done|intros [_ []%not_single_value]; lia].
  cbn [mbind result_bind].
  erewrite out_shape_Conv3d by (done || lia). cbn [mbind result_bind].
  erewrite out_shape_ReLU by done. cbn [mbind result_bind].
  rewrite HW2.
  replace (d - 5 + 1 - 5 + 1) with (d - 8) by lia.
  replace (h - 11 + 1 - 11 + 1) with (h - 20) by lia.
  erewrite out_shape_BatchNorm3d_single; done.
Qed.

Lemma decoder_shapes C0 (net : OpenUnmix.t R) n d h w :
  OpenUnmix.has_architecture C0 net →
  0 < d → 0 < h → 0 < w →
  shapes_through (NN.children (OpenUnmix.decoder net)) [n; 55; d; h; w]
  = Ok [n; C0; d + 8; h + 20; 9 * w + 104].
Proof.
  intros [_ Hdec] ? ? ?.
  remember (NN.children (OpenUnmix.decoder net)) as ls eqn:Hls. clear Hls.
  layers Hdec. cbn [snd for_enumerate] in *.
  erewrite out_shape_ConvTranspose3d by (done || lia). cbn [mbind result_bind].
  erewrite out_shape_ReLU by done. cbn [mbind result_bind].
  erewrite out_shape_BatchNorm3d; [|done|intros [_ []%not_single_value]; lia].
  cbn [mbind result_bind].
  erewrite out_shape_ConvTranspose3d by (done || lia). cbn [mbind result_bind].
  erewrite out_shape_ReLU by done. cbn [mbind result_bind].
  do 2 f_equal. repeat (f_equal; try lia).
Qed.

(** *** The forward pass *)

Lemma encoder_input_inv (net : OpenUnmix.t R) x e :
  OpenUnmix.encoder_input net x = Ok e →
  ∃ S C F T M, shape x = [S; C; F; T; M] ∧ 0 < S ∧ 0 < C ∧ 0 < F ∧
    shape e = [S; C; T; F; M].
Proof.
  unfold OpenUnmix.encoder_input.
  destruct (shape x) as [|S [|C [|F [|T [|M [|]]]]]] eqn:Hs; try done.
  intros He. apply bind_Ok in He as (x0 & Hx0 & He).
  exists S, C, F, T, M. split; [done|].
  apply reshape_inv in He as [He _].
  rewrite infer_size_known in He by (repeat constructor; lia).
  case_decide; [|done]. injection He as He. cbn [fmap list_fmap] in He.
  rewrite !Nat2Z.id in He.
  unfold OpenUnmix.normalize in Hx0. rewrite Hs in Hx0.
  apply bind_Ok in Hx0 as (x1 & Hx1 & _). apply reshape_inv in Hx1 as [Hx1 _].
  apply (infer_size_last [Z.of_nat S; Z.of_nat C; Z.of_nat F]) in Hx1 as (_ & Hpos & _).
  cbn [fmap list_fmap numel foldr] in Hpos. rewrite !Nat2Z.id in Hpos.
  repeat split; try done; nia.
Qed.

(** X1 -- The unpacking of [x.shape] into five names fails on any other
    rank. *)
Theorem forward_rejects_other_ranks (net : OpenUnmix.t R) (x : Tensor R) :
  length (shape x) ≠ 5 → forward net x = Raise ValueError.
Proof.
  intros Hlen. unfold OpenUnmix.forward, OpenUnmix.decoder_output.
  by destruct (shape x) as [|? [|? [|? [|? [|? [|]]]]]].
Qed.

Lemma decoder_output_inv C0 (net : OpenUnmix.t R) (x z : Tensor R) :
  OpenUnmix.has_architecture C0 net →
  decoder_output net x = Ok z →
  ∃ S F T M, shape x = [S; C0; F; T; M] ∧
    0 < S ∧ 0 < C0 ∧ 21 ≤ F ∧ 9 ≤ T ∧ 105 ≤ M ∧
    shape z = [S; C0; T; F; 9 * (((M - 42) / 3 - 21) / 3 + 1) + 104].
Proof.
  intros Harch Hz. rewrite decoder_output_unfold in Hz.
  apply bind_Ok in Hz as (e & He & Hz). apply bind_Ok in Hz as (e1 & He1 & Hz).
  apply encoder_input_inv in He as (S & C & F & T & M & Hs & ? & ? & ? & Hse).
  apply sequential_Ok_shape in He1, Hz. rewrite Hse in He1.
  apply (encoder_shapes_inv C0) in He1 as (-> & ? & ? & ? & Hs1); [|done].
  rewrite Hs1, (decoder_shapes C0) in Hz by (done || lia). injection Hz as Hz.
  exists S, F, T, M. repeat split; try done.
  rewrite <- Hz. repeat (f_equal; try lia).
Qed.

Lemma width_bounds M :
  105 ≤ M →
  let M' := 9 * (((M - 42) / 3 - 21) / 3 + 1) + 104 in
  M ≤ M' ∧ M' ≤ M + 8 ∧ M' mod 9 = 5.
Proof.
  intros HM M'. unfold M'.
  pose proof (Nat.div_mod_eq (M - 42) 3). pose proof (Nat.mod_upper_bound (M - 42) 3 ltac:(lia)).
  pose proof (Nat.div_mod_eq ((M - 42) / 3 - 21) 3).
  pose proof (Nat.mod_upper_bound ((M - 42) / 3 - 21) 3 ltac:(lia)).
  split; [lia|]. split; [lia|].
  replace (9 * (((M - 42) / 3 - 21) / 3 + 1) + 104)
    with (5 + (((M - 42) / 3 - 21) / 3 + 12) * 9) by lia.
  by rewrite Nat.Div0.mod_add.
Qed.

(** X2 -- [forward] returns only on a 5-dimensional input with the
    channel count of the first convolution, at least one sample, 9 frames,
    21 bins and 105 sub-bins; the shape of the result is then determined. *)
Theorem forward_accepts_only C0 (net : OpenUnmix.t R) (x y : Tensor R) :
  OpenUnmix.has_architecture C0 net →
  forward net x = Ok y →
  ∃ S F T M, shape x = [S; C0; F; T; M] ∧
    0 < S ∧ 0 < C0 ∧ 21 ≤ F ∧ 9 ≤ T ∧ 105 ≤ M ∧
    shape y = [S; C0; F; T; 9 * (((M - 42) / 3 - 21) / 3 + 1) + 104].
Proof.
  intros Harch Hy. unfold OpenUnmix.forward in Hy.
  apply bind_Ok in Hy as (z & Hz & Hy). apply bind_Ok in Hy as (y' & Hy & [= <-]).
  apply (decoder_output_inv C0) in Hz as (S & F & T & M & Hs & ? & ? & ? & ? & ? & Hsz);
    [|done].
  exists S, F, T, M. do 6 (split; [done|]).
  by apply (permute_01324_inv _ _ _ _ _ _ _ Hsz Hy).
Qed.

(** X3 -- When [forward] returns, the last dimension of the result is
    at least the one of the input and exceeds it by at most 8; it is always
    5 modulo 9. *)
Theorem forward_widens_sub_bins C0 (net : OpenUnmix.t R) (x y : Tensor R) :
  OpenUnmix.has_architecture C0 net →
  forward net x = Ok y →
  ∃ S F T M M', shape x = [S; C0; F; T; M] ∧ shape y = [S; C0; F; T; M'] ∧
    M ≤ M' ∧ M' ≤ M + 8 ∧ M' mod 9 = 5.
Proof.
  intros Harch Hy. unfold OpenUnmix.forward in Hy.
  apply bind_Ok in Hy as (z & Hz & Hy). apply bind_Ok in Hy as (y' & Hy & [= <-]).
  apply (decoder_output_inv C0) in Hz as (S & F & T & M & Hs & _ & _ & _ & _ & HM & Hsz);
    [|done].
  destruct (width_bounds M HM) as (? & ? & ?).
  exists S, F, T, M, (9 * (((M - 42) / 3 - 21) / 3 + 1) + 104).
  split; [done|]. split; [|done].
  by apply (permute_01324_inv _ _ _ _ _ _ _ Hsz Hy).
Qed.

Lemma forward_Ok_if (net : OpenUnmix.t R) (x : Tensor R) S C F T M nm ns :
  shape x = [S; C; F; T; M] →
  OpenUnmix.has_architecture C net →
  OpenUnmix.nb_bins net = F →
  shape (NN.value (OpenUnmix.input_mean net)) = [nm] → F ≤ nm →
  shape (NN.value (OpenUnmix.input_scale net)) = [ns] → F ≤ ns →
  0 < S → 0 < C → 9 ≤ T → 21 ≤ F → 105 ≤ M →
  let W2 := ((M - 42) / 3 - 21) / 3 + 1 in
  (∀ l, (NN.children (OpenUnmix.encoder net)).*2 !! 5 = Some l →
     ¬ (NN.training l = true ∧ S * ((T - 8) * ((F - 20) * W2)) = 1)) →
  ∃ y, forward net x = Ok y ∧ shape y = [S; C; F; T; 9 * W2 + 104].
Proof.
  intros Hs Harch HF Hm Hnm Hsc Hns ? ? ? ? ? W2 Hbn.
  destruct (width_arith M ltac:(done)) as (_ & _ & HW2pos & _). fold W2 in HW2pos.
  destruct (encoder_input_Ok net x S C F T M nm ns) as (x0 & _ & _ & He); try done; [nia|].
  unfold OpenUnmix.forward. rewrite decoder_output_unfold, He. cbn [mbind result_bind].
  destruct (sequential_is_Ok_shape (OpenUnmix.encoder net)
              (mkTensor [S; C; T; F; M] (data x0)) [S; 55; T - 8; F - 20; W2])
    as (e1 & -> & Hs1); [by apply encoder_shapes|].
  cbn [mbind result_bind].
  destruct (sequential_is_Ok_shape (OpenUnmix.decoder net) e1
              [S; C; T - 8 + 8; F - 20 + 20; 9 * W2 + 104])
    as (z & -> & Hz); [rewrite Hs1; apply decoder_shapes; (done || lia)|].
  cbn [mbind result_bind].
  destruct (permute_01324_spec z _ _ _ _ _ Hz) as (y & -> & Hsy & _).
  cbn [mbind result_bind]. exists y. split; [done|]. rewrite Hsy.
  repeat (f_equal; try lia).
Qed.

Lemma eval_children_training (m : NN.Module R) :
  Forall (λ c, NN.training c.2 = false) (NN.children (NN.eval m)).
Proof.
  destruct m as [k t ps cs]. simpl. apply Forall_fmap, Forall_forall.
  by intros [n [k' t' ps' cs']] _.
Qed.

(** X4 -- After [freeze] the batch normalizations use their running
    statistics, and [forward] accepts every input that is large enough for
    the two convolutions, a single value per channel at the bottleneck
    included. *)
Theorem frozen_forward_accepts (net : OpenUnmix.t R) (x : Tensor R) S C F T M nm ns :
  shape x = [S; C; F; T; M] →
  OpenUnmix.has_architecture C net →
  OpenUnmix.nb_bins net = F →
  shape (NN.value (OpenUnmix.input_mean net)) = [nm] → F ≤ nm →
  shape (NN.value (OpenUnmix.input_scale net)) = [ns] → F ≤ ns →
  0 < S → 0 < C → 9 ≤ T → 21 ≤ F → 105 ≤ M →
  ∃ y, forward (OpenUnmix.freeze net) x = Ok y ∧
    shape y = [S; C; F; T; 9 * (((M - 42) / 3 - 21) / 3 + 1) + 104].
Proof.
  intros Hs Harch HF Hm Hnm Hsc Hns ? ? ? ? ?.
  apply (forward_Ok_if _ x S C F T M nm ns); try done.
  - by apply freeze_has_architecture.
  - intros l Hl [Htr _]. simpl in Hl.
    rewrite list_lookup_fmap in Hl.
    destruct (NN.children _ !! 5) as [c|] eqn:Hc; [|done]. injection Hl as <-.
    pose proof (eval_children_training
      (NN.for_parameters (λ p, NN.mkParam (NN.value p) false) (OpenUnmix.encoder net))) as Hall.
    rewrite Forall_lookup in Hall. specialize (Hall _ _ Hc). congruence.
Qed.

(** The statistics a constructed network stores are vectors as long as
    the ones it was given. *)
Lemma init_statistics nb_bins M0 nb_channels (input_mean input_scale : option (Tensor R)) :
  (∀ m, input_mean = Some m → ∃ n, shape m = [n] ∧ nb_bins ≤ n) →
  (∀ s, input_scale = Some s → ∃ n, shape s = [n] ∧ nb_bins ≤ n) →
  let net := OpenUnmix.__init__ torch_init nb_bins M0 nb_channels input_mean input_scale in
  ∃ nm ns,
    shape (NN.value (OpenUnmix.input_mean net)) = [nm] ∧ nb_bins ≤ nm ∧
    shape (NN.value (OpenUnmix.input_scale net)) = [ns] ∧ nb_bins ≤ ns.
Proof.
  intros Hm Hs. simpl.
  destruct input_mean as [m|], input_scale as [s|]; simpl.
  - destruct (Hm m eq_refl) as (nm & ? & ?), (Hs s eq_refl) as (ns & ? & ?). by exists nm, ns.
  - destruct (Hm m eq_refl) as (nm & ? & ?). by exists nm, nb_bins.
  - destruct (Hs s eq_refl) as (ns & ? & ?). by exists nb_bins, ns.
  - by exists nb_bins, nb_bins.
Qed.

(** X5 -- A freshly constructed network is in training mode: on an input
    that leaves a single value per channel at the bottleneck, the second
    batch normalization of the encoder raises [ValueError]. *)
Theorem fresh_forward_needs_two_values nb_bins M0 nb_channels
    (input_mean input_scale : option (Tensor R)) (x : Tensor R) S T M :
  let net := OpenUnmix.__init__ torch_init nb_bins M0 nb_channels input_mean input_scale in
  shape x = [S; nb_channels; nb_bins; T; M] →
  (∀ m, input_mean = Some m → ∃ n, shape m = [n] ∧ nb_bins ≤ n) →
  (∀ s, input_scale = Some s → ∃ n, shape s = [n] ∧ nb_bins ≤ n) →
  0 < nb_channels → 9 ≤ T → 21 ≤ nb_bins → 105 ≤ M →
  S * ((T - 8) * ((nb_bins - 20) * (((M - 42) / 3 - 21) / 3 + 1))) = 1 →
  forward net x = Raise ValueError.
Proof.
  intros net Hs Hm Hsc ? ? ? ? Hone.
  destruct (init_statistics nb_bins M0 nb_channels input_mean input_scale Hm Hsc)
    as (nm & ns & Hnm & ? & Hns & ?). fold net in Hnm, Hns.
  assert (0 < S) by (destruct S; [simpl in Hone|]; lia).
  destruct (encoder_input_Ok net x S nb_channels nb_bins T M nm ns)
    as (x0 & _ & _ & He); try done; [nia|].
  unfold OpenUnmix.forward. rewrite decoder_output_unfold, He. cbn [mbind result_bind].
  assert (sequential (OpenUnmix.encoder net) (mkTensor [S; nb_channels; T; nb_bins; M] (data x0))
          = Raise ValueError) as ->; [|done].
  apply sequential_Raise_shape.
  eapply (encoder_shapes_single nb_channels net); try done.
  apply init_has_architecture.
Qed.

(** X6 -- With statistics for [nb_bins] bins, an input with another number
    of bins is rejected with [RuntimeError], unless [nb_bins] is 1 and the
    statistics broadcast. *)
Theorem forward_rejects_other_bins C0 (net : OpenUnmix.t R) (x : Tensor R) S C F T M nm ns :
  OpenUnmix.has_architecture C0 net →
  shape x = [S; C; F; T; M] →
  shape (NN.value (OpenUnmix.input_mean net)) = [nm] → OpenUnmix.nb_bins net ≤ nm →
  shape (NN.value (OpenUnmix.input_scale net)) = [ns] → OpenUnmix.nb_bins net ≤ ns →
  F ≠ OpenUnmix.nb_bins net → OpenUnmix.nb_bins net ≠ 1 →
  forward net x = Raise RuntimeError.
Proof.
  intros [Henc _] Hs Hm Hnm Hsc Hns HF HB.
  unfold OpenUnmix.forward. rewrite decoder_output_unfold.
  unfold OpenUnmix.encoder_input, OpenUnmix.normalize. rewrite Hs.
  destruct (reshape x _) as [x1|e] eqn:Hx1.
  2:{ by apply reshape_Raise in Hx1 as ->. }
  cbn [mbind result_bind].
  apply reshape_inv in Hx1 as [Hx1 _].
  apply (infer_size_last [Z.of_nat S; Z.of_nat C; Z.of_nat F]) in Hx1 as (_ & _ & _ & Hx1).
  cbn [fmap list_fmap app] in Hx1. rewrite !Nat2Z.id in Hx1.
  destruct (permute_3012_spec x1 _ _ _ _ Hx1) as (x2 & -> & Hs2 & _).
  cbn [mbind result_bind].
  rewrite (narrow_first_vector _ nm _ Hm Hnm). cbn [mbind result_bind].
  unfold tensor_add at 1, pointwise at 1. rewrite Hs2. cbn [shape].
  rewrite broadcast_shapes_vector_cases.
  rewrite decide_False by done.
  case_decide as HF1; [|by rewrite decide_False]. subst F.
  cbn [mbind result_bind].
  rewrite (narrow_first_vector _ ns _ Hsc Hns). cbn [mbind result_bind].
  unfold tensor_mul at 1, pointwise at 1. cbn [shape].
  rewrite broadcast_shapes_vector. cbn [mbind result_bind].
  match goal with |- context [reshape ?t ?spec] =>
    destruct (reshape t spec) as [x5|e] eqn:Hx5 end.
  2:{ by apply reshape_Raise in Hx5 as ->. }
  cbn [mbind result_bind].
  apply reshape_inv in Hx5 as [Hx5 _].
  rewrite infer_size_known in Hx5 by (repeat constructor; lia).
  case_decide; [|done]. injection Hx5 as Hx5. cbn [fmap list_fmap] in Hx5.
  rewrite !Nat2Z.id in Hx5.
  assert (sequential (OpenUnmix.encoder net) x5 = Raise RuntimeError) as ->; [|done].
  apply sequential_Raise_shape. rewrite <- Hx5.
  remember (NN.children (OpenUnmix.encoder net)) as ls eqn:Hls. clear Hls.
  layers Henc. cbn [snd for_enumerate] in *.
  erewrite out_shape_Conv3d_small; [done|done|lia].
Qed.

(** X7 -- The second [reshape] of [forward] reads the normalized tensor,
    laid out as (frames * sub-bins, samples, channels, bins), in row-major
    order under the shape (samples, channels, frames, bins, sub-bins): it
    does not undo the [permute].  The first sub-bins of frame 0 and bin 0
    hold the first bins of sub-bin 0 of frame 0. *)
Theorem encoder_input_layout (net : OpenUnmix.t R) (x : Tensor R) S C F T M nm ns :
  shape x = [S; C; F; T; M] →
  OpenUnmix.nb_bins net = F →
  shape (NN.value (OpenUnmix.input_mean net)) = [nm] → F ≤ nm →
  shape (NN.value (OpenUnmix.input_scale net)) = [ns] → F ≤ ns →
  0 < S * C * F →
  let normalized s c f t m :=
    mul (add (get x [s; c; f; t; m])
             (take F (data (NN.value (OpenUnmix.input_mean net))) !!! f))
        (take F (data (NN.value (OpenUnmix.input_scale net))) !!! f) in
  ∃ e, OpenUnmix.encoder_input net x = Ok e ∧ shape e = [S; C; T; F; M] ∧
    (∀ idx, in_range [S; C; T; F; M] idx →
       ∃ k s c f, unravel [T * M; S; C; F] (ravel [S; C; T; F; M] idx) = [k; s; c; f] ∧
         k < T * M ∧ s < S ∧ c < C ∧ f < F ∧
         get e idx = normalized s c f (k / M) (k mod M)) ∧
    (∀ m, 0 < T → m < F → m < M → get e [0; 0; 0; 0; m] = normalized 0 0 m 0 0).
Proof.
  intros Hs HF Hm Hnm Hsc Hns Hpos normalized.
  destruct (normalize_spec net x S C F T M nm ns) as (y' & Hy' & _ & Hget); try done.
  destruct (encoder_input_Ok net x S C F T M nm ns) as (y & Hy & Hsy & He); try done.
  assert (y' = y) as -> by congruence.
  exists (mkTensor [S; C; T; F; M] (data y)). split; [done|]. split; [done|].
  assert (Hall : ∀ idx, in_range [S; C; T; F; M] idx →
       ∃ k s c f, unravel [T * M; S; C; F] (ravel [S; C; T; F; M] idx) = [k; s; c; f] ∧
         k < T * M ∧ s < S ∧ c < C ∧ f < F ∧
         get (mkTensor [S; C; T; F; M] (data y)) idx = normalized s c f (k / M) (k mod M)).
  { intros idx Hidx. pose proof (ravel_lt _ _ Hidx) as Hg.
    set (g := ravel [S; C; T; F; M] idx) in *.
    assert (Hg' : g < numel [T * M; S; C; F]) by (simpl in *; lia).
    pose proof (unravel_in_range _ _ Hg') as Hr.
    pose proof (ravel_unravel _ _ Hg') as Hru.
    destruct (unravel [T * M; S; C; F] g) as [|k [|s [|c [|f [|]]]]] eqn:Hu; try done.
    destruct Hr as (Hk & ? & ? & ? & _).
    exists k, s, c, f. do 5 (split; [done|]).
    assert (0 < M) by (destruct M; lia).
    unfold get at 1. cbn [shape data]. fold g. rewrite <- Hru at 1.
    rewrite <- Hsy. fold (get y [k; s; c; f]).
    rewrite (Nat.div_mod_eq k M) at 1. rewrite (Nat.mul_comm M).
    apply Hget; try done; [by apply div_lt_mul|by apply mod_lt_pos]. }
  split; [exact Hall|].
  intros m ? ? ?.
  destruct (Hall [0; 0; 0; 0; m]) as (k & s & c & f & Hu & _ & _ & _ & _ & ->);
    [simpl; lia|].
  assert (Hm0 : ravel [S; C; T; F; M] [0; 0; 0; 0; m] = ravel [T * M; S; C; F] [0; 0; 0; m])
    by (simpl; lia).
  rewrite Hm0, unravel_ravel in Hu by (simpl; nia).
  injection Hu as <- <- <- <-. by rewrite Nat.Div0.div_0_l, Nat.Div0.mod_0_l.
Qed.

End openunmix_domain.

(** ** freeze: what it keeps *)

Section freeze_more.
Context {R : Type} `{Scalar R}.

Abbreviation no_grad := (λ p : NN.Param R, NN.mkParam (NN.value p) false).

Lemma for_parameters_idemp (body : NN.Param R → NN.Param R) m :
  (∀ p, body (body p) = body p) →
  NN.for_parameters body (NN.for_parameters body m) = NN.for_parameters body m.
Proof.
  intros Hbody. induction m as [k t ps cs IH] using Module_induction.
  rewrite !for_parameters_Node. f_equal.
  - rewrite <- list_fmap_compose. apply list_fmap_ext. intros i [n p] _. simpl. by rewrite Hbody.
  - rewrite <- list_fmap_compose. apply Forall_fmap_ext_1.
    eapply Forall_impl; [exact IH|]. intros [n c] Hc. simpl in *. by rewrite Hc.
Qed.

Lemma train_idemp mode mode' (m : NN.Module R) :
  NN.train mode (NN.train mode' m) = NN.train mode m.
Proof.
  induction m as [k t ps cs IH] using Module_induction.
  rewrite !train_Node. f_equal.
  rewrite <- list_fmap_compose. apply Forall_fmap_ext_1.
  eapply Forall_impl; [exact IH|]. intros [n c] Hc. simpl in *. by rewrite Hc.
Qed.

Lemma for_parameters_train body mode (m : NN.Module R) :
  NN.for_parameters body (NN.train mode m) = NN.train mode (NN.for_parameters body m).
Proof.
  induction m as [k t ps cs IH] using Module_induction.
  rewrite train_Node, !for_parameters_Node, train_Node. f_equal.
  rewrite <- !list_fmap_compose. apply Forall_fmap_ext_1.
  eapply Forall_impl; [exact IH|]. intros [n c] Hc. simpl in *. by rewrite Hc.
Qed.

Lemma eval_no_grad_idemp (m : NN.Module R) :
  NN.eval (NN.for_parameters no_grad (NN.eval (NN.for_parameters no_grad m)))
  = NN.eval (NN.for_parameters no_grad m).
Proof.
  unfold NN.eval. rewrite for_parameters_train, train_idemp.
  by rewrite for_parameters_idemp.
Qed.

Lemma modules_kinds_for_parameters body (m : NN.Module R) :
  NN.kind <$> NN.modules (NN.for_parameters body m) = NN.kind <$> NN.modules m.
Proof.
  induction m as [k t ps cs IH] using Module_induction.
  rewrite for_parameters_Node, !modules_Node. csimpl. f_equal.
  rewrite flat_map_fmap, !fmap_flat_map. apply flat_map_ext_Forall.
  eapply Forall_impl; [exact IH|]. by intros [n c].
Qed.

Lemma modules_kinds_train mode (m : NN.Module R) :
  NN.kind <$> NN.modules (NN.train mode m) = NN.kind <$> NN.modules m.
Proof.
  induction m as [k t ps cs IH] using Module_induction.
  rewrite train_Node, !modules_Node. csimpl. f_equal.
  rewrite flat_map_fmap, !fmap_flat_map. apply flat_map_ext_Forall.
  eapply Forall_impl; [exact IH|]. by intros [n c].
Qed.

Lemma freeze_keeps (m : NN.Module R) :
  NN.value <$> NN.parameters (NN.freeze m) = NN.value <$> NN.parameters m ∧
  NN.kind <$> NN.modules (NN.freeze m) = NN.kind <$> NN.modules m.
Proof.
  unfold NN.freeze, NN.eval. split.
  - rewrite parameters_train, parameters_for_parameters, <- list_fmap_compose.
    by apply list_fmap_ext.
  - by rewrite modules_kinds_train, modules_kinds_for_parameters.
Qed.

(** X8 -- Freezing a frozen object changes nothing. *)
Theorem freeze_is_idempotent (net : OpenUnmix.t R) (sep : Separator.t R) :
  OpenUnmix.freeze (OpenUnmix.freeze net) = OpenUnmix.freeze net ∧
  Separator.freeze (Separator.freeze sep) = Separator.freeze sep.
Proof.
  split.
  - destruct net as [nb M c1 c2 enc dec [mv mg] [sv sg] tr].
    unfold OpenUnmix.freeze. cbn [OpenUnmix.nb_bins OpenUnmix.M OpenUnmix.conv1
      OpenUnmix.conv2 OpenUnmix.encoder OpenUnmix.decoder OpenUnmix.input_mean
      OpenUnmix.input_scale OpenUnmix.training NN.value].
    by rewrite !eval_no_grad_idemp.
  - destruct sep as [fb [cst cfw] nc [dt its] nt cs sb tr].
    unfold Separator.freeze. cbn [Separator.nsgts Separator.complexnorm Separator.nb_channels
      Separator.target_models Separator.nb_targets Separator.chunk_size_samples
      Separator.seq_batch Separator.training Separator.state Separator.module_forward
      Separator.items Separator.dict_training].
    rewrite eval_no_grad_idemp. do 2 f_equal.
    rewrite <- !list_fmap_compose. apply list_fmap_ext. intros i [n [st fw]] _. simpl.
    by rewrite eval_no_grad_idemp.
Qed.

(** X9 -- [freeze] changes flags only: the values of the parameters, the
    layers, the forward functions of the target models, the transforms and
    the configuration are what they were. *)
Theorem freeze_changes_flags_only (net : OpenUnmix.t R) (sep : Separator.t R) :
  let same (m m' : NN.Module R) :=
    NN.value <$> NN.parameters m' = NN.value <$> NN.parameters m ∧
    NN.kind <$> NN.modules m' = NN.kind <$> NN.modules m in
  (same (OpenUnmix.as_module net) (OpenUnmix.as_module (OpenUnmix.freeze net)) ∧
   OpenUnmix.nb_bins (OpenUnmix.freeze net) = OpenUnmix.nb_bins net ∧
   NN.value (OpenUnmix.input_mean (OpenUnmix.freeze net)) = NN.value (OpenUnmix.input_mean net) ∧
   NN.value (OpenUnmix.input_scale (OpenUnmix.freeze net))
   = NN.value (OpenUnmix.input_scale net)) ∧
  (same (Separator.as_module sep) (Separator.as_module (Separator.freeze sep)) ∧
   Separator.nsgts (Separator.freeze sep) = Separator.nsgts sep ∧
   Separator.keys (Separator.target_models (Separator.freeze sep))
   = Separator.keys (Separator.target_models sep) ∧
   Separator.module_forward <$>
     (Separator.items (Separator.target_models (Separator.freeze sep))).*2
   = Separator.module_forward <$> (Separator.items (Separator.target_models sep)).*2 ∧
   Separator.nb_targets (Separator.freeze sep) = Separator.nb_targets sep ∧
   Separator.nb_channels (Separator.freeze sep) = Separator.nb_channels sep ∧
   Separator.chunk_size_samples (Separator.freeze sep) = Separator.chunk_size_samples sep ∧
   Separator.seq_batch (Separator.freeze sep) = Separator.seq_batch sep).
Proof.
  intros same. split.
  - split; [|done]. unfold same. rewrite OpenUnmix_freeze_as_module. apply freeze_keeps.
  - split; [unfold same; rewrite Separator_freeze_as_module; apply freeze_keeps|].
    destruct sep as [fb [cst cfw] nc [dt its] nt cs sb tr]. simpl.
    split; [done|]. unfold Separator.keys. simpl.
    rewrite <- !list_fmap_compose.
    split; [by apply list_fmap_ext; intros i [n [st fw]] _|].
    split; [by apply list_fmap_ext; intros i [n [st fw]] _|done].
Qed.

End freeze_more.

(** ** Separator.__init__ *)

Section separator_init.
Context {R : Type} `{Scalar R}.
Context {NSGTBase : Type}.
Context (make_filterbanks : NSGTBase → Separator.Filterbank R).
Context (ComplexNorm : bool → Separator.TargetModule R).
Context (ModuleDict_hasattr : string → bool).

(** The names [nn.ModuleDict] accepts for a new item. *)
Abbreviation accepted := (λ name : string,
  ModuleDict_hasattr name = false ∧ Separator.contains_dot name = false ∧
  name ≠ EmptyString).

Abbreviation register := (λ (nsgts : gmap string (Separator.Filterbank R))
                            (item : string * NSGTBase),
                            <[item.1 := make_filterbanks item.2]> nsgts).

Lemma register_absent (bases : list (string * NSGTBase)) : ∀ acc name,
  name ∉ bases.*1 → foldl register acc bases !! name = acc !! name.
Proof.
  induction bases as [|[n0 b0] bases IH]; intros acc name Hname; [done|].
  csimpl in *. apply not_elem_of_cons in Hname as [? ?].
  rewrite IH by done. by rewrite lookup_insert_ne.
Qed.

Lemma register_present (bases : list (string * NSGTBase)) : ∀ acc name base,
  NoDup bases.*1 → (name, base) ∈ bases →
  foldl register acc bases !! name = Some (make_filterbanks base).
Proof.
  induction bases as [|[n0 b0] bases IH]; intros acc name base Hnd Hin.
  - by apply elem_of_nil in Hin.
  - csimpl in *. apply NoDup_cons in Hnd as [Hn0 Hnd].
    apply elem_of_cons in Hin as [[= -> ->]|Hin].
    + rewrite register_absent by done. by rewrite lookup_insert_eq.
    + by apply IH.
Qed.

Lemma dict_setitem_new {A} name (v : A) (l : list (string * A)) :
  name ∉ l.*1 → Separator.dict_setitem name v l = l ++ [(name, v)].
Proof.
  induction l as [|item l IH]; intros Hname; [done|].
  csimpl in *. apply not_elem_of_cons in Hname as [? ?].
  rewrite decide_False by done. by rewrite IH.
Qed.

Lemma add_module_accepted (d : @Separator.ModuleDict R) name (m : Separator.TargetModule R) :
  name ∉ Separator.keys d → accepted name →
  Separator.add_module ModuleDict_hasattr d name m
  = Ok (Separator.mkModuleDict (Separator.dict_training d) (Separator.items d ++ [(name, m)])).
Proof.
  intros Hname (Hattr & Hdot & Hempty). unfold Separator.add_module.
  rewrite Hattr, Hdot. cbn [andb]. rewrite bool_decide_eq_false_2 by done.
  by rewrite dict_setitem_new.
Qed.

Lemma add_module_refused (d : @Separator.ModuleDict R) name (m : Separator.TargetModule R) :
  name ∉ Separator.keys d → ¬ accepted name →
  Separator.add_module ModuleDict_hasattr d name m = Raise (KeyError name).
Proof.
  intros Hname Hrefused. unfold Separator.add_module.
  rewrite (bool_decide_eq_true_2 _ Hname).
  destruct (ModuleDict_hasattr name) eqn:Hattr; [done|]. cbn [andb].
  destruct (Separator.contains_dot name) eqn:Hdot; [done|].
  case_bool_decide as Hempty; [done|]. by destruct Hrefused.
Qed.

Lemma accepted_dec name : accepted name ∨ ¬ accepted name.
Proof.
  destruct (ModuleDict_hasattr name) eqn:Hattr; [right; intros (Ha & _); congruence|].
  destruct (Separator.contains_dot name) eqn:Hdot; [right; intros (_ & Hb & _); congruence|].
  destruct (decide (name = EmptyString)) as [Hempty|?]; [right; by intros (_ & _ & Hc)|].
  by left.
Qed.

Lemma add_modules_Ok (modules : list (string * Separator.TargetModule R)) : ∀ j tr pre,
  NoDup (pre ++ modules).*1 → Forall accepted modules.*1 →
  for_enumerate (λ _ item d, Separator.add_module ModuleDict_hasattr d item.1 item.2) j modules
    (Separator.mkModuleDict tr pre)
  = Ok (Separator.mkModuleDict tr (pre ++ modules)).
Proof.
  induction modules as [|[name m] modules IH]; intros j tr pre Hnd Hall.
  - by rewrite app_nil_r.
  - csimpl in *. apply Forall_cons in Hall as [Hname Hall].
    rewrite fmap_app in Hnd. csimpl in Hnd.
    rewrite add_module_accepted; [|by apply NoDup_app in Hnd as (_ & Hnd & _); set_solver|done].
    cbn [mbind result_bind Separator.dict_training Separator.items].
    rewrite IH; [by rewrite <- app_assoc| |done].
    by rewrite !fmap_app, <- app_assoc.
Qed.

Lemma add_modules_Raise (modules : list (string * Separator.TargetModule R)) : ∀ j tr pre,
  NoDup (pre ++ modules).*1 → Exists (λ name, ¬ accepted name) modules.*1 →
  ∃ refused,
    for_enumerate (λ _ item d, Separator.add_module ModuleDict_hasattr d item.1 item.2) j modules
      (Separator.mkModuleDict tr pre)
    = Raise (KeyError refused) ∧
    refused ∈ modules.*1 ∧ ¬ accepted refused.
Proof.
  induction modules as [|[name m] modules IH]; intros j tr pre Hnd Hex.
  - by apply Exists_nil in Hex.
  - csimpl in *. rewrite fmap_app in Hnd. csimpl in Hnd.
    assert (name ∉ pre.*1) by (apply NoDup_app in Hnd as (_ & Hnd & _); set_solver).
    destruct (accepted_dec name) as [Hname|Hname].
    + rewrite add_module_accepted by done.
      cbn [mbind result_bind Separator.dict_training Separator.items].
      apply Exists_cons in Hex as [?|Hex]; [done|].
      destruct (IH (S j) tr (pre ++ [(name, m)])) as (refused & Hraise & ? & ?);
        [by rewrite !fmap_app, <- app_assoc|done|].
      exists refused. split; [done|]. split; [by right|done].
    + rewrite add_module_refused by done. exists name. split; [done|]. split; [by left|done].
Qed.

(** X10 -- Constructing a separator from models under distinct names
    succeeds exactly when [nn.ModuleDict] accepts every name: none is an
    attribute of the container, contains a dot or is empty.  It then
    returns the object of [__init__], whose [nsgts] hold, for every entry
    of [target_models_nsgt], the transforms built from that entry's own base
    under that entry's name, and nothing under any other name.  With a
    refused name it raises [KeyError] for one of the refused names and no
    separator is built. *)
Theorem init_registers_filterbanks
    (target_models : list (string * Separator.TargetModule R))
    (target_models_nsgt : list (string * NSGTBase)) nb_channels chunk_size_samples seq_batch :
  NoDup target_models.*1 → NoDup target_models_nsgt.*1 →
  let constructed :=
    Separator.new make_filterbanks ComplexNorm ModuleDict_hasattr
      target_models target_models_nsgt nb_channels chunk_size_samples seq_batch in
  (Forall accepted target_models.*1 →
   ∃ sep, constructed = Ok sep ∧
     sep = Separator.__init__ make_filterbanks ComplexNorm target_models target_models_nsgt
             nb_channels chunk_size_samples seq_batch ∧
     (∀ name base, (name, base) ∈ target_models_nsgt →
        Separator.nsgts sep !! name = Some (make_filterbanks base)) ∧
     (∀ name, name ∉ target_models_nsgt.*1 → Separator.nsgts sep !! name = None)) ∧
  (Exists (λ name, ¬ accepted name) target_models.*1 →
   ∃ refused, constructed = Raise (KeyError refused) ∧
     refused ∈ target_models.*1 ∧ ¬ accepted refused).
Proof.
  intros Hmodels Hnd constructed. split.
  - intros Hall. eexists. split.
    { unfold constructed, Separator.new, Separator.new_ModuleDict.
      rewrite (add_modules_Ok target_models 0 true []) by done. reflexivity. }
    split; [done|]. split.
    + intros name base Hin. by apply register_present.
    + intros name Hname. simpl. by rewrite register_absent.
  - intros Hex.
    destruct (add_modules_Raise target_models 0 true [] Hmodels Hex) as (refused & Hraise & ? & ?).
    exists refused. split; [|done].
    unfold constructed, Separator.new, Separator.new_ModuleDict. by rewrite Hraise.
Qed.

End separator_init.

(** ** Separator.forward: segments, degenerate inputs, sample order *)

Section separator_segments.
Context {R : Type} `{Scalar R}.
Implicit Types (sep : Separator.t R) (audio seg : Tensor R).

(** X11 -- The first [reshape] of [forward] reads the padded waveform as
    one row-major sequence: element (b, c, i) of segment g is the element
    of the padded input at flat position ((g * S * seq_batch + b) * C + c) *
    chunk + i.  With two channels or more, channel 1 of the first chunk
    holds the second run of [chunk] time steps of channel 0. *)
Theorem segments_are_flat_chunks sep audio S C N sb cs :
  shape audio = [S; C; N] →
  Separator.nb_channels sep = Z.of_nat C →
  Separator.seq_batch sep = Z.of_nat sb → Separator.chunk_size_samples sep = Z.of_nat cs →
  0 < S → 0 < C → 0 < sb → 0 < cs →
  ∃ (p : nat) padded segs,
    Separator.pad_last sep (Z.of_nat N) = Ok (Z.of_nat p) ∧
    F_pad audio (Z.of_nat p) = Ok padded ∧
    Separator.segments sep audio = Ok segs ∧
    length segs * (sb * cs) = N + p ∧
    (∀ g seg, segs !! g = Some seg →
       shape seg = [S * sb; C; cs] ∧
       ∀ b c i, b < S * sb → c < C → i < cs →
         ∃ s' c' t',
           unravel [S; C; N + p] (ravel [length segs; S * sb; C; cs] [g; b; c; i])
             = [s'; c'; t'] ∧
           s' < S ∧ c' < C ∧ t' < N + p ∧
           get seg [b; c; i] = get padded [s'; c'; t']) ∧
    (2 ≤ C → 2 * cs ≤ N + p →
       ∃ seg, segs !! 0 = Some seg ∧
         ∀ i, i < cs → get seg [0; 1; i] = get padded [0; 0; cs + i]).
Proof.
  intros Hs HC Hsb Hcs ? ? ? ?.
  destruct (segments_Ok sep audio S C N sb cs)
    as (p & k & padded & Hp & Hk & _ & Hpad & Hsp & Hwf & _ & Hsegs);
    [done..|].
  set (Q := numel [S * sb; C; cs]) in *.
  eexists p, padded, _. do 3 (split; [done|]).
  rewrite length_fmap, length_seq. split; [lia|].
  assert (Hall : ∀ g seg,
    ((λ g, mkTensor [S * sb; C; cs] (take Q (drop (g * Q) (data padded)))) <$> seq 0 k) !! g
      = Some seg →
    shape seg = [S * sb; C; cs] ∧
    ∀ b c i, b < S * sb → c < C → i < cs →
      ∃ s' c' t',
        unravel [S; C; N + p] (ravel [k; S * sb; C; cs] [g; b; c; i]) = [s'; c'; t'] ∧
        s' < S ∧ c' < C ∧ t' < N + p ∧
        get seg [b; c; i] = get padded [s'; c'; t']).
  { intros g seg Hseg. rewrite list_lookup_fmap in Hseg.
    destruct (seq 0 k !! g) as [g'|] eqn:Hg; [|done]. apply lookup_seq in Hg as [-> Hg].
    injection Hseg as <-. split; [done|]. intros b c i ? ? ?.
    assert (Hr : ravel [S * sb; C; cs] [b; c; i] < Q) by (apply ravel_lt; simpl; tauto).
    set (r := ravel [S * sb; C; cs] [b; c; i]) in *.
    assert (Hflat : ravel [k; S * sb; C; cs] [g; b; c; i] = g * Q + r) by done.
    rewrite Hflat.
    assert (HQ : Q = S * sb * (C * (cs * 1))) by done.
    assert (Hlt : g * Q + r < numel [S; C; N + p]) by (simpl; nia).
    pose proof (unravel_in_range _ _ Hlt) as Hin.
    pose proof (ravel_unravel _ _ Hlt) as Hru.
    destruct (unravel [S; C; N + p] (g * Q + r)) as [|s' [|c' [|t' [|]]]] eqn:Hu; try done.
    destruct Hin as (? & ? & ? & _).
    exists s', c', t'. do 4 (split; [done|]).
    unfold get. cbn [shape data]. fold r. rewrite Hsp, Hru.
    rewrite lookup_total_take_lt by done. by rewrite lookup_total_drop. }
  split; [exact Hall|].
  intros ? ?.
  assert (0 < k) by (destruct k; lia).
  eexists. split; [by rewrite list_lookup_fmap, lookup_seq_lt|].
  intros i Hi.
  destruct (Hall 0 _ ltac:(by rewrite list_lookup_fmap, lookup_seq_lt)) as [_ Hget].
  destruct (Hget 0 1 i) as (s' & c' & t' & Hu & _ & _ & _ & ->); [nia|lia|done|].
  assert (Hflat' : ravel [k; S * sb; C; cs] [0; 0; 1; i] = ravel [S; C; N + p] [0; 0; cs + i])
    by (simpl; lia).
  rewrite Hflat', unravel_ravel in Hu by (simpl; lia). by injection Hu as <- <- <-.
Qed.

End separator_segments.

Section separator_more.
Context {R : Type} `{Scalar R}.
Context {NSGTBase : Type}.
Context (make_filterbanks : NSGTBase → Separator.Filterbank R).
Context (ComplexNorm : bool → Separator.TargetModule R).
Context (phasemix_sep : Tensor R → Tensor R → result (Tensor R)).
Implicit Types (sep : Separator.t R) (audio seg : Tensor R).

Abbreviation run_target := (Separator.run_target phasemix_sep).
Abbreviation separate_segment := (Separator.separate_segment phasemix_sep).
Abbreviation forward_padded := (Separator.forward_padded phasemix_sep).
Abbreviation forward := (Separator.forward phasemix_sep).
Abbreviation target_estimate := (Separator.target_estimate phasemix_sep).
Abbreviation models sep := (Separator.items (Separator.target_models sep)).
Abbreviation names sep := (Separator.keys (Separator.target_models sep)).

(** X12 -- [N/(self.seq_batch*self.chunk_size_samples)] divides two
    Python integers: with [seq_batch] or [chunk_size_samples] equal to 0,
    [forward] raises [ZeroDivisionError] on every input that has a shape. *)
Theorem forward_zero_chunk sep audio :
  shape audio ≠ [] →
  (Separator.seq_batch sep * Separator.chunk_size_samples sep = 0)%Z →
  forward sep audio = Raise ZeroDivisionError.
Proof.
  intros Hne Hz. unfold Separator.forward, Separator.forward_padded.
  destruct (last (shape audio)) as [N|] eqn:HN; [|by apply last_None in HN].
  destruct (head (shape audio)) as [S|] eqn:HS; [|by apply head_None in HS].
  cbn [from_option mbind result_bind].
  unfold Separator.pad_last, Separator.ceil_div. by rewrite decide_True.
Qed.

(** X13 -- On a waveform without time steps the loop over the segments
    does not run and [torch.cat] is given an empty list: [forward] raises
    an exception instead of returning an empty result. *)
Theorem forward_empty_waveform sep audio :
  last (shape audio) = Some 0 →
  (Separator.seq_batch sep * Separator.chunk_size_samples sep ≠ 0)%Z →
  ∃ e, forward sep audio = Raise e.
Proof.
  intros HN Hd. exists RuntimeError.
  unfold Separator.forward. rewrite HN. cbn [from_option mbind result_bind].
  assert (forward_padded sep audio = Raise RuntimeError) as ->; [|done].
  unfold Separator.forward_padded. rewrite HN.
  destruct (head (shape audio)) as [S|] eqn:HS.
  2:{ apply head_None in HS. by rewrite HS in HN. }
  cbn [from_option mbind result_bind].
  unfold Separator.pad_last, Separator.ceil_div. rewrite decide_False by done.
  cbn [mbind result_bind]. change (- Z.of_nat 0)%Z with 0%Z.
  rewrite Z.div_0_l by done.
  change (- 0 * _ * _ - Z.of_nat 0)%Z
    with (0 * Separator.seq_batch sep * Separator.chunk_size_samples sep - 0)%Z.
  replace (0 * Separator.seq_batch sep * Separator.chunk_size_samples sep - 0)%Z
    with 0%Z by lia.
  pose proof HN as [pre Hpre]%last_Some.
  unfold F_pad. rewrite Hpre, reverse_snoc. rewrite decide_False by lia.
  cbn [mbind result_bind]. unfold reshape. cbn [shape data].
  change (Z.to_nat (Z.of_nat 0 + 0)) with 0.
  rewrite reverse_cons, reverse_involutive, numel_last_zero by (by rewrite last_snoc).
  destruct (infer_size _ 0) as [s1|e] eqn:Hs1.
  2:{ by apply infer_size_Raise in Hs1 as ->. }
  apply infer_size_head in Hs1 as (_ & _ & _ & ->).
  rewrite Nat.Div0.div_0_l. done.
Qed.

(** X14 -- A separator without targets returns, for a waveform of shape
    (S, C, N), an empty tensor of shape (S, 0, C, N), which [to_dict] turns
    into the empty mapping. *)
Theorem forward_without_targets sep audio S C N :
  shape audio = [S; C; N] → 0 < S → 0 < C → 0 < N →
  Separator.nb_channels sep = Z.of_nat C →
  (0 < Separator.seq_batch sep)%Z → (0 < Separator.chunk_size_samples sep)%Z →
  Separator.items (Separator.target_models sep) = [] →
  Separator.nb_targets sep = 0 →
  ∃ out, forward sep audio = Ok out ∧
    shape out = [S; 0; C; N] ∧ data out = [] ∧
    Separator.to_dict sep out None = Ok ∅.
Proof.
  intros Hs ? ? ? HC Hsb Hcs Hitems HT.
  set (sb := Z.to_nat (Separator.seq_batch sep)).
  set (cs := Z.to_nat (Separator.chunk_size_samples sep)).
  destruct (forward_Ok phasemix_sep sep audio S C N sb cs) as [out Hout];
    [done|done|lia|lia|done|done|done|lia|lia|rewrite Hitems; simpl; lia
    |intros seg _; rewrite Hitems; constructor|].
  destruct (forward_inv phasemix_sep sep audio S C N sb cs out)
    as (ests & p & _ & _ & Hse & Hso & _); [done|done|lia|lia|lia|lia|done|].
  rewrite HT in Hso, Hse.
  exists out. split; [done|]. split; [done|]. split.
  - unfold Separator.forward in Hout. apply bind_Ok in Hout as (N' & _ & Hout).
    apply bind_Ok in Hout as (ests' & _ & Hout).
    unfold narrow_last in Hout.
    destruct (reverse (shape ests')); simpl in Hout; [discriminate Hout|].
    injection Hout as <-. simpl in Hso |- *. rewrite Hso.
    replace (numel [S; 0; C; N]) with 0 by (simpl; lia). done.
  - unfold Separator.to_dict, Separator.keys. by rewrite Hitems.
Qed.

Lemma separate_segment_missing sep seg name :
  name ∈ names sep → Separator.nsgts sep !! name = None →
  ∃ e, separate_segment sep seg = Raise e.
Proof.
  intros Hname Hnone. unfold Separator.separate_segment. apply for_enumerate_Raise.
  apply list_elem_of_fmap in Hname as ([name' m] & -> & Hin).
  apply Exists_exists. exists (name', m). split; [done|].
  intros j acc. exists (KeyError "nsgt").
  unfold Separator.separate_target, Separator.run_target. simpl in *. by rewrite Hnone.
Qed.

Lemma separate_segment_first_missing sep seg name m rest :
  models sep = (name, m) :: rest → Separator.nsgts sep !! name = None →
  separate_segment sep seg = Raise (KeyError "nsgt").
Proof.
  intros Hitems Hnone. unfold Separator.separate_segment. rewrite Hitems.
  cbn [for_enumerate].
  assert (∀ acc, Separator.separate_target phasemix_sep sep seg 0 (name, m) acc
                 = Raise (KeyError "nsgt")) as ->; [|done].
  intros acc. unfold Separator.separate_target, Separator.run_target. cbn [fst snd].
  by rewrite Hnone.
Qed.

(** X15 -- A separator with a registered target that has no entry in
    [target_models_nsgt] never returns from [forward]; when that target is
    the first one and the input is not degenerate, the exception is the
    [KeyError] of the lookup of ['nsgt'] in the empty default entry. *)
Theorem forward_needs_every_filterbank
    (target_models : list (string * Separator.TargetModule R))
    (target_models_nsgt : list (string * NSGTBase)) nb_channels chunk_size_samples seq_batch
    name audio :
  let sep := Separator.__init__ make_filterbanks ComplexNorm target_models target_models_nsgt
               nb_channels chunk_size_samples seq_batch in
  name ∈ target_models.*1 → name ∉ target_models_nsgt.*1 →
  (∃ e, forward sep audio = Raise e) ∧
  (∀ S C N, shape audio = [S; C; N] → 0 < S → 0 < C → 0 < N →
     nb_channels = Z.of_nat C → (0 < seq_batch)%Z → (0 < chunk_size_samples)%Z →
     head target_models.*1 = Some name →
     forward sep audio = Raise (KeyError "nsgt")).
Proof.
  intros sep Hreg Hmiss.
  assert (Hnone : Separator.nsgts sep !! name = None) by (simpl; by rewrite register_absent).
  split.
  - destruct (forward sep audio) as [out|e] eqn:Hrun; [exfalso|by exists e].
    unfold Separator.forward in Hrun. apply bind_Ok in Hrun as (N & _ & Hrun).
    apply bind_Ok in Hrun as (ests & Hests & _).
    rewrite forward_padded_segments in Hests.
    apply bind_Ok in Hests as (S & _ & Hests). apply bind_Ok in Hests as (N' & _ & Hests).
    apply bind_Ok in Hests as (p & _ & Hests). apply bind_Ok in Hests as (segs & _ & Hests).
    apply bind_Ok in Hests as (es & Hes & Hests). apply bind_Ok in Hests as (st & Hst & _).
    destruct segs as [|seg segs].
    + injection Hes as <-. done.
    + cbn [for_each] in Hes. apply bind_Ok in Hes as (e0 & He0 & _).
      destruct (separate_segment_missing sep seg name) as [e He]; [done..|]. congruence.
  - intros S C N Hs ? ? ? HC ? ? Hhead.
    destruct (segments_Ok sep audio S C N (Z.to_nat seq_batch) (Z.to_nat chunk_size_samples))
      as (p & k & padded & Hp & _ & Hk & _ & _ & _ & _ & Hsegs);
      [done|done|simpl; lia|simpl; lia|lia..|].
    specialize (Hk ltac:(done)).
    unfold Separator.forward. rewrite Hs. cbn [last from_option mbind result_bind].
    rewrite forward_padded_segments, Hs. cbn [head last from_option mbind result_bind].
    rewrite Hp. cbn [mbind result_bind]. rewrite Hsegs. cbn [mbind result_bind].
    destruct k as [|k]; [lia|]. cbn [seq fmap list_fmap for_each].
    match goal with |- context [separate_segment sep ?seg] =>
      assert (separate_segment sep seg = Raise (KeyError "nsgt")) as ->; [|done] end.
    destruct target_models as [|[name' m] rest]; [done|]. injection Hhead as ->.
    by apply (separate_segment_first_missing sep _ name m rest).
Qed.

Lemma target_estimate_segments sep audio item :
  target_estimate sep audio item
  = (nb_samples ← from_option IndexError (head (shape audio));
     N ← from_option IndexError (last (shape audio));
     pad_last ← Separator.pad_last sep (Z.of_nat N);
     audio_segs ← Separator.segments sep audio;
     ys ← for_each (λ audio_seg,
            y ← run_target sep audio_seg item.1 item.2;
            setitem_value y (shape audio_seg)) audio_segs;
     Ok (mkTensor [nb_samples; Z.to_nat (Separator.nb_channels sep);
                   Z.to_nat (Z.of_nat N + pad_last)]
                  (concat (data <$> ys)))).
Proof.
  unfold Separator.target_estimate, Separator.segments.
  destruct (head (shape audio)) as [S|]; [|done].
  destruct (last (shape audio)) as [N|]; [|done]. cbn [from_option mbind result_bind].
  destruct (Separator.pad_last sep (Z.of_nat N)) as [p|]; [|done]. cbn [mbind result_bind].
  destruct (F_pad audio p) as [padded|]; [|done]. cbn [mbind result_bind].
  destruct (reshape padded _) as [audio_segs|]; [|done]. done.
Qed.

(** X16 -- Chunking and reassembly are inverse to each other: when the
    pipeline of target [j] applies a function [f j] to every sample of a
    segment, slot [j] of the output holds [f j] of every sample of the
    input, at the sample's own position. *)
Theorem forward_is_samplewise sep audio S C N (f : nat → R → R) :
  shape audio = [S; C; N] → 0 < S → 0 < C → 0 < N →
  Separator.nb_channels sep = Z.of_nat C →
  (0 < Separator.seq_batch sep)%Z → (0 < Separator.chunk_size_samples sep)%Z →
  Separator.nb_targets sep = length (models sep) →
  (∀ j item seg, models sep !! j = Some item →
     shape seg = [S * Z.to_nat (Separator.seq_batch sep); C;
                  Z.to_nat (Separator.chunk_size_samples sep)] →
     run_target sep seg item.1 item.2 = Ok (mkTensor (shape seg) (f j <$> data seg))) →
  ∃ out, forward sep audio = Ok out ∧
    shape out = [S; Separator.nb_targets sep; C; N] ∧
    ∀ s j c t, s < S → j < Separator.nb_targets sep → c < C → t < N →
      get out [s; j; c; t] = f j (get audio [s; c; t]).
Proof.
  intros Hs ? ? ? HC Hsb Hcs HT Hpipe.
  set (sb := Z.to_nat (Separator.seq_batch sep)) in *.
  set (cs := Z.to_nat (Separator.chunk_size_samples sep)) in *.
  assert (Hsb' : Separator.seq_batch sep = Z.of_nat sb) by lia.
  assert (Hcs' : Separator.chunk_size_samples sep = Z.of_nat cs) by lia.
  destruct (forward_Ok phasemix_sep sep audio S C N sb cs) as [out Hout];
    [done|done|done|done|lia..| |].
  { intros seg Hseg. apply Forall_forall. intros item Hitem.
    apply list_elem_of_lookup in Hitem as [j Hj]. eexists. split; [by eapply Hpipe|done]. }
  destruct (forward_inv phasemix_sep sep audio S C N sb cs out)
    as (ests & p & Hests & Hp & Hse & Hso & Hcrop); [done..|lia|lia|done|].
  exists out. split; [done|]. split; [done|].
  intros s j c t ? Hj ? ?. rewrite Hcrop by done.
  destruct (forward_padded_inv phasemix_sep sep audio S C N sb cs ests)
    as (p' & Hp' & _ & Hitems); [done..|lia|lia|done|].
  assert (p' = p) as -> by (rewrite Hp in Hp'; injection Hp'; lia).
  rewrite HT in Hj. apply lookup_lt_is_Some_2 in Hj as [item Hitem].
  destruct (Hitems j item Hitem) as (_ & w & Hw & _ & Hget).
  rewrite Hget by (done || lia).
  destruct (segments_Ok sep audio S C N sb cs)
    as (p'' & k & padded & Hp'' & Hk & _ & Hpad & Hsp & Hwf & Hpadded & Hsegs); [done..|lia|lia|].
  assert (p'' = p) as -> by (rewrite Hp in Hp''; injection Hp''; lia).
  set (Q := numel [S * sb; C; cs]) in *.
  assert (HQ : Q = S * sb * (C * (cs * 1))) by done.
  assert (Hlen : length (data padded) = k * Q) by (rewrite Hwf, Hsp; simpl; nia).
  rewrite target_estimate_segments, Hs in Hw. cbn [head last from_option mbind result_bind] in Hw.
  rewrite Hp in Hw. cbn [mbind result_bind] in Hw. rewrite Hsegs in Hw.
  cbn [mbind result_bind] in Hw.
  erewrite (for_each_fmap _ (λ seg, mkTensor (shape seg) (f j <$> data seg))) in Hw.
  2:{ apply Forall_fmap, Forall_forall. intros g [_ Hg]%elem_of_seq. unfold compose.
      cbn [shape data].
      rewrite (Hpipe j item (mkTensor [S * sb; C; cs] (take Q (drop (g * Q) (data padded))))
                 Hitem eq_refl).
      cbn [mbind result_bind shape data].
      match goal with |- setitem_value ?y _ = _ =>
        destruct (setitem_value_same y (shape y) eq_refl) as [y' Hy'];
        pose proof (setitem_value_data y y') as Hyy end.
      cbn [shape] in Hy', Hyy. rewrite Hy'. f_equal. apply Hyy; [|done].
      unfold wf. cbn [shape data]. rewrite length_fmap, length_take, length_drop. fold Q. nia. }
  injection Hw as <-.
  unfold get. cbn [shape data].
  rewrite <- !list_fmap_compose.
  rewrite (list_fmap_ext _ (fmap (f j) ∘ (λ g, take Q (drop (g * Q) (data padded)))) (seq 0 k))
    by done.
  rewrite list_fmap_compose, concat_fmap_fmap, concat_chunks.
  rewrite take_ge by lia.
  rewrite HC, <- Nat2Z.inj_add, !Nat2Z.id.
  assert (Hr : ravel [S; C; N + p] [s; c; t] < numel [S; C; N + p])
    by (apply ravel_lt; simpl; lia).
  rewrite (@list_lookup_total_fmap R R (f j) _ _) by (by rewrite Hwf, Hsp).
  f_equal. rewrite <- Hsp. fold (get padded [s; c; t]).
  rewrite Hpadded by (done || lia). by rewrite decide_True.
Qed.

End separator_more.

(** ** Separator.to_dict: when it returns *)

Section to_dict_more.
Context {R : Type} `{Scalar R}.
Implicit Types (sep : Separator.t R) (estimates : Tensor R).

Abbreviation names sep := (Separator.keys (Separator.target_models sep)).

Lemma slices_fits estimates (nms : list string) : ∀ k0 acc d,
  for_enumerate (Separator.slice_target estimates) k0 nms acc = Ok d →
  nms = [] ∨ ∃ a b s, shape estimates = a :: b :: s ∧ k0 + length nms ≤ b.
Proof.
  induction nms as [|name nms IH]; intros k0 acc d Hd; [by left|]. right.
  cbn [for_enumerate] in Hd. apply bind_Ok in Hd as (acc' & Hslice & Hd).
  unfold Separator.slice_target in Hslice. apply bind_Ok in Hslice as (slice & Hslice & _).
  apply select1_shape in Hslice as (a & b & s & Hs & ? & _).
  exists a, b, s. split; [done|].
  apply IH in Hd as [->|(a' & b' & s' & Hs' & ?)]; simpl; [lia|].
  rewrite Hs in Hs'. injection Hs' as <- <- <-. lia.
Qed.

Lemma slices_result estimates (nms : list string) d0 :
  for_enumerate (Separator.slice_target estimates) 0 nms ∅ = Ok d0 →
  dom d0 = list_to_set nms ∧
  ∃ s, ∀ t x, d0 !! t = Some x → shape x = s ∧ wf x.
Proof.
  intros Hd0. destruct (slices_inv estimates nms 0 ∅ d0 Hd0) as (Hdom & _ & Hsl & _).
  split; [by rewrite Hdom, dom_empty_L, (left_id_L ∅ (∪))|].
  exists (match shape estimates with a :: _ :: s => a :: s | _ => [] end).
  intros t x Hx. apply Hsl in Hx as [Hx|(i & _ & Hx)]; [by rewrite lookup_empty in Hx|].
  apply select1_shape in Hx as (a & b & s & -> & _ & -> & ?). done.
Qed.

Lemma aggregate_groups_cases (d0 : gmap string (Tensor R)) s agg new :
  (∀ t x, d0 !! t = Some x → shape x = s ∧ wf x) →
  (Forall (λ item, Forall (λ t, is_Some (d0 !! t)) item.2) agg ∧
   is_Ok (Separator.for_in (Separator.aggregate_group d0) agg new)) ∨
  (¬ Forall (λ item, Forall (λ t, is_Some (d0 !! t)) item.2) agg ∧
   ∃ target, Separator.for_in (Separator.aggregate_group d0) agg new = Raise (KeyError target) ∧
     d0 !! target = None).
Proof.
  intros Hd0.
  destruct (decide (Forall (λ item : string * list string,
                              Forall (λ t, is_Some (d0 !! t)) item.2) agg)) as [Hall|Hex].
  - left. split; [done|].
    destruct (aggregate_groups_spec d0 s agg Hd0 Hall new) as (d & -> & _). by exists d.
  - right. split; [done|].
    destruct (aggregate_groups_raise d0 s) with agg new as (target & Hraise & Hnone & _).
    + intros t x Hx. by apply Hd0 in Hx as [? _].
    + apply not_Forall_Exists in Hex; [|apply _].
      eapply Exists_impl; [exact Hex|]. intros item Hitem. simpl in Hitem.
      apply not_Forall_Exists in Hitem; [|apply _].
      eapply Exists_impl; [exact Hitem|]. intros t Ht. simpl in Ht.
      by apply eq_None_not_Some.
    + by exists target.
Qed.

(** X17 -- [to_dict] returns exactly when the estimates have a slot on
    axis 1 for every registered target and every group names registered
    targets only; it raises [IndexError] exactly when a slot is missing,
    whatever the groups are. *)
Theorem to_dict_domain sep estimates (aggregate_dict : option (list (string * list string))) :
  let fits :=
    names sep = [] ∨
    ∃ a b s, shape estimates = a :: b :: s ∧ length (names sep) ≤ b in
  let registered :=
    ∀ groups, aggregate_dict = Some groups →
      Forall (λ item, Forall (λ target, target ∈ names sep) item.2) groups in
  (is_Ok (Separator.to_dict sep estimates aggregate_dict) ↔ fits ∧ registered) ∧
  (Separator.to_dict sep estimates aggregate_dict = Raise IndexError ↔ ¬ fits).
Proof.
  intros fits registered. unfold Separator.to_dict.
  destruct (for_enumerate (Separator.slice_target estimates) 0 (names sep) ∅)
    as [d0|e] eqn:Hd0.
  - assert (Hfits : fits).
    { apply slices_fits in Hd0 as [?|(a & b & s & ? & ?)]; [by left|right].
      exists a, b, s. split; [done|lia]. }
    destruct (slices_result _ _ _ Hd0) as (Hdom & s & Hshape).
    assert (Hin : ∀ t, is_Some (d0 !! t) ↔ t ∈ names sep).
    { intros t. by rewrite <- elem_of_dom, Hdom, elem_of_list_to_set. }
    cbn [mbind result_bind].
    destruct aggregate_dict as [groups|].
    + destruct (aggregate_groups_cases d0 s groups ∅ Hshape)
        as [[Hall [d Hd]]|[Hex (t & Hraise & _)]].
      * rewrite Hd. split.
        -- split; [|intros _; by exists d]. intros _. split; [done|]. intros g [= <-].
           eapply Forall_impl; [exact Hall|]. intros item Hitem.
           eapply Forall_impl; [exact Hitem|]. intros t. apply Hin.
        -- split; [done|]. intros Hn. by destruct Hn.
      * rewrite Hraise. split.
        -- split; [by intros [d Hd]|]. intros [_ Hreg]. destruct Hex.
           specialize (Hreg _ eq_refl).
           eapply Forall_impl; [exact Hreg|]. intros item Hitem.
           eapply Forall_impl; [exact Hitem|]. intros t'. apply Hin.
        -- split; [done|]. intros Hn. by destruct Hn.
    + split.
      * split; [|intros _; by exists d0]. intros _. split; [done|]. by intros g.
      * split; [done|]. intros Hn. by destruct Hn.
  - assert (Hfits : ¬ fits).
    { intros [Hnil|(a & b & s & Hs & Hlen)].
      - by rewrite Hnil in Hd0.
      - destruct (slices_Ok estimates a b s (names sep) 0 ∅ Hs Hlen) as [d Hd]. congruence. }
    apply slices_Raise in Hd0 as ->. cbn [mbind result_bind].
    split; [split|done].
    + by intros [d Hd].
    + by intros [? _].
Qed.

End to_dict_more.

(** * On the small instance *)

(** ** The claims on the small instance *)

#[global] Instance Qc_exact : ExactArithmetic Qc Qcminus Qcdiv.
Proof.
  split; simpl.
  - done.
  - intros x y. unfold Qcdiv. by rewrite Qcmult_1_l.
  - apply Qcplus_0_r.
  - apply Qcmult_1_r.
Qed.

Lemma demo_forward : ∃ out, Separator.forward Demo.phasemix_sep Demo.sep Demo.audio = Ok out.
Proof. vm_compute. eexists. reflexivity. Defined.

Lemma demo_pipelines :
  Separator.pipelines_keep_shape Demo.phasemix_sep Demo.sep [2; 1; 2].
Proof.
  intros seg Hseg. unfold Separator.run_target. rewrite Hseg.
  repeat constructor; eexists; (split; [vm_compute; reflexivity|done]).
Qed.

Lemma forward_keeps_length_witness :
  ∃ out, Separator.forward Demo.phasemix_sep Demo.sep Demo.audio = Ok out ∧
    shape out = [1; Separator.nb_targets Demo.sep; 1; 5] ∧ last (shape out) = Some 5.
Proof.
  apply (forward_keeps_length Demo.phasemix_sep Demo.sep Demo.audio 1 1 5);
    [reflexivity|lia|lia|lia|reflexivity|reflexivity|reflexivity|reflexivity|].
  exact demo_pipelines.
Defined.

Lemma demo_forward' : ∃ out, Separator.forward Demo.phasemix_sep Demo.sep' Demo.audio = Ok out.
Proof. vm_compute. eexists. reflexivity. Defined.

Lemma demo_names_NoDup : NoDup (Separator.keys (Separator.target_models Demo.sep)).
Proof. compute_done. Qed.

Lemma padding_is_least_multiple_and_is_cropped_witness :
  ∃ (pad_last k : nat) padded out ests,
    Separator.pad_last Demo.sep 5 = Ok (Z.of_nat pad_last) ∧
    5 + pad_last = k * 4 ∧
    (∀ m, m mod 4 = 0 → 5 ≤ m → 5 + pad_last ≤ m) ∧
    F_pad Demo.audio (Z.of_nat pad_last) = Ok padded ∧
    shape padded = [1; 1; 5 + pad_last] ∧
    Separator.segments Demo.sep Demo.audio
    = Ok ((λ g, mkTensor [2; 1; 2] (take 4 (drop (g * 4) (data padded)))) <$> seq 0 k) ∧
    Separator.forward Demo.phasemix_sep Demo.sep Demo.audio = Ok out ∧
    Separator.forward_padded Demo.phasemix_sep Demo.sep Demo.audio = Ok ests ∧
    shape ests = [1; 2; 1; 5 + pad_last] ∧
    shape out = [1; 2; 1; 5].
Proof.
  destruct (padding_is_least_multiple_and_is_cropped Demo.phasemix_sep Demo.sep Demo.audio
              1 1 5 eq_refl ltac:(lia) ltac:(lia) eq_refl eq_refl eq_refl ltac:(vm_compute; discriminate))
    as (pad_last & k & padded & Hp & Hk & _ & Hmin & Hpad & Hsp & _ & Hsegs & _ & _
        & Hcrop & Hruns).
  destruct (Hruns ltac:(lia) eq_refl demo_pipelines) as [out Hout].
  destruct (Hcrop out Hout) as (ests & Hests & Hse & Hso & _).
  exists pad_last, k, padded, out, ests. repeat split; assumption.
Defined.

Lemma target_axis_follows_registry_order_witness :
  ∃ out d, Separator.forward Demo.phasemix_sep Demo.sep Demo.audio = Ok out ∧
    Separator.to_dict Demo.sep out None = Ok d ∧
    dom d = list_to_set ["vocals"; "drums"] ∧ size d = 2.
Proof.
  destruct demo_forward as [out Hout]. exists out.
  destruct (target_axis_follows_registry_order Demo.phasemix_sep Demo.sep Demo.audio
              1 1 5 out eq_refl eq_refl eq_refl eq_refl demo_names_NoDup eq_refl Hout)
    as [_ Hdict].
  destruct (forward_inv Demo.phasemix_sep Demo.sep Demo.audio 1 1 5 2 2 out)
    as (_ & _ & _ & _ & _ & Hso & _); [reflexivity|reflexivity|reflexivity|reflexivity|lia|lia|exact Hout|].
  destruct (Hdict out 1 2 [1; 5] Hso (le_n 2)) as (d & Hd & Hdom & Hsize & _).
  exists d. repeat split; assumption.
Defined.

Lemma demo_differ : Separator.differ_only_at 1 Demo.sep Demo.sep'.
Proof.
  unfold Separator.differ_only_at. do 5 (split; [reflexivity|]).
  intros j item Hj Hitem. destruct j as [|[|j]]; [|done|done].
  injection Hitem as <-. split; reflexivity.
Qed.

Lemma targets_are_independent_witness :
  ∃ outA outB slice,
    Separator.forward Demo.phasemix_sep Demo.sep Demo.audio = Ok outA ∧
    Separator.forward Demo.phasemix_sep Demo.sep' Demo.audio = Ok outB ∧
    select1 outA 0 = Ok slice ∧ select1 outB 0 = Ok slice.
Proof.
  destruct demo_forward as [outA HoutA]. destruct demo_forward' as [outB HoutB].
  destruct (targets_are_independent Demo.phasemix_sep 1 Demo.sep Demo.sep' Demo.audio
              1 1 5 outA outB demo_differ eq_refl eq_refl eq_refl eq_refl HoutA HoutB)
    as [Hslices _].
  destruct (Hslices 0 ("vocals", Demo.identity) (Nat.neq_succ_diag_r 0) eq_refl)
    as (slice & ? & ?).
  exists outA, outB, slice. repeat split; assumption.
Defined.

Lemma to_dict_aggregates_witness :
  ∃ d, Separator.to_dict Demo.sep Demo.estimates
         (Some [("vocals_and_drums", ["vocals"; "drums"])]) = Ok d ∧
    dom d = list_to_set ["vocals_and_drums"].
Proof.
  destruct (to_dict_aggregates Demo.sep Demo.estimates 1 2 [1; 2]
              [("vocals_and_drums", ["vocals"; "drums"])]) as (d & Hd & Hdom & _).
  - reflexivity.
  - simpl. lia.
  - compute_done.
  - repeat constructor; compute_done.
  - exists d. split; assumption.
Defined.

Lemma to_dict_unknown_target_raises_witness :
  ∃ target, Separator.to_dict Demo.sep Demo.estimates
              (Some [("vocals_and_piano", ["vocals"; "piano"])]) = Raise (KeyError target).
Proof.
  destruct (to_dict_unknown_target_raises Demo.sep Demo.estimates
              [("vocals_and_piano", ["vocals"; "piano"])]) as [_ Hkey].
  - apply Exists_cons_hd, Exists_cons_tl, Exists_cons_hd.
    compute_done.
  - destruct (Hkey 1 2 [1; 2] eq_refl) as (target & Hrun & _); [simpl; lia|].
    by exists target.
Defined.

(** C5, as stated, fails: a batch of two spectrograms with 105 sub-bins
    is accepted by a fresh stereo network for 21 bins, and comes back with
    113 sub-bins. *)
Lemma forward_changes_last_dimension :
  ∃ y, OpenUnmix.forward Demo.kernel Demo.net Demo.spectrogram = Ok y ∧
    shape Demo.spectrogram = [2; 2; 21; 9; 105] ∧
    shape y = [2; 2; 21; 9; 113] ∧
    shape y ≠ shape Demo.spectrogram.
Proof.
  destruct (forward_spec Demo.kernel Demo.net Demo.spectrogram 2 2 21 9 105 21 21)
    as (y & Hy & Hsy);
    [reflexivity|apply (init_has_architecture Demo.init)|reflexivity|reflexivity|lia
    |reflexivity|lia|lia|lia|lia|lia|lia|vm_compute; lia|].
  exists y. split; [done|]. split; [done|]. split; [exact Hsy|]. rewrite Hsy. done.
Qed.

Lemma forward_output_shape_witness :
  ∃ y, OpenUnmix.forward Demo.kernel Demo.net Demo.spectrogram = Ok y ∧
    shape y = [2; 2; 21; 9; 9 * (((105 - 42) / 3 - 21) / 3 + 1) + 104] ∧
    (shape y = shape Demo.spectrogram ↔ 105 mod 9 = 5).
Proof.
  apply (forward_output_shape Demo.kernel Demo.net Demo.spectrogram 2 2 21 9 105 21 21);
    [reflexivity|apply (init_has_architecture Demo.init)|reflexivity|reflexivity|lia
    |reflexivity|lia|lia|lia|lia|lia|lia|vm_compute; lia].
Defined.

Lemma forward_returns_decoder_output_witness :
  ∃ dec y, OpenUnmix.decoder_output Demo.kernel Demo.net Demo.spectrogram = Ok dec ∧
    OpenUnmix.forward Demo.kernel Demo.net Demo.spectrogram = Ok y ∧
    get y [0; 0; 0; 0; 0] = get dec [0; 0; 0; 0; 0].
Proof.
  destruct (forward_returns_decoder_output Demo.kernel Demo.net Demo.spectrogram
              2 2 21 9 105 21 21)
    as (last & before & dec & y & _ & _ & _ & Hdec & Hy & _ & Hget);
    [reflexivity|apply (init_has_architecture Demo.init)|reflexivity|reflexivity|lia
    |reflexivity|lia|lia|lia|lia|lia|lia|vm_compute; lia|].
  exists dec, y. split; [exact Hdec|]. split; [exact Hy|].
  apply (Hget 0 0 0 0 0); vm_compute; lia.
Defined.

Lemma normalization_is_standardization_witness :
  ∃ y e, OpenUnmix.normalize Demo.small_net Demo.small_spectrogram = Ok y ∧
    OpenUnmix.encoder_input Demo.small_net Demo.small_spectrogram = Ok e ∧
    data e = data y ∧
    get y [0; 0; 0; 0] = ((Demo.q 1 + - Demo.q 2) * (1 / Demo.q 4))%Qc ∧
    get y [0; 0; 0; 0] = ((Demo.q 1 - Demo.q 2) / Demo.q 4)%Qc.
Proof.
  destruct (normalization_is_standardization Demo.kernel Demo.init 3 2 1
              (Some Demo.mean) (Some Demo.scale) Demo.small_spectrogram 1 1 2 2)
    as (_ & _ & y & e & Hy & _ & He & _ & Hde & _ & Hget).
  - reflexivity.
  - lia.
  - intros m [= <-]. split; [reflexivity|]. exists 3. split; [reflexivity|lia].
  - intros s [= <-]. split; [reflexivity|]. exists 3. split; [reflexivity|lia].
  - exists y, e. split; [exact Hy|]. split; [exact He|]. split; [exact Hde|].
    destruct (Hget 0 0 0 0 0) as (_ & Hstd & _); try lia.
    destruct (Hstd Demo.mean Demo.scale eq_refl eq_refl) as (_ & _ & Haffine & Hexact).
    split; [exact Haffine|]. exact (Hexact Qcminus Qcdiv Qc_exact).
Defined.

(** ** The further properties on the small instance *)

Lemma forward_rejects_other_ranks_witness :
  OpenUnmix.forward Demo.kernel Demo.net (zeros [2; 2; 21; 9]) = Raise ValueError.
Proof. apply forward_rejects_other_ranks. simpl. lia. Defined.

Lemma forward_accepts_only_witness :
  ∃ y S F T M, OpenUnmix.forward Demo.kernel Demo.net Demo.spectrogram = Ok y ∧
    shape Demo.spectrogram = [S; 2; F; T; M] ∧ 0 < S ∧ 21 ≤ F ∧ 9 ≤ T ∧ 105 ≤ M.
Proof.
  destruct (forward_spec Demo.kernel Demo.net Demo.spectrogram 2 2 21 9 105 21 21)
    as (y & Hy & _);
    [reflexivity|apply (init_has_architecture Demo.init)|reflexivity|reflexivity|lia
    |reflexivity|lia|lia|lia|lia|lia|lia|vm_compute; lia|].
  destruct (forward_accepts_only Demo.kernel 2 Demo.net Demo.spectrogram y
              (init_has_architecture Demo.init 21 105 2 None None) Hy)
    as (S & F & T & M & Hs & ? & _ & ? & ? & ? & _).
  exists y, S, F, T, M. repeat split; assumption.
Defined.

Lemma frozen_forward_accepts_witness :
  ∃ y, OpenUnmix.forward Demo.kernel (OpenUnmix.freeze Demo.net) (zeros [1; 2; 21; 9; 105])
       = Ok y ∧
    shape y = [1; 2; 21; 9; 9 * (((105 - 42) / 3 - 21) / 3 + 1) + 104].
Proof.
  apply (frozen_forward_accepts Demo.kernel Demo.net (zeros [1; 2; 21; 9; 105])
           1 2 21 9 105 21 21);
    [reflexivity|apply (init_has_architecture Demo.init)|reflexivity|reflexivity|lia
    |reflexivity|lia|lia|lia|lia|lia|lia].
Defined.

Lemma fresh_forward_needs_two_values_witness :
  OpenUnmix.forward Demo.kernel Demo.net (zeros [1; 2; 21; 9; 105]) = Raise ValueError.
Proof.
  apply (fresh_forward_needs_two_values Demo.kernel Demo.init 21 105 2 None None
           (zeros [1; 2; 21; 9; 105]) 1 9 105);
    [reflexivity|intros m [=]|intros s [=]|lia|lia|lia|lia|vm_compute; reflexivity].
Defined.

Lemma forward_rejects_other_bins_witness :
  OpenUnmix.forward Demo.kernel Demo.net (zeros [2; 2; 20; 9; 105]) = Raise RuntimeError.
Proof.
  apply (forward_rejects_other_bins Demo.kernel 2 Demo.net (zeros [2; 2; 20; 9; 105])
           2 2 20 9 105 21 21);
    [apply (init_has_architecture Demo.init)|reflexivity|reflexivity|simpl; lia
    |reflexivity|simpl; lia|simpl; lia|simpl; lia].
Defined.

Lemma encoder_input_layout_witness :
  ∃ e, OpenUnmix.encoder_input Demo.small_net Demo.small_spectrogram = Ok e ∧
    get e [0; 0; 0; 0; 1]
    = mul (add (get Demo.small_spectrogram [0; 0; 1; 0; 0])
               (take 3 (data (NN.value (OpenUnmix.input_mean Demo.small_net))) !!! 1))
          (take 3 (data (NN.value (OpenUnmix.input_scale Demo.small_net))) !!! 1).
Proof.
  destruct (encoder_input_layout Demo.small_net Demo.small_spectrogram 1 1 3 2 2 3 3)
    as (e & He & _ & _ & Hsub);
    [reflexivity|reflexivity|reflexivity|lia|reflexivity|lia|lia|].
  exists e. split; [exact He|]. apply (Hsub 1); lia.
Defined.

Lemma init_registers_filterbanks_witness :
  Separator.new (λ _ : unit, Demo.filterbank) (λ _, Demo.identity) Demo.hasattr
    [("vocals", Demo.identity); ("drums", Demo.identity)]
    [("vocals", tt); ("drums", tt)] 1 2 2 = Ok Demo.sep ∧
  Separator.nsgts Demo.sep !! "drums" = Some Demo.filterbank ∧
  ∃ refused,
    Separator.new (λ _ : unit, Demo.filterbank) (λ _, Demo.identity) Demo.hasattr
      [("vocals", Demo.identity); ("keys", Demo.identity)]
      [("vocals", tt); ("keys", tt)] 1 2 2 = Raise (KeyError refused).
Proof.
  destruct (init_registers_filterbanks (λ _ : unit, Demo.filterbank) (λ _, Demo.identity)
              Demo.hasattr [("vocals", Demo.identity); ("drums", Demo.identity)]
              [("vocals", tt); ("drums", tt)] 1 2 2) as [Hbuilt _];
    [compute_done|compute_done|].
  destruct Hbuilt as (sep & Hsep & -> & Hreg & _).
  { repeat constructor; compute_done. }
  split; [exact Hsep|]. split; [apply (Hreg "drums" tt); compute_done|].
  destruct (init_registers_filterbanks (λ _ : unit, Demo.filterbank) (λ _, Demo.identity)
              Demo.hasattr [("vocals", Demo.identity); ("keys", Demo.identity)]
              [("vocals", tt); ("keys", tt)] 1 2 2) as [_ Hrefused];
    [compute_done|compute_done|].
  destruct Hrefused as (refused & Hraise & _).
  { right. left. intros (Hattr & _). discriminate Hattr. }
  exists refused. exact Hraise.
Defined.

Lemma forward_zero_chunk_witness :
  Separator.forward Demo.phasemix_sep
    (Separator.__init__ (λ _ : unit, Demo.filterbank) (λ _, Demo.identity)
       [("vocals", Demo.identity)] [("vocals", tt)] 1 0 2)
    Demo.audio = Raise ZeroDivisionError.
Proof. apply forward_zero_chunk; [discriminate|reflexivity]. Defined.

Lemma forward_empty_waveform_witness :
  ∃ e, Separator.forward Demo.phasemix_sep Demo.sep (mkTensor [1; 1; 0] []) = Raise e.
Proof. apply forward_empty_waveform; [reflexivity|simpl; lia]. Defined.

Lemma forward_needs_every_filterbank_witness :
  ∃ e, Separator.forward Demo.phasemix_sep Demo.incomplete_sep Demo.audio = Raise e.
Proof.
  destruct (forward_needs_every_filterbank (λ _ : unit, Demo.filterbank) (λ _, Demo.identity)
              Demo.phasemix_sep [("vocals", Demo.identity); ("drums", Demo.identity)]
              [("vocals", tt)] 1 2 2 "drums" Demo.audio) as [Hraise _];
    [compute_done|compute_done|exact Hraise].
Defined.

Lemma forward_is_samplewise_witness :
  ∃ out, Separator.forward Demo.phasemix_sep Demo.sep Demo.audio = Ok out ∧
    shape out = [1; 2; 1; 5] ∧
    get out [0; 1; 0; 3] = get Demo.audio [0; 0; 3].
Proof.
  destruct (forward_is_samplewise Demo.phasemix_sep Demo.sep Demo.audio 1 1 5 (λ _ x, x))
    as (out & Hout & Hs & Hget);
    [reflexivity|lia|lia|lia|reflexivity|reflexivity|reflexivity|reflexivity| |].
  - intros j item [s d] Hitem Hseg. simpl in Hseg. subst s. rewrite list_fmap_id.
    destruct j as [|[|j]]; [| |discriminate Hitem]; injection Hitem as <-; reflexivity.
  - exists out. split; [exact Hout|]. split; [exact Hs|]. apply Hget; simpl; lia.
Defined.

Lemma segments_are_flat_chunks_witness :
  ∃ (p : nat) padded segs seg,
    F_pad Demo.stereo_audio (Z.of_nat p) = Ok padded ∧
    Separator.segments Demo.stereo_sep Demo.stereo_audio = Ok segs ∧
    segs !! 0 = Some seg ∧
    get seg [0; 1; 0] = get padded [0; 0; 2 + 0].
Proof.
  destruct (segments_are_flat_chunks Demo.stereo_sep Demo.stereo_audio 1 2 4 1 2)
    as (p & padded & segs & _ & Hpad & Hsegs & _ & _ & Hstereo);
    [reflexivity|reflexivity|reflexivity|reflexivity|lia|lia|lia|lia|].
  destruct Hstereo as (seg & Hseg & Hget); [lia|lia|].
  exists p, padded, segs, seg. repeat split; try assumption. apply Hget. lia.
Defined.

Lemma forward_widens_sub_bins_witness :
  ∃ y S F T M M', OpenUnmix.forward Demo.kernel Demo.net Demo.spectrogram = Ok y ∧
    shape Demo.spectrogram = [S; 2; F; T; M] ∧ shape y = [S; 2; F; T; M'] ∧
    M ≤ M' ∧ M' ≤ M + 8.
Proof.
  destruct (forward_spec Demo.kernel Demo.net Demo.spectrogram 2 2 21 9 105 21 21)
    as (y & Hy & _);
    [reflexivity|apply (init_has_architecture Demo.init)|reflexivity|reflexivity|lia
    |reflexivity|lia|lia|lia|lia|lia|lia|vm_compute; lia|].
  destruct (forward_widens_sub_bins Demo.kernel 2 Demo.net Demo.spectrogram y
              (init_has_architecture Demo.init 21 105 2 None None) Hy)
    as (S & F & T & M & M' & ? & ? & ? & ? & _).
  exists y, S, F, T, M, M'. repeat split; assumption.
Defined.

Lemma forward_without_targets_witness :
  ∃ out, Separator.forward Demo.phasemix_sep
           (Separator.__init__ (λ _ : unit, Demo.filterbank) (λ _, Demo.identity) [] [] 1 2 2)
           Demo.audio = Ok out ∧
    shape out = [1; 0; 1; 5].
Proof.
  destruct (forward_without_targets Demo.phasemix_sep
              (Separator.__init__ (λ _ : unit, Demo.filterbank) (λ _, Demo.identity) [] [] 1 2 2)
              Demo.audio 1 1 5)
    as (out & Hout & Hs & _);
    [reflexivity|lia|lia|lia|reflexivity|reflexivity|reflexivity|reflexivity|reflexivity|].
  exists out. split; assumption.
Defined.
